(** * so-rad: orchestration and lifecycle layer of [bin/main_app.py]

    A shallow embedding of [init_all], [stop_all] and [run] (the main
    cycle) together with the properties of the start-up, tear-down,
    readiness and trigger logic.

    Conventions.
    - Times are integers in milliseconds.  [datetime.datetime.now()] reads
      the wall clock; [time.clock()] reads the processor time of the
      process (its meaning on Unix for Python 3.3 to 3.7, the only
      interpreters that both have [time.clock] and [datetime.timestamp]).
    - Motor positions, angles and GPS fields are integers (steps, or a
      fixed-point scaling of the float of the source).
    - Every function of a module that is not part of [bin/] (the
      [initialisation], [functions.*] and [thread_managers.*] modules,
      [RPi.GPIO], [threading], [time.sleep]) is a [call] answered by an
      environment: it returns a value, raises, or never returns.  So is
      [init_logger], which only configures the [logging] module.  Writing
      to the log itself is recorded and does not fail.
    - A local variable that can be read before it was assigned is an
      [option]: [None] is the unbound name, reading it raises
      [UnboundLocalError]. *)

From Stdlib Require Import ZArith Lia Ascii String.
From stdpp Require Import base option list gmap strings.

Local Open Scope Z_scope.

(** ** Exceptions and outcomes *)

Inductive exn : Type :=
| KeyboardInterrupt
| SystemExit (code : Z)
| UnboundLocalError (name : string)
| IndexError
| TypeError
| OtherError (what : string).

(** [except Exception] catches everything but the two direct children of
    [BaseException] that the program meets. *)
Definition is_Exception (e : exn) : bool :=
  match e with
  | KeyboardInterrupt | SystemExit _ => false
  | _ => true
  end.

(** What a computation ends with: a value, a raised exception, or nothing
    at all (a call that blocks for ever, or a loop that outlives its
    fuel). *)
Inductive outcome (A : Type) : Type :=
| Ok (a : A)
| Raise (e : exn)
| Hang.
Arguments Ok {A} a.
Arguments Raise {A} e.
Arguments Hang {A}.

(** The exit status of the interpreter: the code of [SystemExit], 1 for a
    traceback, 0 for falling off the end of the script. *)
Definition exit_code {A} (o : outcome A) : option Z :=
  match o with
  | Ok _ => Some 0
  | Raise (SystemExit c) => Some c
  | Raise _ => Some 1
  | Hang => None
  end.

(** ** Data *)

Record GPSFix : Type := {
  lat : Z; lon : Z; alt : Z; speed : Z; satellite_number : Z; datetime : Z
}.

Record Db : Type := { used : bool; cur : Z }.

Record Motor : Type := { serial : string; home_pos : Z; step_thresh : Z }.

Record MotorAngles : Type := {
  target_motor_pos_step : Z;
  target_motor_pos_deg : Z
}.

(** A started [GPSManager]: the port it reads and the ident of its thread. *)
Record GpsManager : Type := { gm_port : string; gm_ident : Z }.

(** One row of [spec_data]: [[str(sid), str(itime), str(spec)]]. *)
Record SpecRow : Type := { sid : string; itime : Z; spec : list Z }.

(** The arguments of one [db_func.commit_db] call, that is one persisted
    record.  [rec_spec_data = None] is [spec_data = None]. *)
Record TriggerRecord : Type := {
  rec_verbose : Z;
  rec_gps1 : GPSFix;
  rec_gps2 : GPSFix;
  rec_trigger_id : Z;
  rec_bearing : option Z;
  rec_solar_az : Z;
  rec_solar_el : Z;
  rec_spec_data : option (list SpecRow)
}.

Record Args : Type := { config_file : string; verbose : Z }.

(** The parts of the parsed configuration that [bin/main_app.py] reads
    itself, and the pins that [initialisation.init_gpio] takes from it. *)
Record Conf : Type := {
  gpio_pins : list Z;
  use_fixed_bearing : string;
  fixed_bearing_deg : Z
}.

(** ** Collaborators *)

Inductive call : Type -> Type :=
| db_init : call Db
| init_gpio (pins : list Z) (state : bool) : call unit
| init_logger : call unit
| comports : call (list string)
| motor_init (ports : list string) : call Motor
| gps_init (ports : list string) : call (list (string * string))
| rad_init (ports : list string) : call (list string)
| sample_init : call Z
| GPSManager_start (port : string) : call Z
| GPSChecker_start (managers : list GpsManager) : call Z
| get_motor_pos (ser : string) : call (option Z)
| return_home (ser : string) : call unit
| motor_moving (ser : string) (target tolerance : Z)
    : call (option bool * option Z)
| rotate_motor (target : Z) (ser : string) : call unit
| TriosManager (rad : list string) : call (list Z)
| check_gps (managers : list GpsManager) : call bool
| check_sensors (rad : list string) (trigger_id : option Z) : call bool
| check_sun (sample az el : Z) : call bool
| gps_fields (m : GpsManager) : call GPSFix
| mean_bearing : call (option Z)
| calculate_positions (gps : GPSFix) (bearing : option Z) (motor_pos : Z)
    : call (Z * Z * MotorAngles)
| create_gps_dict (m : GpsManager) : call GPSFix
| sample_all (trigger_id : Z)
    : call (Z * list (list Z) * list string * list Z)
| commit_db (r : TriggerRecord) : call Z
| cursor_close (c : Z) : call unit
| GPIO_output (pins : list Z) (level : bool) : call unit
| GPIO_cleanup : call unit
| gps_stop (m : GpsManager) : call unit
| thread_join (ident : Z) : call unit
| time_sleep (ms : Z) : call unit.

(** What is written to the root logger.  The format strings of the source
    are kept as constructors with their arguments. *)
Inductive part : Type :=
| PCounter (n : Z)
| PGps (ready : bool)
| PRad (ready : bool)
| PMotorNotRead (now : Z)
| PSun (bearing az el spd nsat0 nsat1 : Z)
| PNoSun
| PTrig (trigger_id db_id : Z)
| PNotReady (now : Z)
| PGpsRecorded (commit_time db_id : Z).

Inductive logmsg : Type :=
| MsgStartedLogging
| MsgCheckGps
| MsgHoming (pos : option Z) (home : Z)
| MsgHomingPoll
| MsgDone
| MsgMotorInHome
| MsgInitException
| MsgInitComplete
| MsgSun (counter az el : Z) (angles : MotorAngles)
| MsgAdjust (pos target : Z)
| MsgMoving (pos : option Z) (target : Z)
| MsgStatus (message : list part)
| MsgInterrupted
| MsgUnhandled
| MsgStoppingRad
| MsgStoppingChecker
| MsgStoppingGps
| MsgIdent (ident : Z)
| MsgActive (n : nat).

Inductive event : Type :=
| Ev {T : Type} (c : call T)
| Log (error_level : bool) (m : logmsg).

(** The environment: how each call answers in the external state [X], how
    much wall-clock time it takes and how much processor time it is
    charged. *)
Record Env (X : Type) : Type := {
  respond : forall T, call T -> X -> outcome T * X;
  elapsed : forall T, call T -> X -> N;
  processor : forall T, call T -> X -> N
}.
Arguments respond {X} _ {T} _ _.
Arguments elapsed {X} _ {T} _ _.
Arguments processor {X} _ {T} _ _.

(** ** The world and the monad *)

Record World (X : Type) : Type := {
  ext : X;
  wall : Z;
  cpu : Z;
  pin_level : gmap Z bool;
  threads : list Z;
  db_rows : list TriggerRecord;
  trace : list event
}.
Arguments ext {X} _.
Arguments wall {X} _.
Arguments cpu {X} _.
Arguments pin_level {X} _.
Arguments threads {X} _.
Arguments db_rows {X} _.
Arguments trace {X} _.

Definition M (X A : Type) : Type := World X -> outcome A * World X.

Definition ret {X A} (a : A) : M X A := fun w => (Ok a, w).

Definition bind {X A B} (m : M X A) (f : A -> M X B) : M X B := fun w =>
  match m w with
  | (Ok a, w') => f a w'
  | (Raise e, w') => (Raise e, w')
  | (Hang, w') => (Hang, w')
  end.

Declare Scope prog_scope.
Delimit Scope prog_scope with prog.
Notation "x ← y ; z" := (bind y (fun x => z))
  (at level 20, y at level 100, z at level 200, only parsing) : prog_scope.
Notation "x ;; z" := (bind x (fun _ => z))
  (at level 100, z at level 200, only parsing, right associativity)
  : prog_scope.
Local Open Scope prog_scope.

Definition raise {X A} (e : exn) : M X A := fun w => (Raise e, w).

(** [for x in xs: body]. *)
Fixpoint for_each {X A} (xs : list A) (body : A -> M X unit) : M X unit :=
  match xs with
  | [] => ret tt
  | x :: xs' => body x ;; for_each xs' body
  end.

(** Reading a local name of a Python frame. *)
Definition local {X A} (name : string) (v : option A) : M X A :=
  match v with
  | Some a => ret a
  | None => raise (UnboundLocalError name)
  end.

(** [xs[i]]. *)
Definition index {X A} (xs : list A) (i : nat) : M X A :=
  match xs !! i with
  | Some a => ret a
  | None => raise IndexError
  end.

Section Program.

Context {X : Type} (env : Env X).

(** The world once call [c] has answered, leaving the external state
    [x']. *)
Definition called {T} (c : call T) (x' : X) (w : World X) : World X :=
  {| ext := x';
     wall := wall w + Z.of_N (elapsed env c (ext w));
     cpu := cpu w + Z.of_N (processor env c (ext w));
     pin_level := pin_level w;
     threads := threads w;
     db_rows := db_rows w;
     trace := trace w ++ [Ev c] |}.

Definition ext_call {T} (c : call T) : M X T := fun w =>
  let '(r, x') := respond env c (ext w) in (r, called c x' w).

Definition log_info (m : logmsg) : M X unit := fun w =>
  (Ok tt, {| ext := ext w; wall := wall w; cpu := cpu w;
             pin_level := pin_level w; threads := threads w;
             db_rows := db_rows w; trace := trace w ++ [Log false m] |}).

Definition log_exception (m : logmsg) : M X unit := fun w =>
  (Ok tt, {| ext := ext w; wall := wall w; cpu := cpu w;
             pin_level := pin_level w; threads := threads w;
             db_rows := db_rows w; trace := trace w ++ [Log true m] |}).

(** [datetime.datetime.now()] and [time.clock()]. *)
Definition now : M X Z := fun w => (Ok (wall w), w).
Definition clock : M X Z := fun w => (Ok (cpu w), w).

(** [time.sleep]: the wall clock moves on by the time slept. *)
Definition slept (ms : Z) : M X unit := fun w =>
  (Ok tt, {| ext := ext w; wall := wall w + ms; cpu := cpu w;
             pin_level := pin_level w; threads := threads w;
             db_rows := db_rows w; trace := trace w |}).

Definition sleep (ms : Z) : M X unit :=
  ext_call (time_sleep ms) ;; slept ms.

Definition drive (pins : list Z) (level : bool) (levels : gmap Z bool)
  : gmap Z bool :=
  foldr (fun p m => <[p := level]> m) levels pins.

(** Modelled from the spec: [initialisation.init_gpio] and [RPi.GPIO] are
    not among the sources.  The pin interface of the spec sets a named set
    of digital outputs; [init_gpio(conf, state=0)] "sets all used pins to
    LOW" and [GPIO.output(pins, GPIO.LOW)] drives the pins it is given.  A
    call that answers has driven its pins to the level asked for. *)
Definition set_pins (pins : list Z) (level : bool) : M X unit := fun w =>
  (Ok tt, {| ext := ext w; wall := wall w; cpu := cpu w;
             pin_level := drive pins level (pin_level w);
             threads := threads w; db_rows := db_rows w;
             trace := trace w |}).

(** Modelled from the spec: the thread managers are not among the
    sources.  [start()] of a GPS manager and of the GPS checker starts one
    thread, the radiometer manager starts its own; [threads] is what
    [threading.enumerate()] lists after the main thread. *)
Definition spawn (idents : list Z) : M X unit := fun w =>
  (Ok tt, {| ext := ext w; wall := wall w; cpu := cpu w;
             pin_level := pin_level w; threads := threads w ++ idents;
             db_rows := db_rows w; trace := trace w |}).

(** [t.join()] returns when thread [t] has ended; an ended thread is no
    longer enumerated. *)
Definition reap (ident : Z) : M X unit := fun w =>
  (Ok tt, {| ext := ext w; wall := wall w; cpu := cpu w;
             pin_level := pin_level w;
             threads := filter (fun t => t ≠ ident) (threads w);
             db_rows := db_rows w; trace := trace w |}).

(** Modelled from the spec: [db_func.commit_db] is not among the sources.
    The persistence contract of the spec is
    [commit(verbosity, gps1, gps2, trigger_id, bearing, azimuth, elevation,
    spec_data) -> record_id]; a commit that answers has persisted its
    record. *)
Definition store (r : TriggerRecord) : M X unit := fun w =>
  (Ok tt, {| ext := ext w; wall := wall w; cpu := cpu w;
             pin_level := pin_level w; threads := threads w;
             db_rows := db_rows w ++ [r]; trace := trace w |}).

Definition hang {A} : M X A := fun w => (Hang, w).

(** ** [init_all] *)

(** ['serial' in key]. *)
Fixpoint contains (needle hay : string) : bool :=
  String.prefix needle hay ||
  match hay with
  | EmptyString => false
  | String _ rest => contains needle rest
  end.

(** [[port for key, port in gps.items() if 'serial' in key]]. *)
Definition gps_ports (gps : list (string * string)) : list string :=
  map snd (List.filter (fun kp => contains "serial" (fst kp)) gps).

(** The body of [for port in gps_ports], appending to [gps_managers]. *)
Fixpoint start_managers (ports : list string) (gps_managers : list GpsManager)
  : M X (list GpsManager) :=
  match ports with
  | [] => ret gps_managers
  | port :: rest =>
      t ← ext_call (GPSManager_start port);
      spawn [t] ;;
      start_managers rest
        (gps_managers ++ [{| gm_port := port; gm_ident := t |}])
  end.

(** [moving = flag; if moving is None: moving = True]. *)
Definition still_moving (flag : option bool) : bool :=
  match flag with
  | None => true
  | Some b => b
  end.

(** [while moving and (time.clock()-t0<5)] of the homing branch. *)
Fixpoint homing (fuel : nat) (ser : string) (home t0 : Z) (moving : bool)
  : M X unit :=
  c ← clock;
  if moving && (c - t0 <? 5000) then
    match fuel with
    | O => hang
    | S fuel' =>
        r ← ext_call (motor_moving ser home 300);
        log_info MsgHomingPoll ;;
        sleep 1000 ;;
        homing fuel' ser home t0 (still_moving (fst r))
    end
  else ret tt.

Record Handles : Type := {
  db : Db;
  rad : list string;
  sample : Z;
  gps_managers : list GpsManager;
  radiometry_manager : list Z;
  motor : Motor;
  gps_checker_manager : Z
}.

Definition init_all (fuel : nat) (conf : Conf) : M X Handles :=
  db ← ext_call db_init;
  ext_call (init_gpio (gpio_pins conf) false) ;;
  set_pins (gpio_pins conf) false ;;
  ext_call init_logger ;;
  log_info MsgStartedLogging ;;
  ports ← ext_call comports;
  motor ← ext_call (motor_init ports);
  gps ← ext_call (gps_init ports);
  rad ← ext_call (rad_init ports);
  sample ← ext_call sample_init;
  let gps_ports := gps_ports gps in
  gps_managers ←
    (if (0 <? length gps_ports)%nat
     then ms ← start_managers gps_ports []; ret (Some ms)
     else log_info MsgCheckGps ;; ret None);
  sleep 100 ;;
  managers ← local "gps_managers" gps_managers;
  gps_checker_manager ← ext_call (GPSChecker_start managers);
  spawn [gps_checker_manager] ;;
  motor_pos ← ext_call (get_motor_pos (serial motor));
  (if decide (motor_pos = Some (home_pos motor))
   then log_info MsgMotorInHome
   else
     t0 ← clock;
     log_info (MsgHoming motor_pos (home_pos motor)) ;;
     ext_call (return_home (serial motor)) ;;
     homing fuel (serial motor) (home_pos motor) t0 true ;;
     log_info MsgDone) ;;
  sleep 100 ;;
  radiometry_manager ← ext_call (TriosManager rad);
  spawn radiometry_manager ;;
  sleep 100 ;;
  ret {| db := db; rad := rad; sample := sample; gps_managers := managers;
          radiometry_manager := radiometry_manager; motor := motor;
          gps_checker_manager := gps_checker_manager |}.

(** ** [stop_all] *)

(** [while len(threading.enumerate()) > 1]: join every thread but the main
    one.  A join that returns means the thread has ended. *)
Fixpoint wait_threads (fuel : nat) : M X unit := fun w =>
  match threads w with
  | [] => (Ok tt, w)
  | ts =>
      match fuel with
      | O => (Hang, w)
      | S fuel' =>
          (for_each ts (fun t =>
             log_info (MsgIdent t) ;; ext_call (thread_join t) ;; reap t) ;;
           (fun w' => log_info (MsgActive (S (length (threads w')))) w') ;;
           sleep 500 ;;
           wait_threads fuel') w
      end
  end.

Definition sys_exit {A} (code : Z) : M X A := raise (SystemExit code).

Definition stop_all (fuel : nat) (db : Db) (radiometry_manager : list Z)
    (gps_managers : list GpsManager) (gps_checker_manager : Z) : M X unit :=
  (if used db then ext_call (cursor_close (cur db)) else ret tt) ;;
  let pins := [11; 12; 13; 15] in
  ext_call (GPIO_output pins false) ;;
  set_pins pins false ;;
  ext_call GPIO_cleanup ;;
  log_info MsgStoppingRad ;;
  (* del(radiometry_manager): the parameter name is unbound, nothing else *)
  log_info MsgStoppingChecker ;;
  (* del(gps_checker_manager) *)
  for_each gps_managers (fun gps_manager =>
    log_info MsgStoppingGps ;; ext_call (gps_stop gps_manager)) ;;
  sleep 100 ;;
  wait_threads fuel ;;
  sys_exit 0.

(** ** The main cycle of [run] *)

(** The locals of [run] that live across iterations.  [counter] and
    [last_commit_time] are assigned before the loop.  [trigger_id] and
    [ship_bearing_mean] are bound before the loop too, to Python's [None]
    at first.  The six others are assigned inside the loop only: for them
    [None] is the unbound name. *)
Record Locals : Type := {
  counter : Z;
  last_commit_time : Z;
  trigger_id : option Z;
  ship_bearing_mean : option Z;
  solar_az : option Z;
  solar_el : option Z;
  gps_ready : option bool;
  rad_ready : option bool;
  sun_suitable : option bool;
  motor_ready : option bool
}.

Definition set_counter (v : Z) (l : Locals) : Locals :=
  {| counter := v; last_commit_time := last_commit_time l;
     trigger_id := trigger_id l; ship_bearing_mean := ship_bearing_mean l;
     solar_az := solar_az l; solar_el := solar_el l;
     gps_ready := gps_ready l; rad_ready := rad_ready l;
     sun_suitable := sun_suitable l; motor_ready := motor_ready l |}.

Definition set_last_commit_time (v : Z) (l : Locals) : Locals :=
  {| counter := counter l; last_commit_time := v;
     trigger_id := trigger_id l; ship_bearing_mean := ship_bearing_mean l;
     solar_az := solar_az l; solar_el := solar_el l;
     gps_ready := gps_ready l; rad_ready := rad_ready l;
     sun_suitable := sun_suitable l; motor_ready := motor_ready l |}.

Definition set_trigger_id (v : option Z) (l : Locals) : Locals :=
  {| counter := counter l; last_commit_time := last_commit_time l;
     trigger_id := v; ship_bearing_mean := ship_bearing_mean l;
     solar_az := solar_az l; solar_el := solar_el l;
     gps_ready := gps_ready l; rad_ready := rad_ready l;
     sun_suitable := sun_suitable l; motor_ready := motor_ready l |}.

Definition set_ship_bearing_mean (v : option Z) (l : Locals) : Locals :=
  {| counter := counter l; last_commit_time := last_commit_time l;
     trigger_id := trigger_id l; ship_bearing_mean := v;
     solar_az := solar_az l; solar_el := solar_el l;
     gps_ready := gps_ready l; rad_ready := rad_ready l;
     sun_suitable := sun_suitable l; motor_ready := motor_ready l |}.

Definition set_solar (az el : Z) (l : Locals) : Locals :=
  {| counter := counter l; last_commit_time := last_commit_time l;
     trigger_id := trigger_id l; ship_bearing_mean := ship_bearing_mean l;
     solar_az := Some az; solar_el := Some el;
     gps_ready := gps_ready l; rad_ready := rad_ready l;
     sun_suitable := sun_suitable l; motor_ready := motor_ready l |}.

Definition set_gps_ready (v : bool) (l : Locals) : Locals :=
  {| counter := counter l; last_commit_time := last_commit_time l;
     trigger_id := trigger_id l; ship_bearing_mean := ship_bearing_mean l;
     solar_az := solar_az l; solar_el := solar_el l;
     gps_ready := Some v; rad_ready := rad_ready l;
     sun_suitable := sun_suitable l; motor_ready := motor_ready l |}.

Definition set_rad_ready (v : bool) (l : Locals) : Locals :=
  {| counter := counter l; last_commit_time := last_commit_time l;
     trigger_id := trigger_id l; ship_bearing_mean := ship_bearing_mean l;
     solar_az := solar_az l; solar_el := solar_el l;
     gps_ready := gps_ready l; rad_ready := Some v;
     sun_suitable := sun_suitable l; motor_ready := motor_ready l |}.

Definition set_sun_suitable (v : bool) (l : Locals) : Locals :=
  {| counter := counter l; last_commit_time := last_commit_time l;
     trigger_id := trigger_id l; ship_bearing_mean := ship_bearing_mean l;
     solar_az := solar_az l; solar_el := solar_el l;
     gps_ready := gps_ready l; rad_ready := rad_ready l;
     sun_suitable := Some v; motor_ready := motor_ready l |}.

Definition set_motor_ready (v : bool) (l : Locals) : Locals :=
  {| counter := counter l; last_commit_time := last_commit_time l;
     trigger_id := trigger_id l; ship_bearing_mean := ship_bearing_mean l;
     solar_az := solar_az l; solar_el := solar_el l;
     gps_ready := gps_ready l; rad_ready := rad_ready l;
     sun_suitable := sun_suitable l; motor_ready := Some v |}.

(** [all([gps_ready, motor_ready, rad_ready, sun_suitable])]: the list is
    built first, reading the four names from left to right. *)
Definition all_ready (l : Locals) : M X bool :=
  g ← local "gps_ready" (gps_ready l);
  m ← local "motor_ready" (motor_ready l);
  r ← local "rad_ready" (rad_ready l);
  s ← local "sun_suitable" (sun_suitable l);
  ret (g && m && r && s).

(** A float format such as [{0:1.0f}] applied to Python's [None]. *)
Definition format_f (v : option Z) : M X Z :=
  match v with
  | Some z => ret z
  | None => raise TypeError
  end.

(** [while moving and time.clock()-t0 < 5] of the tracking adjustment. *)
Fixpoint tracking (fuel : nat) (ser : string) (target_pos t0 : Z)
    (moving : bool) : M X unit :=
  c ← clock;
  if moving && (c - t0 <? 5000) then
    match fuel with
    | O => hang
    | S fuel' =>
        r ← ext_call (motor_moving ser target_pos 300);
        log_info (MsgMoving (snd r) target_pos) ;;
        sleep 2000 ;;
        tracking fuel' ser target_pos t0 (still_moving (fst r))
    end
  else ret tt.

(** [for n in range(len(sids)): spec_data.append([...])]. *)
Fixpoint splice (ns : list nat) (sids : list string) (itimes : list Z)
    (specs : list (list Z)) (spec_data : list SpecRow)
  : M X (list SpecRow) :=
  match ns with
  | [] => ret spec_data
  | n :: rest =>
      s ← index sids n;
      t ← index itimes n;
      p ← index specs n;
      splice rest sids itimes specs
        (spec_data ++ [{| sid := s; itime := t; spec := p |}])
  end.

(** [db_func.commit_db]: the record is persisted when the call returns. *)
Definition commit (r : TriggerRecord) : M X Z :=
  db_id ← ext_call (commit_db r);
  store r ;;
  ret db_id.

(** Lines 325 to 363: the measurement, the quiet branch and the metadata
    record. *)
Definition trigger (args : Args) (h : Handles) (l : Locals)
    (message : list part) : M X (Locals * list part) :=
  ready ← all_ready l;
  if ready then
    tid ← now;
    let l := set_trigger_id (Some tid) l in
    m0 ← index (gps_managers h) 0;
    gps1 ← ext_call (create_gps_dict m0);
    m1 ← index (gps_managers h) 1;
    gps2 ← ext_call (create_gps_dict m1);
    r ← ext_call (sample_all tid);
    let '(_, specs, sids, itimes) := r in
    spec_data ← splice (seq 0 (length sids)) sids itimes specs [];
    if used (db h) then
      az ← local "solar_az" (solar_az l);
      el ← local "solar_el" (solar_el l);
      db_id ← commit {| rec_verbose := verbose args; rec_gps1 := gps1;
                        rec_gps2 := gps2; rec_trigger_id := tid;
                        rec_bearing := ship_bearing_mean l;
                        rec_solar_az := az; rec_solar_el := el;
                        rec_spec_data := Some spec_data |};
      t ← now;
      ret (set_last_commit_time t l, message ++ [PTrig tid db_id])
    else ret (l, message)
  else
    t ← now;
    if Z.abs (t - last_commit_time l) <? 60000 then
      t' ← now;
      ret (l, message ++ [PNotReady t'])
    else
      m0 ← index (gps_managers h) 0;
      gps1 ← ext_call (create_gps_dict m0);
      m1 ← index (gps_managers h) 1;
      gps2 ← ext_call (create_gps_dict m1);
      no_trigger_id ← now;
      if used (db h) then
        az ← local "solar_az" (solar_az l);
        el ← local "solar_el" (solar_el l);
        db_id ← commit {| rec_verbose := verbose args; rec_gps1 := gps1;
                          rec_gps2 := gps2; rec_trigger_id := no_trigger_id;
                          rec_bearing := ship_bearing_mean l;
                          rec_solar_az := az; rec_solar_el := el;
                          rec_spec_data := None |};
        t' ← now;
        ret (set_last_commit_time t' l, message ++ [PGpsRecorded t' db_id])
      else ret (l, message).

(** The end of an iteration that was not cut short by [continue]. *)
Definition finish (args : Args) (h : Handles) (l : Locals)
    (message : list part) : M X Locals :=
  r ← trigger args h l message;
  log_info (MsgStatus (snd r)) ;;
  sleep 5000 ;;
  ret (fst r).

(** Lines 254 to 304: the branch taken when [gps_ready] holds. *)
Definition gps_branch (fuel : nat) (args : Args) (h : Handles)
    (bearing_fixed : bool) (l : Locals) (message : list part) : M X Locals :=
  m0 ← index (gps_managers h) 0;
  f0 ← ext_call (gps_fields m0);
  m1 ← index (gps_managers h) 1;
  f1 ← ext_call (gps_fields m1);
  motor_pos ← ext_call (get_motor_pos (serial (motor h)));
  match motor_pos with
  | None =>
      t ← now;
      sleep 5000 ;;
      ret l
  | Some pos =>
      l ← (if bearing_fixed then ret l
           else b ← ext_call mean_bearing; ret (set_ship_bearing_mean b l));
      m0 ← index (gps_managers h) 0;
      g0 ← ext_call (gps_fields m0);
      m1 ← index (gps_managers h) 1;
      g1 ← ext_call (gps_fields m1);
      r ← ext_call (calculate_positions g0 (ship_bearing_mean l) pos);
      let '(solar_az, solar_el, motor_angles) := r in
      let l := set_solar solar_az solar_el l in
      log_info (MsgSun (counter l) solar_az solar_el motor_angles) ;;
      bearing ← format_f (ship_bearing_mean l);
      let message :=
        message ++ [PSun bearing solar_az solar_el (speed f0)
                         (satellite_number f0) (satellite_number f1)] in
      sun ← ext_call (check_sun (sample h) solar_az solar_el);
      let l := set_sun_suitable sun l in
      (if sun && (Z.abs (target_motor_pos_step motor_angles - pos)
                  >? step_thresh (motor h))
       then
         log_info (MsgAdjust pos (target_motor_pos_step motor_angles)) ;;
         let target_pos := target_motor_pos_step motor_angles in
         ext_call (rotate_motor target_pos (serial (motor h))) ;;
         t0 ← clock;
         tracking fuel (serial (motor h)) target_pos t0 true
       else ret tt) ;;
      let l := set_motor_ready true l in
      finish args h l message
  end.

(** The body of [while True], inside the [try]. *)
Definition cycle (fuel : nat) (args : Args) (h : Handles)
    (bearing_fixed : bool) (l : Locals) : M X Locals :=
  let l := set_counter (counter l + 1) l in
  let message := [PCounter (counter l)] in
  g ← ext_call (check_gps (gps_managers h));
  let l := set_gps_ready g l in
  let message := message ++ [PGps g] in
  r ← ext_call (check_sensors (rad h) (trigger_id l));
  let l := set_rad_ready r l in
  let message := message ++ [PRad r] in
  if g then gps_branch fuel args h bearing_fixed l message
  else
    let message := message ++ [PNoSun] in
    let l := set_sun_suitable false l in
    finish args h l message.

(** [while True] with its two handlers; [cycles] bounds the iterations
    that are followed.  An exception leaves the [try] with the locals as
    they were when it was raised; [stop_all] never returns, so the loop is
    not resumed after the first handler and the locals given to the
    resumed loop here are never used. *)
Fixpoint loop (cycles fuel : nat) (args : Args) (h : Handles)
    (bearing_fixed : bool) (l : Locals) : M X unit := fun w =>
  match cycles with
  | O => (Hang, w)
  | S cycles' =>
      match cycle fuel args h bearing_fixed l w with
      | (Ok l', w') => loop cycles' fuel args h bearing_fixed l' w'
      | (Raise e, w') =>
          match e with
          | KeyboardInterrupt =>
              (log_info MsgInterrupted ;;
               stop_all fuel (db h) (radiometry_manager h) (gps_managers h)
                 (gps_checker_manager h) ;;
               loop cycles' fuel args h bearing_fixed l) w'
          | _ =>
              if is_Exception e then
                (log_exception MsgUnhandled ;;
                 stop_all fuel (db h) (radiometry_manager h) (gps_managers h)
                   (gps_checker_manager h) ;;
                 raise e) w'
              else (Raise e, w')
          end
      | (Hang, w') => (Hang, w')
      end
  end.

(** [str.lower] on ASCII. *)
Definition lower_ascii (c : ascii) : ascii :=
  let n := nat_of_ascii c in
  if ((65 <=? n) && (n <=? 90))%nat then ascii_of_nat (n + 32) else c.

Fixpoint lower (s : string) : string :=
  match s with
  | EmptyString => EmptyString
  | String c rest => String (lower_ascii c) (lower rest)
  end.

(** The locals of [run] when the loop is entered (lines 222 to 241). *)
Definition start_locals (conf : Conf) (t : Z) : Locals :=
  let bearing_fixed := String.eqb (lower (use_fixed_bearing conf)) "true" in
  {| counter := 0; last_commit_time := t;
     trigger_id := None;
     ship_bearing_mean :=
       if bearing_fixed then Some (fixed_bearing_deg conf) else None;
     solar_az := None; solar_el := None;
     gps_ready := None; rad_ready := None;
     sun_suitable := None; motor_ready := None |}.

(** [run], after [parse_args] and [read_config] returned [args] and
    [conf].  When [init_all] raises, the tuple assignment of line 215 has
    not happened: every one of its targets, [log] among them, is still
    unbound in the handler. *)
Definition run (cycles fuel : nat) (args : Args) (conf : Conf) : M X unit :=
  fun w =>
  match init_all fuel conf w with
  | (Ok h, w1) =>
      (log_info MsgInitComplete ;;
       t ← now;
       let bearing_fixed :=
         String.eqb (lower (use_fixed_bearing conf)) "true" in
       loop cycles fuel args h bearing_fixed (start_locals conf t)) w1
  | (Raise e, w1) =>
      if is_Exception e then
        let frame : option Handles := None in
        (_ ← local "log" frame;
         log_exception MsgInitException ;;
         h ← local "db_dict" frame;
         stop_all fuel (db h) (radiometry_manager h) (gps_managers h)
           (gps_checker_manager h) ;;
         raise e) w1
      else (Raise e, w1)
  | (Hang, w1) => (Hang, w1)
  end.

End Program.

Arguments hang {X A} _.
Arguments sys_exit {X A} _ _.

(** ** Vocabulary of the statements *)

(** The call [c] always answers with a value. *)
Definition returns {X T} (env : Env X) (c : call T) : Prop :=
  forall x, exists a x', respond env c x = (Ok a, x').

(** [quiet w w']: from [w] to [w'] the wall clock did not go back and no
    record was persisted. *)
Definition quiet {X} (w w' : World X) : Prop :=
  wall w <= wall w' /\ db_rows w' = db_rows w.

Definition Quiet {X A} (m : M X A) : Prop := forall w, quiet w (snd (m w)).

(** [sample_all] answers with parallel sequences: a spectrum and an
    integration time for every channel id. *)
Definition parallel (r : Z * list (list Z) * list string * list Z) : Prop :=
  let '(_, specs, sids, itimes) := r in
  length specs = length sids /\ length itimes = length sids.

(** What a cycle that starts in [w] with last commit time [t] may have
    done when it ends with [r]: it persisted nothing and kept [t], or it
    persisted one record, not before [t] and, when it is a metadata-only
    record, not before [t] + 60 s, and the new commit time is not before
    that record. *)
Definition paced {X A} (lct : A -> Z) (t : Z) (w : World X)
    (r : outcome A * World X) : Prop :=
  wall w <= wall (snd r) /\
  ((db_rows (snd r) = db_rows w /\
    forall a, fst r = Ok a -> lct a = t) \/
   (exists row,
      db_rows (snd r) = db_rows w ++ [row] /\
      t <= rec_trigger_id row /\
      (rec_spec_data row = None -> t + 60000 <= rec_trigger_id row) /\
      forall a, fst r = Ok a ->
        rec_trigger_id row <= lct a /\ lct a <= wall (snd r))).

Definition Paced {X A} (lct : A -> Z) (t : Z) (m : M X A) (w : World X)
  : Prop :=
  t <= wall w -> paced lct t w (m w).

(** Records in the order they were persisted after time [t]: the trigger
    ids do not decrease, and a metadata-only record follows what precedes
    it by 60 s at least. *)
Fixpoint spaced (t : Z) (rows : list TriggerRecord) : Prop :=
  match rows with
  | [] => True
  | r :: rest =>
      t <= rec_trigger_id r /\
      (rec_spec_data r = None -> t + 60000 <= rec_trigger_id r) /\
      spaced (rec_trigger_id r) rest
  end.

(** Some call of the environment raises [e]. *)
Definition raised_by_call {X} (env : Env X) (e : exn) : Prop :=
  exists T (c : call T) x x', respond env c x = (Raise e, x').

(** [m] raises nothing of its own but what [own] allows: any other
    exception that leaves it was raised by a call. *)
Definition Passes {X A} (env : Env X) (own : exn -> Prop) (m : M X A)
  : Prop :=
  forall w e w', m w = (Raise e, w') -> own e \/ raised_by_call env e.

(** ** Observations on a trace *)

(** How often [GPIO.output(pins, GPIO.LOW)], the pins-OFF step of
    [stop_all], was issued. *)
Definition pins_off_steps (tr : list event) : nat :=
  List.length (List.filter
    (fun e => match e with
              | Ev (GPIO_output _ false) => true
              | _ => false
              end) tr).

(** How often the motor was polled through [motor_moving]. *)
Definition polls (tr : list event) : nat :=
  List.length (List.filter
    (fun e => match e with
              | Ev (motor_moving _ _ _) => true
              | _ => false
              end) tr).

(** How often the motor position was asked for. *)
Definition position_reads (tr : list event) : nat :=
  List.length (List.filter
    (fun e => match e with
              | Ev (get_motor_pos _) => true
              | _ => false
              end) tr).

(** ** The steps of the tear-down *)

(** The step of [stop_all] that an event belongs to, in the order of the
    source: 1 closing the cursor (line 169), 2 the pins-OFF step (line
    173: pins 11, 12, 13 and 15, low), 3 the GPIO clean-up (line 174), 4
    and 5 the log lines of lines 177 and 181, 6 stopping the GPS managers
    (lines 185 to 187), 7 the sleep of line 189, 8 the joins (lines 192 to
    197).  0 is an event that [stop_all] does not issue. *)
Definition teardown_step (e : event) : nat :=
  match e with
  | Ev (cursor_close _) => 1
  | Ev (GPIO_output pins level) =>
      if negb level && bool_decide (pins = [11; 12; 13; 15]) then 2 else 0
  | Ev GPIO_cleanup => 3
  | Log false MsgStoppingRad => 4
  | Log false MsgStoppingChecker => 5
  | Log false MsgStoppingGps => 6
  | Ev (gps_stop _) => 6
  | Ev (time_sleep 100) => 7
  | Log false (MsgIdent _) => 8
  | Ev (thread_join _) => 8
  | Log false (MsgActive _) => 8
  | Ev (time_sleep 500) => 8
  | _ => 0
  end.

(** The events are issued in the order of the steps of [stop_all], none
    of them by a step before step [k]. *)
Fixpoint in_step_order (k : nat) (evs : list event) : Prop :=
  match evs with
  | [] => True
  | ev :: rest =>
      (k <= teardown_step ev)%nat /\ in_step_order (teardown_step ev) rest
  end.

(** [m] belongs to the steps [lo] to [hi] of the tear-down: it leaves the
    pins as they are, what it issues is in the order of the steps, and
    when an exception leaves it, a call raised it and nothing was done
    after that call. *)
Definition Steps {X A} (env : Env X) (lo hi : nat) (m : M X A) : Prop :=
  forall w,
    pin_level (snd (m w)) = pin_level w /\
    exists evs,
      trace (snd (m w)) = trace w ++ evs /\
      in_step_order lo evs /\
      Forall (fun ev => (teardown_step ev <= hi)%nat) evs /\
      forall e, fst (m w) = Raise e ->
        exists T (c : call T) w0 x' pre,
          respond env c (ext w0) = (Raise e, x') /\
          snd (m w) = called env c x' w0 /\
          trace w0 = trace w ++ pre /\
          evs = pre ++ [Ev c].

(** ** Vocabulary of the further properties *)

(** [a] is among the values call [c] may answer with. *)
Definition answers {X T} (env : Env X) (c : call T) (a : T) : Prop :=
  exists x x', respond env c x = (Ok a, x').

(** [grows P Q w w']: from [w] to [w'] the wall clock did not go back, the
    events issued all satisfy [P] and the records persisted all satisfy
    [Q]. *)
Definition grows {X} (P : event -> Prop) (Q : TriggerRecord -> Prop)
    (w w' : World X) : Prop :=
  wall w <= wall w' /\
  (exists evs, trace w' = trace w ++ evs /\ Forall P evs) /\
  (exists rows, db_rows w' = db_rows w ++ rows /\ Forall Q rows).

(** Whatever [m] does is within [P] and [Q], and a value it returns
    satisfies [R]. *)
Definition Grows {X A} (P : event -> Prop) (Q : TriggerRecord -> Prop)
    (R : A -> Prop) (m : M X A) : Prop :=
  forall w, grows P Q w (snd (m w)) /\ forall a, fst (m w) = Ok a -> R a.

(** When [m] returns, [d] milliseconds at least have passed on the wall
    clock. *)
Definition Takes {X A} (d : Z) (m : M X A) : Prop :=
  forall w a w', m w = (Ok a, w') -> wall w + d <= wall w'.

(** Whatever [m] does, it persists [n] records at most. *)
Definition Persists {X A} (n : nat) (m : M X A) : Prop :=
  forall w, exists rows,
    db_rows (snd (m w)) = db_rows w ++ rows /\ (length rows <= n)%nat.

(** [m], started in [w], persists nothing, or one record stamped not
    before the start, [d] milliseconds at least before [m] returns. *)
Definition stamps {X A} (d : Z) (w : World X) (r : outcome A * World X)
  : Prop :=
  wall w <= wall (snd r) /\
  (db_rows (snd r) = db_rows w \/
   exists row,
     db_rows (snd r) = db_rows w ++ [row] /\
     wall w <= rec_trigger_id row /\
     forall a, fst r = Ok a -> rec_trigger_id row + d <= wall (snd r)).

Definition Stamps {X A} (d : Z) (m : M X A) : Prop :=
  forall w, stamps d w (m w).

(** Records in the order they were persisted, the first not before [t],
    each [d] milliseconds at least after the one before. *)
Fixpoint apart (d t : Z) (rows : list TriggerRecord) : Prop :=
  match rows with
  | [] => True
  | r :: rest => t <= rec_trigger_id r /\ apart d (rec_trigger_id r + d) rest
  end.

(** What follows the reading of the time [tid]: nothing is persisted, or
    one record stamped [tid]. *)
Definition Commits {X A} (tid : Z) (m : M X A) : Prop :=
  forall w, wall w <= wall (snd (m w)) /\
    (db_rows (snd (m w)) = db_rows w \/
     exists row, db_rows (snd (m w)) = db_rows w ++ [row] /\
                 rec_trigger_id row = tid).

(** The events of the tear-down: what [stop_all] may issue. *)
Definition teardown_event (e : event) : bool :=
  match e with
  | Ev (cursor_close _) => true
  | Ev (GPIO_output pins level) =>
      negb level && bool_decide (pins = [11; 12; 13; 15])
  | Ev GPIO_cleanup => true
  | Ev (gps_stop _) => true
  | Ev (thread_join _) => true
  | Ev (time_sleep _) => true
  | Log false MsgStoppingRad => true
  | Log false MsgStoppingChecker => true
  | Log false MsgStoppingGps => true
  | Log false (MsgIdent _) => true
  | Log false (MsgActive _) => true
  | _ => false
  end.

(** The events of the start-up: what [init_all] may issue, the homing of
    the motor apart. *)
Definition startup_event (e : event) : bool :=
  match e with
  | Ev db_init => true
  | Ev (init_gpio _ state) => negb state
  | Ev init_logger => true
  | Ev comports => true
  | Ev (motor_init _) => true
  | Ev (gps_init _) => true
  | Ev (rad_init _) => true
  | Ev sample_init => true
  | Ev (GPSManager_start _) => true
  | Ev (GPSChecker_start _) => true
  | Ev (get_motor_pos _) => true
  | Ev (TriosManager _) => true
  | Ev (time_sleep _) => true
  | Log false MsgStartedLogging => true
  | Log false MsgCheckGps => true
  | Log false MsgMotorInHome => true
  | _ => false
  end.

(** The events of the homing of the motor (lines 139 to 149). *)
Definition homing_event (e : event) : bool :=
  match e with
  | Ev (return_home _) => true
  | Ev (motor_moving _ _ _) => true
  | Ev (time_sleep _) => true
  | Log false (MsgHoming _ _) => true
  | Log false MsgHomingPoll => true
  | Log false MsgDone => true
  | _ => false
  end.

(** The events of the end of an iteration (lines 325 to 366), the commit
    apart. *)
Definition measuring_event (e : event) : bool :=
  match e with
  | Ev (create_gps_dict _) => true
  | Ev (sample_all _) => true
  | Ev (time_sleep _) => true
  | Log false (MsgStatus _) => true
  | _ => false
  end.

(** The events of the first part of an iteration: the checks, the GPS
    fields, the motor position and the position of the sun. *)
Definition looking_event (e : event) : bool :=
  match e with
  | Ev (check_gps _) => true
  | Ev (check_sensors _ _) => true
  | Ev (gps_fields _) => true
  | Ev (get_motor_pos _) => true
  | Ev (calculate_positions _ _ _) => true
  | Ev (check_sun _ _ _) => true
  | Ev (time_sleep _) => true
  | Log false (MsgSun _ _ _ _) => true
  | _ => false
  end.

(** The events of the adjustment of the motor (lines 292 to 303). *)
Definition moving_event (e : event) : bool :=
  match e with
  | Ev (rotate_motor _ _) => true
  | Ev (motor_moving _ _ _) => true
  | Ev (time_sleep _) => true
  | Log false (MsgAdjust _ _) => true
  | Log false (MsgMoving _ _) => true
  | _ => false
  end.

(** The events of the joining of the threads at the end of [stop_all]. *)
Definition joining_event (e : event) : bool :=
  match e with
  | Ev (thread_join _) => true
  | Ev (time_sleep _) => true
  | Log false (MsgIdent _) => true
  | Log false (MsgActive _) => true
  | _ => false
  end.

(** The two log lines of the handlers of the loop. *)
Definition handler_event (e : event) : bool :=
  match e with
  | Log false MsgInterrupted => true
  | Log true MsgUnhandled => true
  | _ => false
  end.

(** No event asks for a pin to be driven high. *)
Definition never_high (e : event) : bool :=
  match e with
  | Ev (GPIO_output _ level) => negb level
  | Ev (init_gpio _ state) => negb state
  | _ => true
  end.

(** The event does not move the motor and does not poll it. *)
Definition motor_at_rest (e : event) : bool :=
  match e with
  | Ev (rotate_motor _ _) => false
  | Ev (return_home _) => false
  | Ev (motor_moving _ _ _) => false
  | _ => true
  end.

(** The event is no sampling, no commit and no status line. *)
Definition idle_event (e : event) : bool :=
  match e with
  | Ev (sample_all _) => false
  | Ev (commit_db _) => false
  | Ev (create_gps_dict _) => false
  | Log _ (MsgStatus _) => false
  | _ => true
  end.

(** The event is no commit to the database. *)
Definition uncommitted (e : event) : bool :=
  match e with
  | Ev (commit_db _) => false
  | _ => true
  end.

(** The event does not ask a GPS manager to stop. *)
Definition unstopping (e : event) : bool :=
  match e with
  | Ev (gps_stop _) => false
  | _ => true
  end.

(** The event is not a reading of the mean bearing of the GPS checker. *)
Definition bearing_unread (e : event) : bool :=
  match e with
  | Ev mean_bearing => false
  | _ => true
  end.

(** The GPS managers that were asked to stop, in the order of the calls. *)
Definition stopped (tr : list event) : list GpsManager :=
  omap (fun e => match e with
                 | Ev (gps_stop m) => Some m
                 | _ => None
                 end) tr.

(** Some answers of the environment lead an iteration into the adjustment
    of the motor: the sun is suitable and the target is further from the
    position than the threshold of the motor. *)
Definition adjusts {X} (env : Env X) (h : Handles) : Prop :=
  exists g b pos az el angles,
    answers env (calculate_positions g b pos) (az, el, angles) /\
    answers env (check_sun (sample h) az el) true /\
    step_thresh (motor h) < Z.abs (target_motor_pos_step angles - pos).

(** Some answers of the environment lead an iteration to its end, where
    the gate is evaluated: the GPS is not ready, or the position of the
    motor is read. *)
Definition measures {X} (env : Env X) : Prop :=
  (exists ms, answers env (check_gps ms) false) \/
  (exists ser pos, answers env (get_motor_pos ser) (Some pos)).

(** Some answers of the environment lead the start-up into the homing of
    the motor: the position read is not the home position. *)
Definition homes {X} (env : Env X) : Prop :=
  exists ports m ser pos,
    answers env (motor_init ports) m /\
    answers env (get_motor_pos ser) pos /\
    pos <> Some (home_pos m).

(** The rows [spec_data] is made of when every index is in range. *)
Fixpoint spliced (sids : list string) (itimes : list Z)
    (specs : list (list Z)) : list SpecRow :=
  match sids, itimes, specs with
  | s :: sids', t :: itimes', p :: specs' =>
      {| sid := s; itime := t; spec := p |} :: spliced sids' itimes' specs'
  | _, _, _ => []
  end.

(** What a record persisted by the loop is made of: the verbosity of the
    command line, a snapshot of the first and of the second GPS manager,
    and for spectra either nothing or the rows spliced from what
    [sample_all] answered when called with the trigger id of the
    record. *)
Definition well_formed_record {X} (env : Env X) (args : Args) (h : Handles)
    (r : TriggerRecord) : Prop :=
  rec_verbose r = verbose args /\
  (exists m0, gps_managers h !! 0%nat = Some m0 /\
              answers env (create_gps_dict m0) (rec_gps1 r)) /\
  (exists m1, gps_managers h !! 1%nat = Some m1 /\
              answers env (create_gps_dict m1) (rec_gps2 r)) /\
  match rec_spec_data r with
  | None => True
  | Some rows =>
      exists t specs sids itimes,
        answers env (sample_all (rec_trigger_id r)) (t, specs, sids, itimes) /\
        rows = spliced sids itimes specs
  end.

(** What a part of an iteration leaves of the locals [l]: the counter and
    the two flags computed at the start of the iteration are as they
    were, with a fixed bearing the bearing is as it was, and
    [motor_ready] is true or as it was. *)
Definition carried (bf : bool) (l l' : Locals) : Prop :=
  counter l' = counter l /\
  gps_ready l' = gps_ready l /\
  rad_ready l' = rad_ready l /\
  (bf = true -> ship_bearing_mean l' = ship_bearing_mean l) /\
  (motor_ready l' = Some true \/ motor_ready l' = motor_ready l).

(** The locals at the start of the body of the loop, once the two checks
    have answered [g] and [r]. *)
Definition checked (g r : bool) (l : Locals) : Locals :=
  set_rad_ready r (set_gps_ready g (set_counter (counter l + 1) l)).

(** The events that follow an exception raised in an iteration: the log
    line of the handler and the tear-down. *)
Definition closing_event (e : event) : bool :=
  teardown_event e || handler_event e.

(** The event stops a GPS manager or joins a thread. *)
Definition ending_event (e : event) : bool :=
  match e with
  | Ev (gps_stop _) => true
  | Ev (thread_join _) => true
  | _ => false
  end.

(** The exceptions the program raises by itself are of class
    [Exception]. *)
Definition own_error (e : exn) : Prop := is_Exception e = true.

(** ** Scenarios

    Concrete environments on which the program is run in the examples
    below.  [nominal] is a platform on which everything answers: two GPS
    receivers, a motor in its home position, two radiometer channels. *)
Module Scenario.

Definition fix0 : GPSFix :=
  {| lat := 50366; lon := -4148; alt := 10; speed := 3;
     satellite_number := 9; datetime := 0 |}.

Definition motor0 : Motor :=
  {| serial := "ttyUSB0"; home_pos := 0; step_thresh := 100 |}.

Definition nominal {X} (T : Type) (c : call T) (x : X) : outcome T * X :=
  match c in call T return outcome T * X with
  | db_init => (Ok {| used := true; cur := 7 |}, x)
  | init_gpio _ _ => (Ok tt, x)
  | init_logger => (Ok tt, x)
  | comports => (Ok ["ttyUSB0"; "ttyUSB1"; "ttyUSB2"; "ttyUSB3"], x)
  | motor_init _ => (Ok motor0, x)
  | gps_init _ =>
      (Ok [("serial1", "ttyUSB1"); ("baudrate", "115200");
           ("serial2", "ttyUSB2")], x)
  | rad_init _ => (Ok ["ttyUSB3"], x)
  | sample_init => (Ok 0, x)
  | GPSManager_start port =>
      (Ok (if String.eqb port "ttyUSB1" then 301 else 302), x)
  | GPSChecker_start _ => (Ok 100, x)
  | get_motor_pos _ => (Ok (Some 0), x)
  | return_home _ => (Ok tt, x)
  | motor_moving _ target _ => (Ok (Some false, Some target), x)
  | rotate_motor _ _ => (Ok tt, x)
  | TriosManager _ => (Ok [200], x)
  | check_gps _ => (Ok true, x)
  | check_sensors _ _ => (Ok true, x)
  | check_sun _ _ _ => (Ok true, x)
  | gps_fields _ => (Ok fix0, x)
  | mean_bearing => (Ok (Some 90), x)
  | calculate_positions _ _ pos =>
      (Ok (180, 40, {| target_motor_pos_step := pos;
                       target_motor_pos_deg := 0 |}), x)
  | create_gps_dict _ => (Ok fix0, x)
  | sample_all t =>
      (Ok (t, [[1; 2]; [3; 4]], ["SAM_1"; "SAM_2"], [64; 128]), x)
  | commit_db _ => (Ok 1, x)
  | cursor_close _ => (Ok tt, x)
  | GPIO_output _ _ => (Ok tt, x)
  | GPIO_cleanup => (Ok tt, x)
  | gps_stop _ => (Ok tt, x)
  | thread_join _ => (Ok tt, x)
  | time_sleep _ => (Ok tt, x)
  end.

(** Every call takes a millisecond of wall-clock and of processor time; a
    sleep is charged no processor time. *)
Definition unit_cost {X} (T : Type) (c : call T) (x : X) : N := 1%N.

Definition idle_sleep {X} (T : Type) (c : call T) (x : X) : N :=
  match c with
  | time_sleep _ => 0%N
  | _ => 1%N
  end.

Definition platform {X} (answers : forall T, call T -> X -> outcome T * X)
  : Env X :=
  {| respond := answers; elapsed := unit_cost; processor := idle_sleep |}.

Definition env_nominal : Env unit := platform nominal.

(** The database cannot be reached. *)
Definition db_down {X} (T : Type) (c : call T) (x : X) : outcome T * X :=
  match c in call T return outcome T * X with
  | db_init => (Raise (OtherError "OperationalError"), x)
  | c' => nominal _ c' x
  end.

(** No key of the GPS section names a serial port. *)
Definition no_gps {X} (T : Type) (c : call T) (x : X) : outcome T * X :=
  match c in call T return outcome T * X with
  | gps_init _ => (Ok [("baudrate", "115200")], x)
  | c' => nominal _ c' x
  end.

(** Only one GPS receiver is plugged in. *)
Definition one_gps {X} (T : Type) (c : call T) (x : X) : outcome T * X :=
  match c in call T return outcome T * X with
  | gps_init _ => (Ok [("serial1", "ttyUSB1"); ("baudrate", "115200")], x)
  | c' => nominal _ c' x
  end.

(** A radiometer stops answering in the middle of [sample_all]. *)
Definition sampling_fault {X} (T : Type) (c : call T) (x : X)
  : outcome T * X :=
  match c in call T return outcome T * X with
  | sample_all _ => (Raise (OtherError "SerialException"), x)
  | c' => nominal _ c' x
  end.

(** The operator presses Ctrl-C during the first sleep of the cycle. *)
Definition interrupted {X} (T : Type) (c : call T) (x : X)
  : outcome T * X :=
  match c in call T return outcome T * X with
  | time_sleep 5000 => (Raise KeyboardInterrupt, x)
  | c' => nominal _ c' x
  end.

(** The receivers have no fix yet. *)
Definition gps_cold {X} (T : Type) (c : call T) (x : X) : outcome T * X :=
  match c in call T return outcome T * X with
  | check_gps _ => (Ok false, x)
  | c' => nominal _ c' x
  end.

(** The receivers have a fix in the first cycle and lose it afterwards;
    the motor stops answering at the same time.  The state counts the
    [check_gps] calls. *)
Definition gps_lost (T : Type) (c : call T) (x : nat) : outcome T * nat :=
  match c in call T return outcome T * nat with
  | check_gps _ => (Ok (Nat.eqb x 0), S x)
  | get_motor_pos _ => (Ok (if Nat.eqb x 1 then Some 0 else None), x)
  | c' => nominal _ c' x
  end.

(** The platform is jammed away from home: the position never changes and
    the moving flag is never cleared. *)
Definition jammed {X} (T : Type) (c : call T) (x : X) : outcome T * X :=
  match c in call T return outcome T * X with
  | get_motor_pos _ => (Ok (Some 5000), x)
  | motor_moving _ _ _ => (Ok (Some true, Some 5000), x)
  | c' => nominal _ c' x
  end.

(** The same motor with a controller whose status cannot be read. *)
Definition unreadable {X} (T : Type) (c : call T) (x : X) : outcome T * X :=
  match c in call T return outcome T * X with
  | get_motor_pos _ => (Ok (Some 5000), x)
  | motor_moving _ _ _ => (Ok (None, None), x)
  | c' => nominal _ c' x
  end.

(** A poll of the motor costs 10 ms of processor time, a sleep none. *)
Definition poll_cost {X} (T : Type) (c : call T) (x : X) : N :=
  match c with
  | motor_moving _ _ _ => 10%N
  | _ => 0%N
  end.

Definition env_jammed : Env unit :=
  {| respond := jammed; elapsed := fun _ _ _ => 0%N;
     processor := poll_cost |}.

(** The same jammed platform, in a process that is charged as much
    processor time as it sleeps (its other threads keep one core busy):
    there [time.clock] advances like a wall clock. *)
Definition busy_sleep {X} (T : Type) (c : call T) (x : X) : N :=
  match c with
  | time_sleep ms => Z.to_N ms
  | _ => 0%N
  end.

Definition env_jammed_busy : Env unit :=
  {| respond := jammed; elapsed := fun _ _ _ => 0%N;
     processor := busy_sleep |}.

(** The configuration does not use a database. *)
Definition no_db {X} (T : Type) (c : call T) (x : X) : outcome T * X :=
  match c in call T return outcome T * X with
  | db_init => (Ok {| used := false; cur := 0 |}, x)
  | c' => nominal _ c' x
  end.

(** The sun is below the accepted elevation. *)
Definition night {X} (T : Type) (c : call T) (x : X) : outcome T * X :=
  match c in call T return outcome T * X with
  | check_sun _ _ _ => (Ok false, x)
  | c' => nominal _ c' x
  end.

Definition night_no_db {X} (T : Type) (c : call T) (x : X)
  : outcome T * X :=
  match c in call T return outcome T * X with
  | db_init => (Ok {| used := false; cur := 0 |}, x)
  | check_sun _ _ _ => (Ok false, x)
  | c' => nominal _ c' x
  end.

(** The connection to the database was lost: closing the cursor fails. *)
Definition close_fails {X} (T : Type) (c : call T) (x : X)
  : outcome T * X :=
  match c in call T return outcome T * X with
  | cursor_close _ => (Raise (OtherError "ProgrammingError"), x)
  | c' => nominal _ c' x
  end.

Definition args0 : Args := {| config_file := "config.ini"; verbose := 3 |}.

Definition conf0 : Conf :=
  {| gpio_pins := [11; 12; 13; 15]; use_fixed_bearing := "False";
     fixed_bearing_deg := 0 |}.

(** The process starts with the pins as the previous run left them: the
    supply of the radiometers (pin 11) is on. *)
Definition boot {X} (x : X) : World X :=
  {| ext := x; wall := 1000000; cpu := 0;
     pin_level := {[ 11 := true ]}; threads := [];
     db_rows := []; trace := [] |}.

(** The same process once [init_all] has returned: its four threads are
    alive. *)
Definition running {X} (x : X) : World X :=
  {| ext := x; wall := 1000000; cpu := 0;
     pin_level := {[ 11 := true ]}; threads := [301; 302; 100; 200];
     db_rows := []; trace := [] |}.

(** The handles and locals of a run on [nominal] that has made some
    cycles. *)
Definition handles0 (with_db : bool) : Handles :=
  {| db := {| used := with_db; cur := 7 |}; rad := ["ttyUSB3"]; sample := 0;
     gps_managers := [{| gm_port := "ttyUSB1"; gm_ident := 301 |};
                      {| gm_port := "ttyUSB2"; gm_ident := 302 |}];
     radiometry_manager := [200]; motor := motor0;
     gps_checker_manager := 100 |}.

Definition locals0 (gps sun : bool) (last_commit : Z) : Locals :=
  {| counter := 13; last_commit_time := last_commit;
     trigger_id := None; ship_bearing_mean := Some 90;
     solar_az := Some 180; solar_el := Some 40;
     gps_ready := Some gps; rad_ready := Some true;
     sun_suitable := Some sun; motor_ready := Some true |}.

(** The controller of the motor does not answer with a position. *)
Definition motor_silent {X} (T : Type) (c : call T) (x : X)
  : outcome T * X :=
  match c in call T return outcome T * X with
  | get_motor_pos _ => (Ok None, x)
  | c' => nominal _ c' x
  end.

(** The operator presses Ctrl-C while the GPS is being checked. *)
Definition interrupted_early {X} (T : Type) (c : call T) (x : X)
  : outcome T * X :=
  match c in call T return outcome T * X with
  | check_gps _ => (Raise KeyboardInterrupt, x)
  | c' => nominal _ c' x
  end.

(** A configuration with a fixed bearing of 45 degrees. *)
Definition conf_fixed : Conf :=
  {| gpio_pins := [11; 12; 13; 15]; use_fixed_bearing := "True";
     fixed_bearing_deg := 45 |}.

End Scenario.

(** ** Reasoning about programs *)

Section Reasoning.

Context {X : Type} (env : Env X).

Lemma bind_Ok {A B} (m : M X A) (f : A -> M X B) w a w' :
  m w = (Ok a, w') -> bind m f w = f a w'.
Proof. intros E. unfold bind. now rewrite E. Qed.

Lemma bind_Raise {A B} (m : M X A) (f : A -> M X B) w e w' :
  m w = (Raise e, w') -> bind m f w = (Raise e, w').
Proof. intros E. unfold bind. now rewrite E. Qed.

Lemma bind_Hang {A B} (m : M X A) (f : A -> M X B) w w' :
  m w = (Hang, w') -> bind m f w = (Hang, w').
Proof. intros E. unfold bind. now rewrite E. Qed.

(** A computation whose continuation never returns does not return. *)
Lemma bind_never_Ok {A B} (m : M X A) (f : A -> M X B) w :
  (forall a w1 b, fst (f a w1) <> Ok b) -> forall b, fst (bind m f w) <> Ok b.
Proof.
  intros Hf b. unfold bind. destruct (m w) as [[a|e|] w1]; simpl.
  - apply Hf.
  - discriminate.
  - discriminate.
Qed.

Lemma ext_call_eq {T} (c : call T) w r x' :
  respond env c (ext w) = (r, x') -> ext_call env c w = (r, called env c x' w).
Proof. intros E. unfold ext_call. now rewrite E. Qed.

Lemma ext_call_returns {T} (c : call T) w :
  returns env c ->
  exists a x', ext_call env c w = (Ok a, called env c x' w).
Proof.
  intros H. destruct (H (ext w)) as (a & x' & E).
  exists a, x'. now apply ext_call_eq.
Qed.

(** *** Steps that persist nothing *)

Lemma quiet_refl (w : World X) : quiet w w.
Proof. split; [lia | reflexivity]. Qed.

Lemma quiet_trans (w1 w2 w3 : World X) : quiet w1 w2 -> quiet w2 w3 -> quiet w1 w3.
Proof. intros [H1 E1] [H2 E2]. split; [lia | congruence]. Qed.

Lemma Quiet_ret {A} (a : A) : Quiet (@ret X A a).
Proof. intros w. split; simpl; [lia | reflexivity]. Qed.

Lemma Quiet_raise {A} e : Quiet (@raise X A e).
Proof. intros w. split; simpl; [lia | reflexivity]. Qed.

Lemma Quiet_hang {A} : Quiet (@hang X A).
Proof. intros w. split; simpl; [lia | reflexivity]. Qed.

Lemma Quiet_bind {A B} (m : M X A) (f : A -> M X B) :
  Quiet m -> (forall a, Quiet (f a)) -> Quiet (bind m f).
Proof.
  intros Hm Hf w. unfold bind. specialize (Hm w).
  destruct (m w) as [[a|e|] w1]; simpl in *; try assumption.
  eapply quiet_trans; [eassumption | apply Hf].
Qed.

Lemma Quiet_ext_call {T} (c : call T) : Quiet (ext_call env c).
Proof.
  intros w. unfold ext_call. destruct (respond env c (ext w)) as [r x'].
  split; simpl; [lia | reflexivity].
Qed.

Lemma Quiet_log_info m : Quiet (@log_info X m).
Proof. intros w. split; simpl; [lia | reflexivity]. Qed.

Lemma Quiet_log_exception m : Quiet (@log_exception X m).
Proof. intros w. split; simpl; [lia | reflexivity]. Qed.

Lemma Quiet_now : Quiet (@now X).
Proof. intros w. split; simpl; [lia | reflexivity]. Qed.

Lemma Quiet_clock : Quiet (@clock X).
Proof. intros w. split; simpl; [lia | reflexivity]. Qed.

Lemma Quiet_set_pins pins level : Quiet (@set_pins X pins level).
Proof. intros w. split; simpl; [lia | reflexivity]. Qed.

Lemma Quiet_spawn ts : Quiet (@spawn X ts).
Proof. intros w. split; simpl; [lia | reflexivity]. Qed.

Lemma Quiet_reap t : Quiet (@reap X t).
Proof. intros w. split; simpl; [lia | reflexivity]. Qed.

Lemma Quiet_local {A} name (v : option A) : Quiet (@local X A name v).
Proof. destruct v; [apply Quiet_ret | apply Quiet_raise]. Qed.

Lemma Quiet_index {A} (xs : list A) i : Quiet (@index X A xs i).
Proof. unfold index. destruct (xs !! i); [apply Quiet_ret | apply Quiet_raise]. Qed.

Lemma Quiet_format_f v : Quiet (@format_f X v).
Proof. destruct v; [apply Quiet_ret | apply Quiet_raise]. Qed.

Lemma Quiet_sleep ms : 0 <= ms -> Quiet (sleep env ms).
Proof.
  intros H. apply Quiet_bind; [apply Quiet_ext_call |].
  intros _ w. split; simpl; [lia | reflexivity].
Qed.

Lemma Quiet_for_each {A} (xs : list A) (body : A -> M X unit) :
  (forall a, Quiet (body a)) -> Quiet (for_each xs body).
Proof.
  intros Hb. induction xs as [|a xs IH]; simpl.
  - apply Quiet_ret.
  - apply Quiet_bind; [apply Hb | intros _; apply IH].
Qed.

End Reasoning.

Create HintDb quiet.

#[local] Hint Resolve Quiet_ret Quiet_raise Quiet_hang Quiet_ext_call
  Quiet_log_info Quiet_log_exception Quiet_now Quiet_clock Quiet_set_pins
  Quiet_spawn Quiet_reap Quiet_local Quiet_index Quiet_format_f : quiet.

(** Walks through a program built from the steps above. *)
Ltac quiet_steps :=
  repeat first
    [ solve [ auto with quiet ]
    | apply Quiet_sleep; lia
    | apply Quiet_for_each; intros ?
    | apply Quiet_bind; [| intros ? ]
    | match goal with
      | |- Quiet (if ?b then _ else _) => destruct b
      | |- Quiet (match ?o with _ => _ end) => destruct o
      | |- Quiet (let '(_, _) := ?p in _) => destruct p
      end ].

(** Runs the next call of the goal, which answers by [H]. *)
Ltac call_returns H :=
  match goal with
  | |- context [bind (ext_call ?env ?c) ?f ?w] =>
      let a := fresh "a" in
      let x := fresh "x" in
      let E := fresh "E" in
      destruct (ext_call_returns env c w H) as (a & x & E);
      rewrite (bind_Ok _ _ _ _ _ E); clear E
  end.

Lemma short_list {A} (xs : list A) :
  (length xs < 2)%nat -> xs = [] \/ exists a, xs = [a].
Proof.
  destruct xs as [|a [|b xs]]; simpl; intros H.
  - now left.
  - right. now exists a.
  - lia.
Qed.

(** *** Tear-down when every call answers *)

Section Teardown.

Context {X : Type} (env : Env X).

Lemma drive_lookup pins level (levels : gmap Z bool) p :
  p ∈ pins -> drive pins level levels !! p = Some level.
Proof.
  induction pins as [|q pins IH]; simpl; intros Hin.
  - now apply elem_of_nil in Hin.
  - destruct (decide (q = p)) as [-> | Hne].
    + apply lookup_insert_eq.
    + rewrite lookup_insert_ne by assumption.
      apply IH. apply elem_of_cons in Hin. destruct Hin; congruence.
Qed.

Lemma sleep_returns ms w :
  returns env (time_sleep ms) ->
  exists w', sleep env ms w = (Ok tt, w') /\
             pin_level w' = pin_level w /\ threads w' = threads w.
Proof.
  intros H. unfold sleep. call_returns H.
  eexists. split; [reflexivity |]. simpl. auto.
Qed.

Lemma stop_managers_returns gms :
  (forall m, returns env (gps_stop m)) ->
  forall w, exists w',
    for_each gms (fun gps_manager =>
      log_info MsgStoppingGps ;; ext_call env (gps_stop gps_manager)) w
      = (Ok tt, w') /\
    pin_level w' = pin_level w /\ threads w' = threads w.
Proof.
  intros H. induction gms as [|m gms IH]; intros w; simpl.
  - eexists. split; [reflexivity | auto].
  - unfold bind at 1. unfold bind at 1. simpl.
    destruct (H m (ext w)) as (a & x & E).
    unfold ext_call at 1. simpl. rewrite E. destruct a.
    match goal with
    | |- context [for_each gms _ ?w1] =>
        destruct (IH w1) as (w' & E' & Hp & Ht)
    end.
    exists w'. split; [exact E' |]. simpl in *. split; congruence.
Qed.

(** Joining the threads [ts] leaves none of them in the registry. *)
Lemma join_all_returns ts :
  (forall t, returns env (thread_join t)) ->
  forall w, exists w',
    for_each ts (fun t =>
      log_info (MsgIdent t) ;; ext_call env (thread_join t) ;; reap t) w
      = (Ok tt, w') /\
    pin_level w' = pin_level w /\
    (forall t, t ∈ threads w' -> t ∈ threads w /\ t ∉ ts).
Proof.
  intros H. induction ts as [|t ts IH]; intros w; simpl.
  - eexists. split; [reflexivity |]. split; [reflexivity |].
    intros t Ht. split; [assumption | apply not_elem_of_nil].
  - unfold bind at 1. unfold bind at 1. simpl. unfold bind at 1.
    destruct (H t (ext w)) as (a & x & E).
    unfold ext_call at 1. simpl. rewrite E. simpl.
    match goal with
    | |- context [for_each ts _ ?w1] =>
        destruct (IH w1) as (w' & E' & Hp & Ht)
    end.
    exists w'. split; [exact E' |]. simpl in *. split; [congruence |].
    intros u Hu. destruct (Ht u Hu) as [Hin Hnot].
    apply list_elem_of_filter in Hin. destruct Hin as [Hne Hin].
    split; [assumption |]. rewrite not_elem_of_cons. auto.
Qed.

(** One round of joins empties the registry, so any fuel will do. *)
Lemma wait_threads_returns fuel w :
  (forall t, returns env (thread_join t)) ->
  (forall ms, returns env (time_sleep ms)) ->
  (0 < fuel)%nat ->
  exists w', wait_threads env fuel w = (Ok tt, w') /\
             pin_level w' = pin_level w /\ threads w' = [].
Proof.
  intros Hj Hs Hfuel. destruct fuel as [|fuel]; [lia |].
  simpl. destruct (threads w) as [|t ts] eqn:Ets.
  - exists w. auto.
  - destruct (join_all_returns (t :: ts) Hj w) as (w1 & E1 & Hp1 & Ht1).
    rewrite (bind_Ok _ _ _ _ _ E1).
    unfold bind at 1. simpl.
    match goal with
    | |- context [bind (sleep env 500) _ ?w2] =>
        destruct (sleep_returns 500 w2 (Hs 500)) as (w3 & E3 & Hp3 & Ht3)
    end.
    rewrite (bind_Ok _ _ _ _ _ E3).
    assert (threads w3 = []) as Hnil.
    { simpl in Ht3. rewrite Ht3.
      destruct (threads w1) as [|u us] eqn:Eu; [reflexivity |].
      destruct (Ht1 u) as [Hin Hnot]; [try rewrite Eu; left |].
      rewrite Ets in Hin. contradiction. }
    exists w3. split.
    + destruct fuel; simpl; rewrite Hnil; reflexivity.
    + simpl in Hp3. split; [congruence | assumption].
Qed.

Lemma stop_all_returns fuel db rm gms gcm w :
  (forall c, returns env (cursor_close c)) ->
  (forall pins level, returns env (GPIO_output pins level)) ->
  returns env GPIO_cleanup ->
  (forall m, returns env (gps_stop m)) ->
  (forall t, returns env (thread_join t)) ->
  (forall ms, returns env (time_sleep ms)) ->
  (0 < fuel)%nat ->
  exists w1,
    stop_all env fuel db rm gms gcm w = (Raise (SystemExit 0), w1) /\
    pin_level w1 = drive [11; 12; 13; 15] false (pin_level w) /\
    threads w1 = [].
Proof.
  intros Hc Ho Hcl Hs Hj Hsl Hfuel. unfold stop_all.
  assert (exists w0,
            (if used db then ext_call env (cursor_close (cur db))
             else ret tt) w = (Ok tt, w0)
            /\ pin_level w0 = pin_level w) as (w0 & E0 & Hp0).
  { destruct (used db).
    - destruct (ext_call_returns env _ w (Hc (cur db))) as ([] & x & E).
      eexists. split; [exact E | reflexivity].
    - exists w. split; reflexivity. }
  rewrite (bind_Ok _ _ _ _ _ E0).
  call_returns (Ho [11; 12; 13; 15] false).
  unfold bind at 1. simpl.
  call_returns Hcl.
  unfold bind at 1. simpl. unfold bind at 1. simpl.
  match goal with
  | |- context [bind (for_each gms ?b) _ ?w2] =>
      destruct (stop_managers_returns gms Hs w2) as (w3 & E3 & Hp3 & Ht3)
  end.
  rewrite (bind_Ok _ _ _ _ _ E3).
  destruct (sleep_returns 100 w3 (Hsl 100)) as (w4 & E4 & Hp4 & Ht4).
  rewrite (bind_Ok _ _ _ _ _ E4).
  destruct (wait_threads_returns fuel w4 Hj Hsl Hfuel)
    as (w5 & E5 & Hp5 & Ht5).
  rewrite (bind_Ok _ _ _ _ _ E5).
  exists w5. split; [reflexivity |]. split; [| assumption].
  rewrite Hp5, Hp4, Hp3. simpl. rewrite Hp0. reflexivity.
Qed.

(** [stop_all] ends with [sys.exit(0)]: it never returns to its caller. *)
Lemma stop_all_never_returns fuel db rm gms gcm w :
  forall u, fst (stop_all env fuel db rm gms gcm w) <> Ok u.
Proof.
  unfold stop_all.
  repeat (apply bind_never_Ok; intros ? ? ?).
  simpl. discriminate.
Qed.

End Teardown.

(** *** Tear-down cut short by a call that fails *)

Section Interrupted.

Context {X : Type} (env : Env X).

Lemma in_step_order_weaken k k' evs :
  (k' <= k)%nat -> in_step_order k evs -> in_step_order k' evs.
Proof.
  destruct evs as [|ev rest]; simpl; [trivial |].
  intros Hk [H1 H2]. split; [lia | exact H2].
Qed.

Lemma in_step_order_app lo hi lo2 evs1 evs2 :
  in_step_order lo evs1 ->
  Forall (fun ev => (teardown_step ev <= hi)%nat) evs1 ->
  (hi <= lo2)%nat -> (lo <= lo2)%nat ->
  in_step_order lo2 evs2 ->
  in_step_order lo (evs1 ++ evs2).
Proof.
  revert lo. induction evs1 as [|ev rest IH]; intros lo H1 Hhi Hle Hlo H2.
  - simpl. now apply in_step_order_weaken with (k := lo2).
  - destruct H1 as [Hev Hrest]. apply Forall_cons in Hhi.
    destruct Hhi as [Hev' Hhi]. simpl. split; [exact Hev |].
    apply IH; try assumption. lia.
Qed.

Lemma in_step_order_last k pre ev :
  in_step_order k (pre ++ [ev]) -> (k <= teardown_step ev)%nat.
Proof.
  revert k. induction pre as [|e0 pre IH]; intros k; simpl.
  - intros [H _]. exact H.
  - intros [H1 H2]. specialize (IH _ H2). lia.
Qed.

(** In such a sequence no event belongs to a later step than the last. *)
Lemma in_step_order_bound k pre ev :
  in_step_order k (pre ++ [ev]) ->
  Forall (fun e => (teardown_step e <= teardown_step ev)%nat) pre.
Proof.
  revert k. induction pre as [|e0 pre IH]; intros k; simpl.
  - constructor.
  - intros [_ H]. constructor; [| now apply IH with (k := teardown_step e0)].
    destruct pre as [|e1 pre']; simpl in H.
    + tauto.
    + destruct H as [H1 H2]. apply in_step_order_last in H2. lia.
Qed.

Lemma Steps_ret {A} lo hi (a : A) : Steps env lo hi (@ret X A a).
Proof.
  intros w. split; [reflexivity |]. exists []. simpl.
  rewrite app_nil_r. repeat split; [constructor | discriminate].
Qed.

Lemma Steps_hang {A} lo hi : Steps env lo hi (@hang X A).
Proof.
  intros w. split; [reflexivity |]. exists []. simpl.
  rewrite app_nil_r. repeat split; [constructor | discriminate].
Qed.

Lemma Steps_slept lo hi ms : Steps env lo hi (@slept X ms).
Proof.
  intros w. split; [reflexivity |]. exists []. simpl.
  rewrite app_nil_r. repeat split; [constructor | discriminate].
Qed.

Lemma Steps_reap lo hi t : Steps env lo hi (@reap X t).
Proof.
  intros w. split; [reflexivity |]. exists []. simpl.
  rewrite app_nil_r. repeat split; [constructor | discriminate].
Qed.

Lemma Steps_log_info lo hi m :
  (lo <= teardown_step (Log false m) <= hi)%nat ->
  Steps env lo hi (@log_info X m).
Proof.
  intros [Hlo Hhi] w. split; [reflexivity |]. exists [Log false m]. simpl.
  repeat split; [exact Hlo | | discriminate].
  constructor; [exact Hhi | constructor].
Qed.

Lemma Steps_ext_call {T} lo hi (c : call T) :
  (lo <= teardown_step (Ev c) <= hi)%nat ->
  Steps env lo hi (ext_call env c).
Proof.
  intros [Hlo Hhi] w. unfold ext_call.
  destruct (respond env c (ext w)) as [r x'] eqn:E. simpl.
  split; [reflexivity |]. exists [Ev c].
  split; [reflexivity |]. split; [simpl; auto |].
  split; [constructor; [exact Hhi | constructor] |].
  intros e ->. exists T, c, w, x', []. rewrite app_nil_r. auto.
Qed.

Lemma Steps_bind {A B} lo hi1 lo2 hi (m : M X A) (f : A -> M X B) :
  Steps env lo hi1 m -> (forall a, Steps env lo2 hi (f a)) ->
  (hi1 <= lo2)%nat -> (lo <= lo2)%nat -> (hi1 <= hi)%nat ->
  Steps env lo hi (bind m f).
Proof.
  intros Hm Hf H12 Hlo Hhi w. unfold bind.
  destruct (Hm w) as (Hp1 & evs1 & Et1 & Ho1 & Hb1 & Hr1).
  assert (Forall (fun ev => (teardown_step ev <= hi)%nat) evs1) as Hb1'.
  { eapply Forall_impl; [exact Hb1 |]. simpl. intros ev Hev. lia. }
  destruct (m w) as [[a|e|] w1]; simpl in *.
  - destruct (Hf a w1) as (Hp2 & evs2 & Et2 & Ho2 & Hb2 & Hr2).
    split; [congruence |]. exists (evs1 ++ evs2).
    split; [rewrite Et2, Et1; now rewrite app_assoc |].
    split; [now apply in_step_order_app with (hi := hi1) (lo2 := lo2) |].
    split; [now apply Forall_app |].
    intros e He. destruct (Hr2 e He) as (T & c & w0 & x' & pre & E & Ew & Et & Ee).
    exists T, c, w0, x', (evs1 ++ pre).
    split; [exact E |]. split; [exact Ew |].
    split; [rewrite Et, Et1; now rewrite app_assoc |].
    rewrite Ee. now rewrite app_assoc.
  - split; [exact Hp1 |]. exists evs1.
    split; [exact Et1 |]. split; [exact Ho1 |]. split; [exact Hb1' |].
    intros e0 [= <-]. now apply Hr1.
  - split; [exact Hp1 |]. exists evs1.
    split; [exact Et1 |]. split; [exact Ho1 |]. split; [exact Hb1' |].
    discriminate.
Qed.

Lemma Steps_for_each {A} k (xs : list A) (body : A -> M X unit) :
  (forall a, Steps env k k (body a)) -> Steps env k k (for_each xs body).
Proof.
  intros Hb. induction xs as [|a xs IH]; simpl.
  - apply Steps_ret.
  - apply Steps_bind with (hi1 := k) (lo2 := k); auto.
Qed.

Lemma Steps_wait_threads fuel : Steps env 8 8 (wait_threads env fuel).
Proof.
  induction fuel as [|fuel IH]; intros w; cbn [wait_threads].
  - destruct (threads w);
      [apply (Steps_ret 8 8 tt w) | apply (Steps_hang 8 8 w)].
  - destruct (threads w) as [|t ts]; [apply (Steps_ret 8 8 tt w) |].
    revert w.
    change (Steps env 8 8
      (for_each (t :: ts) (fun t =>
         log_info (MsgIdent t) ;; ext_call env (thread_join t) ;; reap t) ;;
       (fun w' => log_info (MsgActive (S (length (threads w')))) w') ;;
       sleep env 500 ;; wait_threads env fuel)).
    apply Steps_bind with (hi1 := 8%nat) (lo2 := 8%nat); auto.
    { apply Steps_for_each. intros u.
      apply Steps_bind with (hi1 := 8%nat) (lo2 := 8%nat); auto.
      { apply Steps_log_info. simpl. lia. }
      intros _. apply Steps_bind with (hi1 := 8%nat) (lo2 := 8%nat); auto.
      { apply Steps_ext_call. simpl. lia. }
      intros _. apply Steps_reap. }
    intros _. apply Steps_bind with (hi1 := 8%nat) (lo2 := 8%nat); auto.
    { intros w.
      apply (Steps_log_info 8 8 (MsgActive (S (length (threads w))))).
      simpl. lia. }
    intros _. apply Steps_bind with (hi1 := 8%nat) (lo2 := 8%nat); auto.
    unfold sleep. apply Steps_bind with (hi1 := 8%nat) (lo2 := 8%nat); auto.
    { apply Steps_ext_call. simpl. lia. }
    intros _. apply Steps_slept.
Qed.

(** Lines 168 to 173: closing the cursor and the pins-OFF call. *)
Lemma Steps_before_pins (db : Db) :
  Steps env 1 2
    ((if used db then ext_call env (cursor_close (cur db)) else ret tt) ;;
     ext_call env (GPIO_output [11; 12; 13; 15] false)).
Proof.
  apply Steps_bind with (hi1 := 1%nat) (lo2 := 2%nat); try lia.
  - destruct (used db); [| apply Steps_ret].
    apply Steps_ext_call. simpl. lia.
  - intros _. apply Steps_ext_call. vm_compute. lia.
Qed.

(** Lines 174 to 197: what follows the pins-OFF step, [sys.exit] apart. *)
Lemma Steps_after_pins fuel (gms : list GpsManager) :
  Steps env 3 8
    (ext_call env GPIO_cleanup ;;
     log_info MsgStoppingRad ;;
     log_info MsgStoppingChecker ;;
     for_each gms (fun gps_manager =>
       log_info MsgStoppingGps ;; ext_call env (gps_stop gps_manager)) ;;
     sleep env 100 ;;
     wait_threads env fuel).
Proof.
  apply Steps_bind with (hi1 := 3%nat) (lo2 := 4%nat); try lia.
  { apply Steps_ext_call. simpl. lia. }
  intros _. apply Steps_bind with (hi1 := 4%nat) (lo2 := 5%nat); try lia.
  { apply Steps_log_info. simpl. lia. }
  intros _. apply Steps_bind with (hi1 := 5%nat) (lo2 := 6%nat); try lia.
  { apply Steps_log_info. simpl. lia. }
  intros _. apply Steps_bind with (hi1 := 6%nat) (lo2 := 7%nat); try lia.
  { apply Steps_for_each. intros m.
    apply Steps_bind with (hi1 := 6%nat) (lo2 := 6%nat); auto.
    - apply Steps_log_info. simpl. lia.
    - intros _. apply Steps_ext_call. simpl. lia. }
  intros _. apply Steps_bind with (hi1 := 7%nat) (lo2 := 8%nat); try lia.
  { unfold sleep. apply Steps_bind with (hi1 := 7%nat) (lo2 := 7%nat); auto.
    - apply Steps_ext_call. simpl. lia.
    - intros _. apply Steps_slept. }
  intros _. apply Steps_wait_threads.
Qed.

Lemma bind_Ok_inv {A B} (m : M X A) (f : A -> M X B) w b w' :
  bind m f w = (Ok b, w') ->
  exists a w1, m w = (Ok a, w1) /\ f a w1 = (Ok b, w').
Proof.
  unfold bind. destruct (m w) as [[a|e|] w1]; try discriminate.
  intros E. now exists a, w1.
Qed.

(** The join loop returns when no thread is left, and only then. *)
Lemma wait_threads_Ok fuel w u w' :
  wait_threads env fuel w = (Ok u, w') -> threads w' = [].
Proof.
  revert w. induction fuel as [|fuel IH]; intros w; cbn [wait_threads].
  - destruct (threads w) eqn:Et; [| discriminate].
    intros [= _ <-]. exact Et.
  - destruct (threads w) as [|t ts] eqn:Et.
    + intros [= _ <-]. exact Et.
    + intros E.
      apply bind_Ok_inv in E. destruct E as (_ & w1 & _ & E).
      apply bind_Ok_inv in E. destruct E as (_ & w2 & _ & E).
      apply bind_Ok_inv in E. destruct E as (_ & w3 & _ & E).
      now apply IH in E.
Qed.

(** [stop_all] is the pins-OFF call and what precedes it, the record of
    the new level of the pins, the rest of the tear-down and
    [sys.exit(0)]. *)
Lemma stop_all_parts fuel db rm gms gcm w :
  stop_all env fuel db rm gms gcm w =
  (((if used db then ext_call env (cursor_close (cur db)) else ret tt) ;;
    ext_call env (GPIO_output [11; 12; 13; 15] false)) ;;
   set_pins [11; 12; 13; 15] false ;;
   (ext_call env GPIO_cleanup ;;
    log_info MsgStoppingRad ;;
    log_info MsgStoppingChecker ;;
    for_each gms (fun gps_manager =>
      log_info MsgStoppingGps ;; ext_call env (gps_stop gps_manager)) ;;
    sleep env 100 ;;
    wait_threads env fuel) ;;
   sys_exit 0) w.
Proof.
  unfold stop_all. cbv zeta. unfold bind.
  repeat match goal with
         | |- context [match ?m ?v with _ => _ end] =>
             destruct (m v) as [[?|?|] ?]
         end; reflexivity.
Qed.

Lemma stop_all_interrupted fuel db rm gms gcm w e w' :
  stop_all env fuel db rm gms gcm w = (Raise e, w') ->
  (e = SystemExit 0 /\
   pin_level w' = drive [11; 12; 13; 15] false (pin_level w) /\
   threads w' = [] /\
   exists evs, trace w' = trace w ++ evs /\ in_step_order 1 evs) \/
  (exists T (c : call T) w0 x' evs,
     respond env c (ext w0) = (Raise e, x') /\
     w' = called env c x' w0 /\
     trace w0 = trace w ++ evs /\
     in_step_order 1 (evs ++ [Ev c]) /\
     Forall (fun ev => (teardown_step ev <= teardown_step (Ev c))%nat) evs /\
     pin_level w' =
       if (teardown_step (Ev c) <=? 2)%nat then pin_level w
       else drive [11; 12; 13; 15] false (pin_level w)).
Proof.
  rewrite stop_all_parts. unfold bind at 1.
  destruct (Steps_before_pins db w) as (Hp1 & evs1 & Et1 & Ho1 & Hb1 & Hr1).
  match goal with
  | |- context [match ?m w with _ => _ end] =>
      destruct (m w) as [[[]|e1|] w1] eqn:E1
  end; simpl in Hp1, Et1, Hr1.
  - unfold bind at 1, set_pins at 1.
    match goal with
    | |- context [bind ?m _ ?w2] =>
        destruct (Steps_after_pins fuel gms w2)
          as (Hp2 & evs2 & Et2 & Ho2 & Hb2 & Hr2);
        destruct (m w2) as [[[]|e2|] w3] eqn:E2
    end; simpl in Hp2, Et2, Hr2.
    + rewrite (bind_Ok _ _ _ _ _ E2). intros [= <- <-]. left.
      split; [reflexivity |]. split; [rewrite Hp2, Hp1; reflexivity |].
      split.
      * repeat (apply bind_Ok_inv in E2; destruct E2 as (? & ? & _ & E2)).
        now apply wait_threads_Ok in E2.
      * exists (evs1 ++ evs2).
        split; [rewrite Et2, Et1; now rewrite app_assoc |].
        now apply in_step_order_app with (hi := 2%nat) (lo2 := 3%nat);
          try lia.
    + rewrite (bind_Raise _ _ _ _ _ E2). intros [= <- <-]. right.
      destruct (Hr2 e2 eq_refl) as (T & c & w0 & x' & pre & E & Ew & Et & Ee).
      exists T, c, w0, x', (evs1 ++ pre).
      split; [exact E |]. split; [exact Ew |].
      split; [rewrite Et, Et1; now rewrite app_assoc |].
      rewrite Ee in Ho2.
      assert (in_step_order 1 ((evs1 ++ pre) ++ [Ev c])) as Ho.
      { rewrite <- app_assoc.
        now apply in_step_order_app with (hi := 2%nat) (lo2 := 3%nat);
          try lia. }
      split; [exact Ho |].
      split; [exact (in_step_order_bound _ _ _ Ho) |].
      apply in_step_order_last in Ho2.
        destruct (Nat.leb_spec (teardown_step (Ev c)) 2); [lia |].
        rewrite Hp2, Hp1. reflexivity.
    + rewrite (bind_Hang _ _ _ _ E2). discriminate.
  - intros [= <- <-]. right.
    destruct (Hr1 e1 eq_refl) as (T & c & w0 & x' & pre & E & Ew & Et & Ee).
    exists T, c, w0, x', pre. rewrite Ee in Ho1, Hb1.
    split; [exact E |]. split; [exact Ew |]. split; [exact Et |].
    split; [exact Ho1 |].
    split; [exact (in_step_order_bound _ _ _ Ho1) |].
    rewrite Forall_app, Forall_singleton in Hb1. destruct Hb1 as [_ Hc].
    destruct (Nat.leb_spec (teardown_step (Ev c)) 2); [exact Hp1 | lia].
  - discriminate.
Qed.

End Interrupted.

(** *** The measurement and its pace *)

Section Measurement.

Context {X : Type} (env : Env X).

Lemma splice_returns ns sids itimes specs :
  length specs = length sids -> length itimes = length sids ->
  (forall n, n ∈ ns -> (n < length sids)%nat) ->
  forall acc (w : World X), exists rows,
    splice ns sids itimes specs acc w = (Ok rows, w).
Proof.
  intros Hs Hi. induction ns as [|n ns IH]; intros Hn acc w; simpl.
  - eexists. reflexivity.
  - assert (n < length sids)%nat as Hlt by (apply Hn; left).
    destruct (lookup_lt_is_Some_2 sids n Hlt) as [s Es].
    destruct (lookup_lt_is_Some_2 itimes n ltac:(lia)) as [t Et].
    destruct (lookup_lt_is_Some_2 specs n ltac:(lia)) as [p Ep].
    unfold bind, index. rewrite Es, Et, Ep. simpl.
    apply IH. intros k Hk. apply Hn. now right.
Qed.

Lemma commit_eq r w id x :
  respond env (commit_db r) (ext w) = (Ok id, x) ->
  commit env r w = (Ok id, snd (store r (called env (commit_db r) x w))).
Proof.
  intros E. unfold commit. rewrite (bind_Ok _ _ _ _ _ (ext_call_eq env _ _ _ _ E)).
  reflexivity.
Qed.

Lemma trigger_full args h l message w m0 m1 az el :
  all_ready l w = (Ok true, w) ->
  gps_managers h !! 0%nat = Some m0 ->
  gps_managers h !! 1%nat = Some m1 ->
  solar_az l = Some az -> solar_el l = Some el ->
  (forall m, returns env (create_gps_dict m)) ->
  (forall t x, exists r x',
      respond env (sample_all t) x = (Ok r, x') /\ parallel r) ->
  (forall r, returns env (commit_db r)) ->
  exists l' message' w',
    trigger env args h l message w = (Ok (l', message'), w') /\
    trigger_id l' = Some (wall w) /\
    Ev (create_gps_dict m0) ∈ trace w' /\
    Ev (create_gps_dict m1) ∈ trace w' /\
    Ev (sample_all (wall w)) ∈ trace w' /\
    if used (db h)
    then exists r rows,
           db_rows w' = db_rows w ++ [r] /\
           rec_trigger_id r = wall w /\
           rec_spec_data r = Some rows /\
           last_commit_time l' = wall w'
    else db_rows w' = db_rows w /\
         last_commit_time l' = last_commit_time l.
Proof.
  intros Hr H0 H1 Haz Hel Hd Hs Hc. unfold trigger.
  rewrite (bind_Ok _ _ _ _ _ Hr).
  unfold bind at 1, now at 1.
  unfold index. rewrite H0. unfold bind at 1, ret at 1.
  call_returns (Hd m0).
  rewrite H1. unfold bind at 1, ret at 1.
  call_returns (Hd m1).
  match goal with |- context [bind (ext_call env (sample_all ?t)) _ ?w1] =>
    destruct (Hs t (ext w1)) as (r & x1 & Er & Hpar);
    rewrite (bind_Ok _ _ _ _ _ (ext_call_eq env _ _ _ _ Er)) end.
  destruct r as [[[tid specs] sids] itimes]. destruct Hpar as [Hps Hpi].
  match goal with |- context [bind (splice ?ns sids itimes specs []) _ ?w1] =>
    destruct (splice_returns ns sids itimes specs Hps Hpi
                ltac:(intros n Hn; apply elem_of_seq in Hn; lia) [] w1) as (rows & Erows);
    rewrite (bind_Ok _ _ _ _ _ Erows) end.
  destruct (used (db h)).
  - cbn [set_trigger_id solar_az solar_el]. rewrite Haz, Hel. simpl local. unfold bind at 1, ret at 1. unfold bind at 1, ret at 1.
    match goal with |- context [bind (commit env ?r) _ ?w1] =>
      destruct (Hc r (ext w1)) as (id & x2 & Ec);
      rewrite (bind_Ok _ _ _ _ _ (commit_eq r w1 id x2 Ec)) end.
    unfold bind, now, ret. simpl.
    eexists _, _, _. split; [reflexivity |]. simpl.
    split; [reflexivity |].
    repeat split; try (rewrite !elem_of_app, !list_elem_of_singleton; tauto).
    eexists _, _. simpl. repeat split; reflexivity.
  - unfold ret. eexists _, _, _. split; [reflexivity |]. simpl.
    split; [reflexivity |].
    repeat split; try (rewrite !elem_of_app, !list_elem_of_singleton; tauto).
Qed.
Lemma paced_quiet_prefix {A} (lct : A -> Z) t (w w1 : World X) r :
  quiet w w1 -> paced lct t w1 r -> paced lct t w r.
Proof.
  intros [Hw Hd] [Hw1 H]. split; [lia |].
  destruct H as [[E Ha] | (row & E & H)]; [left | right].
  - split; [congruence | assumption].
  - exists row. rewrite <- Hd. split; assumption.
Qed.

Lemma Paced_bind_quiet {A B} (lct : B -> Z) t (m : M X A) (f : A -> M X B) w :
  Quiet m ->
  (forall a w1, quiet w w1 -> Paced lct t (f a) w1) ->
  Paced lct t (bind m f) w.
Proof.
  intros Hm Hf Ht. unfold bind. specialize (Hm w).
  destruct (m w) as [[a|e|] w1]; simpl in Hm.
  - eapply paced_quiet_prefix; [exact Hm |]. apply Hf; [exact Hm |].
    destruct Hm. lia.
  - destruct Hm as [Hw Hd]. split; simpl; [lia |]. left. split; [assumption | discriminate].
  - destruct Hm as [Hw Hd]. split; simpl; [lia |]. left. split; [assumption | discriminate].
Qed.

Lemma Paced_bind_now {B} (lct : B -> Z) t (f : Z -> M X B) w :
  Paced lct t (f (wall w)) w -> Paced lct t (bind now f) w.
Proof. intros H. exact H. Qed.

Lemma Paced_ret {A} (lct : A -> Z) t (a : A) (w : World X) :
  lct a = t -> Paced lct t (ret a) w.
Proof.
  intros E _. split; simpl; [lia |]. left. split; [reflexivity |].
  intros a' [= <-]. assumption.
Qed.

Lemma Paced_raise {A} (lct : A -> Z) t e (w : World X) :
  Paced lct t (raise e) w.
Proof. intros _. split; simpl; [lia |]. left. split; [reflexivity | discriminate]. Qed.

Lemma Paced_local {A B} (lct : B -> Z) t name (v : option A) (f : A -> M X B) w :
  (forall a, Paced lct t (f a) w) -> Paced lct t (bind (local name v) f) w.
Proof.
  intros H. destruct v as [a|]; [apply H | apply Paced_raise].
Qed.

Lemma Paced_index {A B} (lct : B -> Z) t (xs : list A) i (f : A -> M X B) w :
  (forall a, Paced lct t (f a) w) -> Paced lct t (bind (index xs i) f) w.
Proof.
  intros H. unfold index. destruct (xs !! i) as [a|]; [apply H | apply Paced_raise].
Qed.

Lemma Paced_commit (l : Locals) (message : Z -> Z -> list part) t row (w : World X) :
  t <= rec_trigger_id row ->
  (rec_spec_data row = None -> t + 60000 <= rec_trigger_id row) ->
  rec_trigger_id row <= wall w ->
  Paced (fun r : Locals * list part => last_commit_time (fst r)) t
    (db_id ← commit env row; t' ← now;
     ret (set_last_commit_time t' l, message t' db_id)) w.
Proof.
  intros H1 H2 H3 _. unfold commit, bind, ext_call, store, now, ret.
  destruct (respond env (commit_db row) (ext w)) as [[id|e|] x]; simpl.
  - split; simpl; [lia |]. right. exists row. split; [reflexivity |].
    split; [assumption |]. split; [assumption |].
    intros a [= <-]. simpl. lia.
  - split; simpl; [lia |]. left. split; [reflexivity | discriminate].
  - split; simpl; [lia |]. left. split; [reflexivity | discriminate].
Qed.

Lemma Quiet_splice ns sids itimes specs acc :
  Quiet (X := X) (splice ns sids itimes specs acc).
Proof.
  revert acc. induction ns as [|n ns IH]; intros acc; simpl.
  - apply Quiet_ret.
  - quiet_steps.
Qed.

Lemma Quiet_all_ready l : Quiet (X := X) (all_ready l).
Proof. unfold all_ready. quiet_steps. Qed.

Lemma Paced_trigger args h l message w :
  Paced (fun r : Locals * list part => last_commit_time (fst r))
    (last_commit_time l) (trigger env args h l message) w.
Proof.
  unfold trigger.
  apply Paced_bind_quiet; [apply Quiet_all_ready |]. intros ready w0 Q0.
  destruct ready.
  - intros Ht0. pose proof Ht0 as Ht0'. revert Ht0'. apply Paced_bind_now.
    apply Paced_index; intros m0.
    apply Paced_bind_quiet; [apply Quiet_ext_call |]. intros gps1 w1 Q1.
    apply Paced_index; intros m1.
    apply Paced_bind_quiet; [apply Quiet_ext_call |]. intros gps2 w2 Q2.
    apply Paced_bind_quiet; [apply Quiet_ext_call |].
    intros [[[tid specs] sids] itimes] w3 Q3.
    apply Paced_bind_quiet; [apply Quiet_splice |]. intros rows w4 Q4.
    destruct (used (db h)).
    + apply Paced_local; intros az. apply Paced_local; intros el.
      intros Ht4.
      apply (Paced_commit (set_trigger_id (Some (wall w0)) l)
               (fun t' db_id => message ++ [PTrig (wall w0) db_id])); simpl.
      * assumption.
      * discriminate.
      * destruct Q1, Q2, Q3, Q4. lia.
      * assumption.
    + apply Paced_ret. reflexivity.
  - intros Ht0. pose proof Ht0 as Ht0'. revert Ht0'. apply Paced_bind_now.
    destruct (Z.ltb_spec (Z.abs (wall w0 - last_commit_time l)) 60000) as [Hlt | Hge].
    + apply Paced_bind_now. apply Paced_ret. reflexivity.
    + apply Paced_index; intros m0.
      apply Paced_bind_quiet; [apply Quiet_ext_call |]. intros gps1 w1 Q1.
      apply Paced_index; intros m1.
      apply Paced_bind_quiet; [apply Quiet_ext_call |]. intros gps2 w2 Q2.
      apply Paced_bind_now.
      destruct (used (db h)).
      * apply Paced_local; intros az. apply Paced_local; intros el.
        intros Ht2.
        apply (Paced_commit l
                 (fun t' db_id => message ++ [PGpsRecorded t' db_id])); simpl.
        -- destruct Q1, Q2. lia.
        -- intros _. destruct Q1, Q2. lia.
        -- lia.
        -- assumption.
      * apply Paced_ret. reflexivity.
Qed.

Lemma Paced_then_quiet {A B} (lctA : A -> Z) (lctB : B -> Z) t
    (m : M X A) (f : A -> M X B) w :
  Paced lctA t m w ->
  (forall a, Quiet (f a)) ->
  (forall a w1 b w2, f a w1 = (Ok b, w2) -> lctB b = lctA a) ->
  Paced lctB t (bind m f) w.
Proof.
  intros Hm Hq Hl Ht. specialize (Hm Ht). unfold bind.
  destruct (m w) as [[a|e|] w1]; simpl in *.
  - destruct Hm as [Hw H]. specialize (Hq a w1). specialize (Hl a w1).
    destruct (f a w1) as [o w2]; simpl in *. destruct Hq as [Hw2 Hd2].
    split; simpl; [lia |]. destruct H as [[E Ha] | (row & E & H1 & H2 & H3)]; [left | right].
    + split; [congruence |]. intros b ->. rewrite (Hl b w2 eq_refl). now apply Ha.
    + exists row. split; [congruence |]. split; [assumption |]. split; [assumption |].
      intros b ->. rewrite (Hl b w2 eq_refl). destruct (H3 a eq_refl). simpl in *. lia.
  - destruct Hm as [Hw H]; simpl in *. split; simpl; [lia |].
    destruct H as [[E Ha] | (row & E & H1 & H2 & H3)]; [left | right].
    + split; [assumption | discriminate].
    + exists row. repeat split; try assumption; discriminate.
  - destruct Hm as [Hw H]; simpl in *. split; simpl; [lia |].
    destruct H as [[E Ha] | (row & E & H1 & H2 & H3)]; [left | right].
    + split; [assumption | discriminate].
    + exists row. repeat split; try assumption; discriminate.
Qed.

Lemma Paced_finish args h l message w :
  Paced last_commit_time (last_commit_time l) (finish env args h l message) w.
Proof.
  unfold finish.
  apply (Paced_then_quiet (fun r : Locals * list part => last_commit_time (fst r))).
  - apply Paced_trigger.
  - intros r. quiet_steps.
  - intros r w1 b w2. unfold bind, log_info, sleep, bind, ext_call, slept, ret. simpl.
    destruct (respond env (time_sleep 5000) _) as [[[]|e|] x]; simpl; intros [= <-]; reflexivity.
Qed.

Lemma Quiet_tracking fuel ser target t0 moving :
  Quiet (tracking env fuel ser target t0 moving).
Proof.
  revert moving. induction fuel as [|fuel IH]; intros moving; simpl; quiet_steps.
Qed.

Lemma Paced_bind_ret {A B} (lct : B -> Z) t (a : A) (f : A -> M X B) w :
  Paced lct t (f a) w -> Paced lct t (bind (ret a) f) w.
Proof. intros H. exact H. Qed.

Lemma Paced_bind_assoc {A B C} (lct : C -> Z) t (m : M X A)
    (g : A -> M X B) (f : B -> M X C) w :
  Paced lct t (bind m (fun a => bind (g a) f)) w ->
  Paced lct t (bind (bind m g) f) w.
Proof.
  intros H Ht. specialize (H Ht). unfold bind in *.
  destruct (m w) as [[a|e|] w1]; exact H.
Qed.

Lemma Paced_gps_branch fuel args h bf l message w :
  Paced last_commit_time (last_commit_time l)
    (gps_branch env fuel args h bf l message) w.
Proof.
  unfold gps_branch.
  apply Paced_index; intros m0.
  apply Paced_bind_quiet; [apply Quiet_ext_call |]. intros f0 w1 Q1.
  apply Paced_index; intros m1.
  apply Paced_bind_quiet; [apply Quiet_ext_call |]. intros f1 w2 Q2.
  apply Paced_bind_quiet; [apply Quiet_ext_call |]. intros [pos|] w3 Q3.
  - assert (forall l1 w4, last_commit_time l1 = last_commit_time l ->
              Paced last_commit_time (last_commit_time l)
                (m0 ← index (gps_managers h) 0;
                 g0 ← ext_call env (gps_fields m0);
                 m1 ← index (gps_managers h) 1;
                 g1 ← ext_call env (gps_fields m1);
                 r ← ext_call env (calculate_positions g0 (ship_bearing_mean l1) pos);
                 let '(solar_az, solar_el, motor_angles) := r in
                 let l := set_solar solar_az solar_el l1 in
                 log_info (MsgSun (counter l) solar_az solar_el motor_angles) ;;
                 bearing ← format_f (ship_bearing_mean l);
                 let message :=
                   message ++ [PSun bearing solar_az solar_el (speed f0)
                                 (satellite_number f0) (satellite_number f1)] in
                 sun ← ext_call env (check_sun (sample h) solar_az solar_el);
                 let l := set_sun_suitable sun l in
                 (if sun && (Z.abs (target_motor_pos_step motor_angles - pos)
                             >? step_thresh (motor h))
                  then
                    log_info (MsgAdjust pos (target_motor_pos_step motor_angles)) ;;
                    let target_pos := target_motor_pos_step motor_angles in
                    ext_call env (rotate_motor target_pos (serial (motor h))) ;;
                    t0 ← clock;
                    tracking env fuel (serial (motor h)) target_pos t0 true
                  else ret tt) ;;
                 let l := set_motor_ready true l in
                 finish env args h l message) w4) as Hrest.
    { intros l1 w4 El.
      apply Paced_index; intros m0'.
      apply Paced_bind_quiet; [apply Quiet_ext_call |]. intros g0 w5 Q5.
      apply Paced_index; intros m1'.
      apply Paced_bind_quiet; [apply Quiet_ext_call |]. intros g1 w6 Q6.
      apply Paced_bind_quiet; [apply Quiet_ext_call |]. intros [[az el] angles] w7 Q7.
      apply Paced_bind_quiet; [apply Quiet_log_info |]. intros _ w8 Q8.
      apply Paced_bind_quiet; [apply Quiet_format_f |]. intros bearing w9 Q9.
      apply Paced_bind_quiet; [apply Quiet_ext_call |]. intros sun w10 Q10.
      apply Paced_bind_quiet.
      { destruct (sun && _); quiet_steps. apply Quiet_tracking. }
      intros _ w11 Q11. rewrite <- El.
      apply (Paced_finish args h
               (set_motor_ready true (set_sun_suitable sun (set_solar az el l1)))). }
    destruct bf.
    + apply Paced_bind_ret. apply Hrest. reflexivity.
    + apply Paced_bind_assoc.
      apply Paced_bind_quiet; [apply Quiet_ext_call |]. intros b w4 Q4.
      apply Paced_bind_ret. apply Hrest. reflexivity.
  - apply Paced_bind_now. apply Paced_bind_quiet; [quiet_steps |]. intros _ w4 Q4.
    apply Paced_ret. reflexivity.
Qed.

Lemma Paced_cycle fuel args h bf l w :
  Paced last_commit_time (last_commit_time l) (cycle env fuel args h bf l) w.
Proof.
  unfold cycle.
  apply Paced_bind_quiet; [apply Quiet_ext_call |]. intros g w1 Q1.
  apply Paced_bind_quiet; [apply Quiet_ext_call |]. intros r w2 Q2.
  destruct g.
  - apply (Paced_gps_branch fuel args h bf
             (set_rad_ready r (set_gps_ready true (set_counter (counter l + 1) l)))).
  - apply (Paced_finish args h
             (set_sun_suitable false (set_rad_ready r (set_gps_ready false (set_counter (counter l + 1) l))))).
Qed.


Lemma Quiet_wait_threads fuel : Quiet (wait_threads env fuel).
Proof.
  induction fuel as [|fuel IH]; intros w; simpl.
  - destruct (threads w); apply quiet_refl.
  - destruct (threads w) as [|t ts]; [apply quiet_refl |].
    revert w. change (Quiet
      (for_each (t :: ts) (fun t => log_info (MsgIdent t) ;; ext_call env (thread_join t) ;; reap t) ;;
       (fun w' => log_info (MsgActive (S (length (threads w')))) w') ;;
       sleep env 500 ;; wait_threads env fuel)).
    quiet_steps. intros w. split; simpl; [lia | reflexivity].
Qed.

Lemma Quiet_stop_all fuel db rm gms gcm :
  Quiet (stop_all env fuel db rm gms gcm).
Proof.
  unfold stop_all, sys_exit. quiet_steps. apply Quiet_wait_threads.
Qed.

Lemma spaced_weaken t t' rows : t <= t' -> spaced t' rows -> spaced t rows.
Proof.
  destruct rows as [|r rest]; simpl; [trivial |].
  intros Ht (H1 & H2 & H3). repeat split; [lia | | assumption].
  intros Hn. specialize (H2 Hn). lia.
Qed.

Lemma loop_spaced cycles fuel args h bf :
  forall l w, last_commit_time l <= wall w ->
  exists new,
    db_rows (snd (loop env cycles fuel args h bf l w)) = db_rows w ++ new /\
    spaced (last_commit_time l) new.
Proof.
  induction cycles as [|cycles IH]; intros l w Hpre; simpl.
  - exists []. split; [now rewrite app_nil_r | exact I].
  - pose proof (Paced_cycle fuel args h bf l w Hpre) as P.
    destruct (cycle env fuel args h bf l w) as [[l'|e|] w1]; destruct P as [Hw P]; simpl in Hw, P.
    + destruct P as [[E Ha] | (row & E & H1 & H2 & H3)].
      * specialize (Ha l' eq_refl).
        destruct (IH l' w1 ltac:(lia)) as (new & En & Hs).
        exists new. split; [congruence |]. now rewrite <- Ha.
      * destruct (H3 l' eq_refl) as [H4 H5].
        destruct (IH l' w1 H5) as (new & En & Hs).
        exists (row :: new). split.
        -- rewrite En, E, <- app_assoc. reflexivity.
        -- simpl. repeat split; try assumption. now apply spaced_weaken with (t' := last_commit_time l').
    + assert (exists new, db_rows w1 = db_rows w ++ new /\ spaced (last_commit_time l) new) as (new & En & Hs).
      { destruct P as [[E Ha] | (row & E & H1 & H2 & H3)].
        - exists []. split; [now rewrite app_nil_r | exact I].
        - exists [row]. split; [assumption |]. simpl. auto. }
      assert (forall m : M X unit, Quiet m -> db_rows (snd (m w1)) = db_rows w ++ new) as Hq.
      { intros m Hm. destruct (Hm w1) as [_ Hd]. congruence. }
      exists new. split; [| assumption].
      destruct e; simpl;
        try (apply (Hq (log_exception MsgUnhandled ;;
                        stop_all env fuel (db h) (radiometry_manager h) (gps_managers h)
                          (gps_checker_manager h) ;; raise _));
             quiet_steps; [apply Quiet_wait_threads | apply Quiet_raise]);
        try assumption.
      (* KeyboardInterrupt *)
      unfold bind at 1, log_info at 1. unfold bind at 1.
      pose proof (stop_all_never_returns env fuel (db h) (radiometry_manager h)
                    (gps_managers h) (gps_checker_manager h)) as Hn.
      pose proof (Quiet_stop_all fuel (db h) (radiometry_manager h)
                    (gps_managers h) (gps_checker_manager h)) as Hs'.
      match goal with |- context [stop_all env ?a ?b ?c ?d ?e ?w2] =>
        specialize (Hn w2); specialize (Hs' w2);
        destruct (stop_all env a b c d e w2) as [[u|e'|] w3] end; simpl in *.
      * exfalso. now apply (Hn u).
      * destruct Hs' as [_ Hd]; simpl in Hd; congruence.
      * destruct Hs' as [_ Hd]; simpl in Hd; congruence.
    + destruct P as [[E Ha] | (row & E & H1 & H2 & H3)].
      * exists []. split; [now rewrite app_nil_r | exact I].
      * exists [row]. split; [assumption |]. simpl. auto.
Qed.

Lemma spaced_bounds t rows :
  spaced t rows ->
  forall r, r ∈ rows ->
    t <= rec_trigger_id r /\
    (rec_spec_data r = None -> t + 60000 <= rec_trigger_id r).
Proof.
  revert t. induction rows as [|r0 rest IH]; intros t Hs r Hin.
  - now apply elem_of_nil in Hin.
  - destruct Hs as (H1 & H2 & H3). apply elem_of_cons in Hin. destruct Hin as [-> | Hin].
    + split; assumption.
    + destruct (IH _ H3 r Hin) as [H4 H5]. split; [lia |].
      intros Hn. specialize (H5 Hn). lia.
Qed.

Lemma spaced_pairwise t rows :
  spaced t rows ->
  forall i j ri rj, (i < j)%nat ->
    rows !! i = Some ri -> rows !! j = Some rj ->
    rec_spec_data rj = None ->
    rec_trigger_id ri + 60000 <= rec_trigger_id rj.
Proof.
  revert t. induction rows as [|r0 rest IH]; intros t Hs i j ri rj Hij Hi Hj Hn.
  - discriminate.
  - destruct Hs as (H1 & H2 & H3).
    destruct j as [|j]; [lia |]. simpl in Hj.
    destruct i as [|i]; simpl in Hi.
    + injection Hi as <-.
      apply (spaced_bounds _ _ H3 rj); [| assumption].
      apply list_elem_of_lookup. now exists j.
    + apply (IH _ H3 i j); try assumption. lia.
Qed.

Lemma trigger_quiet args h l message (w : World X) :
  all_ready l w = (Ok false, w) ->
  Z.abs (wall w - last_commit_time l) < 60000 ->
  trigger env args h l message w
    = (Ok (l, message ++ [PNotReady (wall w)]), w).
Proof.
  intros Hr Hlt. unfold trigger. rewrite (bind_Ok _ _ _ _ _ Hr).
  unfold bind at 1, now at 1.
  destruct (Z.ltb_spec (Z.abs (wall w - last_commit_time l)) 60000);
    [reflexivity | lia].
Qed.

(** The metadata branch, call by call: the two snapshots, the reading of
    the time and, behind the guard of line 359, the commit. *)
Lemma trigger_metadata args h l message w m0 m1 az el :
  all_ready l w = (Ok false, w) ->
  60000 <= Z.abs (wall w - last_commit_time l) ->
  gps_managers h !! 0%nat = Some m0 ->
  gps_managers h !! 1%nat = Some m1 ->
  solar_az l = Some az -> solar_el l = Some el ->
  (forall m, returns env (create_gps_dict m)) ->
  (forall r, returns env (commit_db r)) ->
  exists gps1 gps2 x1 x2 w',
    respond env (create_gps_dict m0) (ext w) = (Ok gps1, x1) /\
    respond env (create_gps_dict m1) x1 = (Ok gps2, x2) /\
    if used (db h)
    then exists tid db_id,
           let r := {| rec_verbose := verbose args; rec_gps1 := gps1;
                       rec_gps2 := gps2; rec_trigger_id := tid;
                       rec_bearing := ship_bearing_mean l;
                       rec_solar_az := az; rec_solar_el := el;
                       rec_spec_data := None |} in
           respond env (commit_db r) x2 = (Ok db_id, ext w') /\
           trigger env args h l message w
             = (Ok (set_last_commit_time (wall w') l,
                    message ++ [PGpsRecorded (wall w') db_id]), w') /\
           trace w' = trace w ++ [Ev (create_gps_dict m0);
                                  Ev (create_gps_dict m1);
                                  Ev (commit_db r)] /\
           db_rows w' = db_rows w ++ [r] /\
           wall w <= tid <= wall w'
    else trigger env args h l message w = (Ok (l, message), w') /\
         trace w' = trace w ++ [Ev (create_gps_dict m0);
                                Ev (create_gps_dict m1)] /\
         db_rows w' = db_rows w.
Proof.
  intros Hr Hge H0 H1 Haz Hel Hd Hc.
  destruct (Hd m0 (ext w)) as (gps1 & x1 & E1).
  destruct (Hd m1 x1) as (gps2 & x2 & E2).
  set (w1 := called env (create_gps_dict m0) x1 w).
  set (w2 := called env (create_gps_dict m1) x2 w1).
  assert (trigger env args h l message w
          = (if used (db h)
             then
               az ← local "solar_az" (solar_az l);
               el ← local "solar_el" (solar_el l);
               db_id ← commit env
                 {| rec_verbose := verbose args; rec_gps1 := gps1;
                    rec_gps2 := gps2; rec_trigger_id := wall w2;
                    rec_bearing := ship_bearing_mean l;
                    rec_solar_az := az; rec_solar_el := el;
                    rec_spec_data := None |};
               t' ← now;
               ret (set_last_commit_time t' l,
                    message ++ [PGpsRecorded t' db_id])
             else ret (l, message)) w2) as Et.
  { unfold trigger. rewrite (bind_Ok _ _ _ _ _ Hr).
    unfold bind at 1, now at 1.
    destruct (Z.ltb_spec (Z.abs (wall w - last_commit_time l)) 60000);
      [lia |].
    unfold index. rewrite H0. unfold bind at 1, ret at 1.
    rewrite (bind_Ok _ _ _ _ _ (ext_call_eq env _ _ _ _ E1)).
    rewrite H1. unfold bind at 1, ret at 1.
    rewrite (bind_Ok _ _ _ _ _ (ext_call_eq env _ w1 _ _ E2)).
    reflexivity. }
  rewrite Et. clear Et.
  assert (wall w <= wall w2) as Hw by (simpl; lia).
  exists gps1, gps2, x1, x2.
  destruct (used (db h)).
  - rewrite Haz, Hel. simpl local.
    unfold bind at 1, ret at 1. unfold bind at 1, ret at 1.
    match goal with
    | |- context [bind (commit env ?r) _ _] =>
        destruct (Hc r (ext w2)) as (id & x3 & Ec);
        rewrite (bind_Ok _ _ _ _ _ (commit_eq r w2 id x3 Ec));
        exists (snd (store r (called env (commit_db r) x3 w2)))
    end.
    split; [exact E1 |]. split; [exact E2 |].
    exists (wall w2), id. cbv zeta.
    split; [exact Ec |].
    split; [reflexivity |]. simpl.
    split; [now rewrite <- !app_assoc |].
    split; [reflexivity |]. simpl in Hw. lia.
  - exists w2.
    split; [exact E1 |]. split; [exact E2 |].
    split; [reflexivity |]. simpl.
    split; [now rewrite <- !app_assoc | reflexivity].
Qed.

(** The start-up persists nothing. *)
Lemma Quiet_homing fuel ser home t0 moving :
  Quiet (homing env fuel ser home t0 moving).
Proof.
  revert moving. induction fuel as [|fuel IH]; intros moving; simpl;
    quiet_steps.
Qed.

Lemma Quiet_start_managers ports acc :
  Quiet (start_managers env ports acc).
Proof.
  revert acc. induction ports as [|p ports IH]; intros acc; simpl;
    quiet_steps.
Qed.

Lemma Quiet_init_all fuel conf : Quiet (init_all env fuel conf).
Proof.
  unfold init_all. cbv zeta.
  quiet_steps; try apply Quiet_start_managers; try apply Quiet_homing.
Qed.

(** A run persists what its loop persists: [init_all] and the handler of
    a failed initialisation persist nothing, and the loop is entered with
    the time of its start for last commit time. *)
Lemma run_spaced cycles fuel args conf w :
  exists new,
    db_rows (snd (run env cycles fuel args conf w)) = db_rows w ++ new /\
    forall i j ri rj, (i < j)%nat ->
      new !! i = Some ri -> new !! j = Some rj ->
      rec_spec_data rj = None ->
      rec_trigger_id ri + 60000 <= rec_trigger_id rj.
Proof.
  unfold run. destruct (Quiet_init_all fuel conf w) as [_ Hd].
  destruct (init_all env fuel conf w) as [[h|e|] w1]; simpl in Hd.
  - unfold bind at 1, log_info at 1. unfold bind at 1, now at 1.
    match goal with
    | |- context [loop env cycles fuel args h ?bf ?l ?w2] =>
        destruct (loop_spaced cycles fuel args h bf l w2)
          as (new & E & Hs); [simpl; lia |]
    end.
    exists new. split; [rewrite E; simpl; now rewrite Hd |].
    exact (spaced_pairwise _ _ Hs).
  - exists []. split; [| intros i j ri rj _ Hi; discriminate Hi].
    rewrite app_nil_r. destruct (is_Exception e); simpl; exact Hd.
  - exists []. split; [| intros i j ri rj _ Hi; discriminate Hi].
    rewrite app_nil_r. exact Hd.
Qed.

End Measurement.

(** *** Initialisation *)

Section Initialisation.

Context {X : Type} (env : Env X).

Context (own : exn -> Prop).

Lemma Passes_ret {A} (a : A) : Passes env own (@ret X A a).
Proof. intros w e w' H. discriminate H. Qed.

Lemma Passes_hang {A} : Passes env own (@hang X A).
Proof. intros w e w' H. discriminate H. Qed.

Lemma Passes_raise {A} e : own e -> Passes env own (@raise X A e).
Proof. intros He w e' w' H. injection H as <- _. now left. Qed.

Lemma Passes_bind {A B} (m : M X A) (f : A -> M X B) :
  Passes env own m -> (forall a, Passes env own (f a)) ->
  Passes env own (bind m f).
Proof.
  intros Hm Hf w e w' H. unfold bind in H.
  destruct (m w) as [[a|e0|] w1] eqn:E.
  - eapply Hf. exact H.
  - injection H as <- <-. eapply Hm. exact E.
  - discriminate H.
Qed.

Lemma Passes_ext_call {T} (c : call T) : Passes env own (ext_call env c).
Proof.
  intros w e w' H. unfold ext_call in H.
  destruct (respond env c (ext w)) as [r x] eqn:E.
  injection H as -> _. right. now exists T, c, (ext w), x.
Qed.

(** The continuation of a call is run on what the call answered. *)
Lemma Passes_bind_call {T B} (c : call T) (f : T -> M X B) :
  (forall a x x', respond env c x = (Ok a, x') -> Passes env own (f a)) ->
  Passes env own (bind (ext_call env c) f).
Proof.
  intros Hf w e w' H. unfold bind, ext_call in H.
  destruct (respond env c (ext w)) as [[a|e0|] x] eqn:E.
  - eapply Hf; [exact E | exact H].
  - injection H as <- _. right. now exists T, c, (ext w), x.
  - discriminate H.
Qed.

Lemma Passes_bind_ret {A B} (a : A) (f : A -> M X B) :
  Passes env own (f a) -> Passes env own (bind (ret a) f).
Proof. intros H w. exact (H w). Qed.

Lemma Passes_bind_assoc {A B C} (m : M X A) (g : A -> M X B)
    (f : B -> M X C) :
  Passes env own (bind m (fun a => bind (g a) f)) ->
  Passes env own (bind (bind m g) f).
Proof.
  intros H w e w' E. apply (H w e w'). unfold bind in *.
  destruct (m w) as [[a|e0|] w1]; exact E.
Qed.

Lemma Passes_log_info m : Passes env own (@log_info X m).
Proof. intros w e w' H. discriminate H. Qed.

Lemma Passes_clock : Passes env own (@clock X).
Proof. intros w e w' H. discriminate H. Qed.

Lemma Passes_set_pins pins level : Passes env own (@set_pins X pins level).
Proof. intros w e w' H. discriminate H. Qed.

Lemma Passes_spawn ts : Passes env own (@spawn X ts).
Proof. intros w e w' H. discriminate H. Qed.

Lemma Passes_reap t : Passes env own (@reap X t).
Proof. intros w e w' H. discriminate H. Qed.

Lemma Passes_sleep ms : Passes env own (sleep env ms).
Proof.
  apply Passes_bind; [apply Passes_ext_call |].
  intros _ w e w' H. discriminate H.
Qed.

Lemma Passes_for_each {A} (xs : list A) (body : A -> M X unit) :
  (forall a, Passes env own (body a)) -> Passes env own (for_each xs body).
Proof.
  intros Hb. induction xs as [|a xs IH]; simpl.
  - apply Passes_ret.
  - apply Passes_bind; [apply Hb | intros _; apply IH].
Qed.

Lemma Passes_homing fuel ser home t0 moving :
  Passes env own (homing env fuel ser home t0 moving).
Proof.
  revert moving. induction fuel as [|fuel IH]; intros moving; simpl.
  - apply Passes_bind; [apply Passes_clock |]. intros c.
    destruct (moving && _); [apply Passes_hang | apply Passes_ret].
  - apply Passes_bind; [apply Passes_clock |]. intros c.
    destruct (moving && _); [| apply Passes_ret].
    apply Passes_bind; [apply Passes_ext_call |]. intros r.
    apply Passes_bind; [apply Passes_log_info |]. intros _.
    apply Passes_bind; [apply Passes_sleep |]. intros _. apply IH.
Qed.

Lemma Passes_start_managers ports : forall acc,
  Passes env own (start_managers env ports acc).
Proof.
  induction ports as [|p ports IH]; intros acc; simpl.
  - apply Passes_ret.
  - apply Passes_bind; [apply Passes_ext_call |]. intros t.
    apply Passes_bind; [apply Passes_spawn |]. intros _. apply IH.
Qed.

Lemma Passes_wait_threads fuel : Passes env own (wait_threads env fuel).
Proof.
  induction fuel as [|fuel IH]; intros w e w' H; cbn [wait_threads] in H.
  - destruct (threads w); discriminate H.
  - destruct (threads w) as [|t ts]; [discriminate H |].
    revert H. apply Passes_bind.
    { apply Passes_for_each. intros u.
      apply Passes_bind; [apply Passes_log_info |]. intros _.
      apply Passes_bind; [apply Passes_ext_call |]. intros _.
      apply Passes_reap. }
    intros _. apply Passes_bind.
    { intros w0 e0 w0' H0. discriminate H0. }
    intros _. apply Passes_bind; [apply Passes_sleep |]. intros _. apply IH.
Qed.

Lemma init_all_passes fuel conf :
  (forall ports x gps x',
     respond env (gps_init ports) x = (Ok gps, x') -> gps_ports gps <> []) ->
  Passes env own (init_all env fuel conf).
Proof.
  intros Hgps. unfold init_all.
  apply Passes_bind; [apply Passes_ext_call |]. intros db.
  apply Passes_bind; [apply Passes_ext_call |]. intros _.
  apply Passes_bind; [apply Passes_set_pins |]. intros _.
  apply Passes_bind; [apply Passes_ext_call |]. intros _.
  apply Passes_bind; [apply Passes_log_info |]. intros _.
  apply Passes_bind; [apply Passes_ext_call |]. intros ports.
  apply Passes_bind; [apply Passes_ext_call |]. intros motor.
  apply Passes_bind_call. intros gps x x' Egps.
  apply Passes_bind; [apply Passes_ext_call |]. intros rad.
  apply Passes_bind; [apply Passes_ext_call |]. intros sample.
  cbv zeta.
  destruct (gps_ports gps) as [|p ps] eqn:Ep; [now apply Hgps in Egps |].
  change (0 <? length (p :: ps))%nat with true. cbv iota.
  apply Passes_bind_assoc.
  apply Passes_bind; [apply Passes_start_managers |]. intros ms.
  apply Passes_bind_ret.
  apply Passes_bind; [apply Passes_sleep |]. intros _.
  apply Passes_bind_ret.
  apply Passes_bind; [apply Passes_ext_call |]. intros checker.
  apply Passes_bind; [apply Passes_spawn |]. intros _.
  apply Passes_bind; [apply Passes_ext_call |]. intros motor_pos.
  apply Passes_bind.
  { destruct (decide _); [apply Passes_log_info |].
    apply Passes_bind; [apply Passes_clock |]. intros t0.
    apply Passes_bind; [apply Passes_log_info |]. intros _.
    apply Passes_bind; [apply Passes_ext_call |]. intros _.
    apply Passes_bind; [apply Passes_homing |]. intros _.
    apply Passes_log_info. }
  intros _.
  apply Passes_bind; [apply Passes_sleep |]. intros _.
  apply Passes_bind; [apply Passes_ext_call |]. intros rm.
  apply Passes_bind; [apply Passes_spawn |]. intros _.
  apply Passes_bind; [apply Passes_sleep |]. intros _.
  apply Passes_ret.
Qed.

Lemma stop_all_passes fuel db rm gms gcm :
  own (SystemExit 0) ->
  Passes env own (stop_all env fuel db rm gms gcm).
Proof.
  intros Hown. unfold stop_all.
  apply Passes_bind.
  { destruct (used db); [apply Passes_ext_call | apply Passes_ret]. }
  intros _. cbv zeta.
  apply Passes_bind; [apply Passes_ext_call |]. intros _.
  apply Passes_bind; [apply Passes_set_pins |]. intros _.
  apply Passes_bind; [apply Passes_ext_call |]. intros _.
  apply Passes_bind; [apply Passes_log_info |]. intros _.
  apply Passes_bind; [apply Passes_log_info |]. intros _.
  apply Passes_bind.
  { apply Passes_for_each. intros m.
    apply Passes_bind; [apply Passes_log_info |]. intros _.
    apply Passes_ext_call. }
  intros _.
  apply Passes_bind; [apply Passes_sleep |]. intros _.
  apply Passes_bind; [apply Passes_wait_threads |]. intros _.
  now apply Passes_raise.
Qed.

Lemma sleep_Ok ms w :
  (forall T (c : call T), returns env c) ->
  exists w', sleep env ms w = (Ok tt, w') /\ cpu w <= cpu w'.
Proof.
  intros Hall. unfold sleep. call_returns (Hall _ (time_sleep ms)).
  eexists. split; [reflexivity |]. simpl. lia.
Qed.

Lemma homing_returns delta ser home t0 :
  (forall T (c : call T), returns env c) ->
  (forall x, delta <= Z.of_N (processor env (motor_moving ser home 300) x)) ->
  forall fuel moving w,
    5000 - (cpu w - t0) <= delta * Z.of_nat fuel ->
    exists w', homing env fuel ser home t0 moving w = (Ok tt, w').
Proof.
  intros Hall Hpoll. induction fuel as [|fuel IH]; intros moving w Hfuel.
  - simpl. unfold bind at 1, clock at 1.
    destruct (Z.ltb_spec (cpu w - t0) 5000); [lia |].
    rewrite andb_false_r. eexists. reflexivity.
  - simpl. unfold bind at 1, clock at 1.
    destruct (moving && (cpu w - t0 <? 5000)); [| eexists; reflexivity].
    call_returns (Hall _ (motor_moving ser home 300)).
    unfold bind at 1, log_info at 1.
    match goal with |- context [bind (sleep env 1000) _ ?w1] =>
      destruct (sleep_Ok 1000 w1 Hall) as (w2 & E2 & Hc) end.
    rewrite (bind_Ok _ _ _ _ _ E2). simpl in Hc.
    apply IH. specialize (Hpoll (ext w)). lia.
Qed.

Lemma start_managers_returns :
  (forall T (c : call T), returns env c) ->
  forall ports acc w, exists ms w',
    start_managers env ports acc w = (Ok ms, w').
Proof.
  intros Hall. induction ports as [|p ports IH]; intros acc w; simpl.
  - eexists _, _. reflexivity.
  - call_returns (Hall _ (GPSManager_start p)).
    unfold bind at 1, spawn at 1. apply IH.
Qed.

Lemma init_all_returns delta fuel conf w :
  (forall T (c : call T), returns env c) ->
  (forall ports x gps x',
     respond env (gps_init ports) x = (Ok gps, x') -> gps_ports gps <> []) ->
  (forall ser home x,
     delta <= Z.of_N (processor env (motor_moving ser home 300) x)) ->
  5000 <= delta * Z.of_nat fuel ->
  exists h w', init_all env fuel conf w = (Ok h, w').
Proof.
  intros Hall Hgps Hpoll Hfuel. unfold init_all.
  call_returns (Hall _ db_init).
  call_returns (Hall _ (init_gpio (gpio_pins conf) false)).
  unfold bind at 1, set_pins at 1.
  call_returns (Hall _ init_logger).
  unfold bind at 1, log_info at 1.
  call_returns (Hall _ comports).
  call_returns (Hall _ (motor_init a2)).
  match goal with |- context [bind (ext_call env (gps_init ?p)) _ ?w1] =>
    destruct (Hall _ (gps_init p) (ext w1)) as (gps & xg & Eg);
    rewrite (bind_Ok _ _ _ _ _ (ext_call_eq env _ _ _ _ Eg)) end.
  call_returns (Hall _ (rad_init a2)).
  call_returns (Hall _ sample_init).
  cbv zeta.
  destruct (gps_ports gps) as [|p ps] eqn:Ep; [now apply Hgps in Eg |].
  change (0 <? length (p :: ps))%nat with true. cbv iota.
  match goal with |- context [start_managers env ?ports ?acc] =>
    match goal with |- context [bind (bind (start_managers env ports acc) _) _ ?w1] =>
      destruct (start_managers_returns Hall ports acc w1) as (ms & wm & Em) end end.
  unfold bind at 1. rewrite (bind_Ok _ _ _ _ _ Em). unfold ret at 1.
  destruct (sleep_Ok 100 wm Hall) as (w2 & E2 & _). rewrite (bind_Ok _ _ _ _ _ E2).
  unfold bind at 1, local at 1, ret at 1.
  call_returns (Hall _ (GPSChecker_start ms)).
  unfold bind at 1, spawn at 1.
  call_returns (Hall _ (get_motor_pos (serial a3))).
  match goal with |- context [bind (if decide ?P then ?m1 else ?m2) _ ?w1] =>
    assert (exists w3, (if decide P then m1 else m2) w1 = (Ok tt, w3)) as (w3 & E3) end.
  { destruct (decide _); [eexists; reflexivity |].
    unfold bind at 1, clock at 1. unfold bind at 1, log_info at 1.
    call_returns (Hall _ (return_home (serial a3))).
    match goal with |- context [bind (homing env fuel ?s ?hp ?t0 true) _ ?w1] =>
      destruct (homing_returns delta s hp t0 Hall (Hpoll s hp) fuel true w1) as (wh & Eh) end.
    { simpl. lia. }
    rewrite (bind_Ok _ _ _ _ _ Eh). eexists. reflexivity. }
  rewrite (bind_Ok _ _ _ _ _ E3).
  destruct (sleep_Ok 100 w3 Hall) as (w4 & E4 & _). rewrite (bind_Ok _ _ _ _ _ E4).
  call_returns (Hall _ (TriosManager a4)).
  unfold bind at 1, spawn at 1.
  match goal with |- context [bind (sleep env 100) _ ?w1] =>
    destruct (sleep_Ok 100 w1 Hall) as (w5 & E5 & _) end.
  rewrite (bind_Ok _ _ _ _ _ E5).
  eexists _, _. reflexivity.
Qed.

End Initialisation.

(** ** C1: the pins on start-up and on the ways out *)

(** C1 (the code departs from the claim).  The claim has every way out,
    a failed initialisation included, reach the pins-OFF step of
    [stop_all].  Whenever [init_all] raises an exception, the handler of
    [run] fails on the first name it reads, [log]: [run] ends with
    [UnboundLocalError] in the very world in which [init_all] failed.
    Nothing is logged, [stop_all] is not entered and no pin is driven. *)
Theorem init_failure_never_reaches_pins_off {X} (env : Env X)
    cycles fuel args conf w e w1 :
  init_all env fuel conf w = (Raise e, w1) ->
  is_Exception e = true ->
  run env cycles fuel args conf w = (Raise (UnboundLocalError "log"), w1).
Proof.
  intros E He. unfold run. rewrite E, He. reflexivity.
Qed.

(** The database cannot be reached while pin 11 is still on from an
    earlier run: the only call ever made is [db_init] and pin 11 stays
    on.  With no GPS port the pins were set low by [init_gpio], but the
    pins-OFF step of [stop_all] is not reached either. *)
Lemma init_failure_never_reaches_pins_off_witness :
  let w1 := snd (init_all (Scenario.platform Scenario.db_down) 10
                   Scenario.conf0 (Scenario.boot tt)) in
  let w2 := snd (init_all (Scenario.platform Scenario.no_gps) 10
                   Scenario.conf0 (Scenario.boot tt)) in
  (run (Scenario.platform Scenario.db_down) 3 10 Scenario.args0
     Scenario.conf0 (Scenario.boot tt)
   = (Raise (UnboundLocalError "log"), w1) /\
   trace w1 = [Ev db_init] /\
   pin_level w1 !! 11 = Some true) /\
  (run (Scenario.platform Scenario.no_gps) 3 10 Scenario.args0
     Scenario.conf0 (Scenario.boot tt)
   = (Raise (UnboundLocalError "log"), w2) /\
   pins_off_steps (trace w2) = 0%nat).
Proof.
  intros w1 w2. split; split.
  - apply (init_failure_never_reaches_pins_off
             (Scenario.platform Scenario.db_down) 3 10 Scenario.args0
             Scenario.conf0 (Scenario.boot tt)
             (OtherError "OperationalError") w1).
    + vm_compute. reflexivity.
    + reflexivity.
  - vm_compute. split; reflexivity.
  - apply (init_failure_never_reaches_pins_off
             (Scenario.platform Scenario.no_gps) 3 10 Scenario.args0
             Scenario.conf0 (Scenario.boot tt)
             (UnboundLocalError "gps_managers") w2).
    + vm_compute. reflexivity.
    + reflexivity.
  - vm_compute. reflexivity.
Defined.

(** ** C2: the exit status *)

(** C2 (the code departs from the claim).  The claim has an exception
    raised inside a cycle re-raised after the tear-down, for a non-zero
    exit status.  Whenever a cycle raises an exception that
    [except Exception] catches and the calls of the tear-down answer, the
    handler's call of [stop_all] ends in [sys.exit(0)]: the [raise] that
    follows it is not reached and the process ends with status 0. *)
Theorem cycle_exception_exits_with_zero {X} (env : Env X)
    cycles fuel args h bearing_fixed l w e w1 :
  cycle env fuel args h bearing_fixed l w = (Raise e, w1) ->
  is_Exception e = true ->
  (forall c, returns env (cursor_close c)) ->
  (forall pins level, returns env (GPIO_output pins level)) ->
  returns env GPIO_cleanup ->
  (forall m, returns env (gps_stop m)) ->
  (forall t, returns env (thread_join t)) ->
  (forall ms, returns env (time_sleep ms)) ->
  (0 < fuel)%nat ->
  exists w2,
    loop env (S cycles) fuel args h bearing_fixed l w
      = (Raise (SystemExit 0), w2) /\
    exit_code (fst (loop env (S cycles) fuel args h bearing_fixed l w))
      = Some 0.
Proof.
  intros E He Hc Ho Hcl Hs Hj Hsl Hfuel. simpl. rewrite E.
  assert (exists w2,
            (log_exception MsgUnhandled ;;
             stop_all env fuel (db h) (radiometry_manager h)
               (gps_managers h) (gps_checker_manager h) ;;
             (raise e : M X unit)) w1 = (Raise (SystemExit 0), w2))
    as (w2 & E2).
  { unfold bind at 1, log_exception at 1. cbv beta iota.
    match goal with
    | |- context [bind (stop_all env ?a ?b ?c ?d ?f) _ ?w0] =>
        destruct (stop_all_returns env a b c d f w0
                    Hc Ho Hcl Hs Hj Hsl Hfuel) as (w2 & E2 & _)
    end.
    exists w2. now rewrite (bind_Raise _ _ _ _ _ E2). }
  exists w2. destruct e; try discriminate He; simpl; rewrite E2; auto.
Qed.

(** A radiometer fails in the middle of [sample_all] in the first cycle
    of a run on the nominal platform: the exception is logged, the pins
    are driven low once, nothing is persisted and the process exits with
    status 0, as it does after a manual interrupt. *)
Lemma cycle_exception_exits_with_zero_witness :
  let r := run (Scenario.platform Scenario.sampling_fault) 3 10
             Scenario.args0 Scenario.conf0 (Scenario.boot tt) in
  let r' := run (Scenario.platform Scenario.interrupted) 3 10
              Scenario.args0 Scenario.conf0 (Scenario.boot tt) in
  (exists w2,
     loop (Scenario.platform Scenario.sampling_fault) 1 10 Scenario.args0
       (Scenario.handles0 true) false
       (start_locals Scenario.conf0 1000000) (Scenario.running tt)
       = (Raise (SystemExit 0), w2) /\
     exit_code
       (fst (loop (Scenario.platform Scenario.sampling_fault) 1 10
               Scenario.args0 (Scenario.handles0 true) false
               (start_locals Scenario.conf0 1000000) (Scenario.running tt)))
       = Some 0) /\
  fst r = Raise (SystemExit 0) /\
  exit_code (fst r) = Some 0 /\
  Log true MsgUnhandled ∈ trace (snd r) /\
  pins_off_steps (trace (snd r)) = 1%nat /\
  db_rows (snd r) = [] /\
  exit_code (fst r') = Some 0.
Proof.
  intros r r'. split.
  - apply (cycle_exception_exits_with_zero
             (Scenario.platform Scenario.sampling_fault) 0 10 Scenario.args0
             (Scenario.handles0 true) false
             (start_locals Scenario.conf0 1000000) (Scenario.running tt)
             (OtherError "SerialException")
             (snd (cycle (Scenario.platform Scenario.sampling_fault) 10
                     Scenario.args0 (Scenario.handles0 true) false
                     (start_locals Scenario.conf0 1000000)
                     (Scenario.running tt)))).
    + vm_compute. reflexivity.
    + reflexivity.
    + intros c x. eexists _, _. reflexivity.
    + intros pins level x. eexists _, _. reflexivity.
    + intros x. eexists _, _. reflexivity.
    + intros m x. eexists _, _. reflexivity.
    + intros t x. eexists _, _. reflexivity.
    + intros ms x. eexists _, _. reflexivity.
    + lia.
  - vm_compute. repeat split. repeat constructor.
Defined.

(** ** C3: the cycles in which the gate is false *)




(** ** C4: the cycles in which the gate is true *)

(** C4, as stated, fails: the configuration uses no database.  The gate
    is true and the radiometers are sampled with the trigger id, but no
    record is persisted and [last_commit_time] keeps its value. *)
Lemma no_record_without_a_database :
  let l := Scenario.locals0 true true 999000 in
  let w := Scenario.boot tt in
  let r := trigger (Scenario.platform Scenario.no_db) Scenario.args0
             (Scenario.handles0 false) l [] w in
  all_ready l w = (Ok true, w) /\
  fst r = Ok (set_trigger_id (Some 1000000) l, []) /\
  last (trace (snd r)) = Some (Ev (sample_all 1000000)) /\
  db_rows (snd r) = [].
Proof. vm_compute. repeat split. Qed.

(** C4, amended.  In a cycle in which the gate expression is true, with
    two GPS monitors and collaborators that answer ([sample_all] with
    parallel sequences): the trigger id is the time at which the gate was
    found true, both GPS managers are snapshot and [sample_all] is called
    with that trigger id.  When the database is in use exactly one record
    is persisted, with that trigger id and a list for spectra, and
    [last_commit_time] becomes the time after the commit; when it is not
    in use nothing is persisted and [last_commit_time] keeps its value. *)
Theorem gate_true_trigger {X} (env : Env X) args h l message w m0 m1 az el :
  all_ready l w = (Ok true, w) ->
  gps_managers h !! 0%nat = Some m0 ->
  gps_managers h !! 1%nat = Some m1 ->
  solar_az l = Some az -> solar_el l = Some el ->
  (forall m, returns env (create_gps_dict m)) ->
  (forall t x, exists r x',
      respond env (sample_all t) x = (Ok r, x') /\ parallel r) ->
  (forall r, returns env (commit_db r)) ->
  exists l' message' w',
    trigger env args h l message w = (Ok (l', message'), w') /\
    trigger_id l' = Some (wall w) /\
    Ev (create_gps_dict m0) ∈ trace w' /\
    Ev (create_gps_dict m1) ∈ trace w' /\
    Ev (sample_all (wall w)) ∈ trace w' /\
    if used (db h)
    then exists r rows,
           db_rows w' = db_rows w ++ [r] /\
           rec_trigger_id r = wall w /\
           rec_spec_data r = Some rows /\
           last_commit_time l' = wall w'
    else db_rows w' = db_rows w /\
         last_commit_time l' = last_commit_time l.
Proof. apply trigger_full. Qed.

(** Scenario A on the nominal platform. *)
Lemma gate_true_trigger_witness :
  exists l' message' w',
    trigger Scenario.env_nominal Scenario.args0 (Scenario.handles0 true)
      (Scenario.locals0 true true 999000) [] (Scenario.boot tt)
      = (Ok (l', message'), w') /\
    trigger_id l' = Some 1000000 /\
    Ev (create_gps_dict {| gm_port := "ttyUSB1"; gm_ident := 301 |})
      ∈ trace w' /\
    Ev (create_gps_dict {| gm_port := "ttyUSB2"; gm_ident := 302 |})
      ∈ trace w' /\
    Ev (sample_all 1000000) ∈ trace w' /\
    exists r rows,
      db_rows w' = [r] /\
      rec_trigger_id r = 1000000 /\
      rec_spec_data r = Some rows /\
      last_commit_time l' = wall w'.
Proof.
  apply (gate_true_trigger Scenario.env_nominal Scenario.args0
           (Scenario.handles0 true) (Scenario.locals0 true true 999000) []
           (Scenario.boot tt)
           {| gm_port := "ttyUSB1"; gm_ident := 301 |}
           {| gm_port := "ttyUSB2"; gm_ident := 302 |} 180 40);
    try reflexivity.
  - intros m x. eexists _, _. reflexivity.
  - intros t x. eexists _, _. split; [reflexivity |]. split; reflexivity.
  - intros r x. eexists _, _. reflexivity.
Defined.

(** ** C5: the four predicates of a cycle *)

(** C5 (the code departs from the claim).  [motor_ready] is assigned in
    one place only, [motor_ready = True] on line 304, inside the branch of
    a ready GPS.
    - The receivers have no fix in the first cycle: the gate expression
      reads a name that was never assigned and the cycle raises
      [UnboundLocalError] instead of finding the gate false.
    - The receivers lose their fix in the second cycle and the motor no
      longer answers: the position is not read in that cycle, and
      [motor_ready] is still true. *)
Theorem motor_ready_is_not_evaluated_each_cycle :
  let cold := cycle (Scenario.platform Scenario.gps_cold) 10 Scenario.args0
                (Scenario.handles0 true) false
                (start_locals Scenario.conf0 1000000) (Scenario.boot tt) in
  let first := cycle (Scenario.platform Scenario.gps_lost) 10 Scenario.args0
                 (Scenario.handles0 true) false
                 (start_locals Scenario.conf0 1000000)
                 (Scenario.boot 0%nat) in
  fst cold = Raise (UnboundLocalError "motor_ready") /\
  exists l1 l2 w2,
    fst first = Ok l1 /\
    cycle (Scenario.platform Scenario.gps_lost) 10 Scenario.args0
      (Scenario.handles0 true) false l1 (snd first) = (Ok l2, w2) /\
    position_reads (trace w2) = position_reads (trace (snd first)) /\
    respond (Scenario.platform Scenario.gps_lost) (get_motor_pos "ttyUSB0")
      (ext w2) = (Ok None, ext w2) /\
    gps_ready l2 = Some false /\
    motor_ready l2 = Some true.
Proof.
  split; [vm_compute; reflexivity |].
  eexists _, _, _. split; [vm_compute; reflexivity |].
  split; [vm_compute; reflexivity |].
  vm_compute. repeat split.
Qed.

(** ** C6: failures of the initialisation *)




(** ** C7: [stop_all] *)




(** ** C8: the two polling loops *)

(** C8 (the code departs from the claim).  Both loops compare readings
    of [time.clock()], the processor time of the process, of which a
    sleeping process is charged none.  With a motor that never arrives
    and a poll that costs 10 ms of processor time:
    - after the five polls and five seconds of sleep that the claim
      allows, the homing loop has not returned;
    - it returns after 500 polls, 500 s after it started, and so it does
      when the moving flag cannot be read;
    - the tracking loop returns after 500 polls and 1000 s.
    Only in a process that is charged processor time while it sleeps do
    the same loops return after 5 s and 6 s. *)
Theorem polling_loops_outlast_five_seconds :
  let w := Scenario.boot tt in
  let blind :=
    {| respond := @Scenario.unreadable unit;
       elapsed := fun _ _ _ => 0%N;
       processor := @Scenario.poll_cost unit |} in
  let five := homing Scenario.env_jammed 5 "ttyUSB0" 0 (cpu w) true w in
  let home := homing Scenario.env_jammed 1000 "ttyUSB0" 0 (cpu w) true w in
  let dark := homing blind 1000 "ttyUSB0" 0 (cpu w) true w in
  let track :=
    tracking Scenario.env_jammed 1000 "ttyUSB0" 800 (cpu w) true w in
  let busy_home :=
    homing Scenario.env_jammed_busy 1000 "ttyUSB0" 0 (cpu w) true w in
  let busy_track :=
    tracking Scenario.env_jammed_busy 1000 "ttyUSB0" 800 (cpu w) true w in
  (fst five = Hang /\ wall (snd five) - wall w = 5000) /\
  (fst home = Ok tt /\ polls (trace (snd home)) = 500%nat /\
   wall (snd home) - wall w = 500000) /\
  (fst dark = Ok tt /\ polls (trace (snd dark)) = 500%nat /\
   wall (snd dark) - wall w = 500000) /\
  (fst track = Ok tt /\ polls (trace (snd track)) = 500%nat /\
   wall (snd track) - wall w = 1000000) /\
  (fst busy_home = Ok tt /\ wall (snd busy_home) - wall w = 5000) /\
  (fst busy_track = Ok tt /\ wall (snd busy_track) - wall w = 6000).
Proof. vm_compute. repeat split. Qed.

(** ** C9: the GPS monitors *)

(** C9 (the code departs from the claim).  No key of the GPS section
    names a serial port.  The [else] branch logs its message at level
    INFO and goes on, but [gps_managers] was only assigned in the other
    branch: [GPSChecker(gps_managers)] raises [UnboundLocalError],
    initialisation does not complete, no bearing thread is started and no
    cycle is run. *)
Theorem no_gps_port_fails_initialisation :
  let r := init_all (Scenario.platform Scenario.no_gps) 10 Scenario.conf0
             (Scenario.boot tt) in
  fst r = Raise (UnboundLocalError "gps_managers") /\
  last (trace (snd r)) = Some (Ev (time_sleep 100)) /\
  Log false MsgCheckGps ∈ trace (snd r) /\
  threads (snd r) = [] /\
  fst (run (Scenario.platform Scenario.no_gps) 3 10 Scenario.args0
         Scenario.conf0 (Scenario.boot tt))
  = Raise (UnboundLocalError "log").
Proof.
  vm_compute. repeat split. repeat constructor.
Qed.

(** ** C10: the snapshots of the GPS state *)



(** * Further properties

    What the program may do, as events and records: a framework to bound
    the events a program issues and the records it persists, by the
    answers the environment may give. *)

Section Growth.

Context {X : Type} (env : Env X).
Context (P : event -> Prop) (Q : TriggerRecord -> Prop).

Lemma grows_refl (w : World X) : grows P Q w w.
Proof.
  split; [lia |]. split; exists []; rewrite app_nil_r; auto.
Qed.

Lemma grows_trans (w1 w2 w3 : World X) :
  grows P Q w1 w2 -> grows P Q w2 w3 -> grows P Q w1 w3.
Proof.
  intros (H1 & (e1 & E1 & F1) & (r1 & R1 & G1))
         (H2 & (e2 & E2 & F2) & (r2 & R2 & G2)).
  split; [lia |]. split.
  - exists (e1 ++ e2). rewrite E2, E1, app_assoc. split; [reflexivity |].
    apply Forall_app; auto.
  - exists (r1 ++ r2). rewrite R2, R1, app_assoc. split; [reflexivity |].
    apply Forall_app; auto.
Qed.

Lemma grows_still (w w' : World X) :
  wall w <= wall w' -> trace w' = trace w -> db_rows w' = db_rows w ->
  grows P Q w w'.
Proof.
  intros H E R. split; [exact H |].
  split; exists []; rewrite app_nil_r; auto.
Qed.

Lemma grows_event (w w' : World X) e :
  P e -> wall w <= wall w' -> trace w' = trace w ++ [e] ->
  db_rows w' = db_rows w -> grows P Q w w'.
Proof.
  intros He H E R. split; [exact H |]. split.
  - exists [e]. split; [exact E | now constructor].
  - exists []. rewrite app_nil_r. auto.
Qed.

Lemma Grows_ret {A} (R : A -> Prop) a : R a -> Grows P Q R (@ret X A a).
Proof.
  intros Ha w. split; [apply grows_refl |].
  intros b E. now injection E as <-.
Qed.

Lemma Grows_raise {A} (R : A -> Prop) e : Grows P Q R (@raise X A e).
Proof. intros w. split; [apply grows_refl | discriminate]. Qed.

Lemma Grows_hang {A} (R : A -> Prop) : Grows P Q R (@hang X A).
Proof. intros w. split; [apply grows_refl | discriminate]. Qed.

Lemma Grows_bind {A B} (R1 : A -> Prop) (R : B -> Prop)
    (m : M X A) (f : A -> M X B) :
  Grows P Q R1 m -> (forall a, R1 a -> Grows P Q R (f a)) ->
  Grows P Q R (bind m f).
Proof.
  intros Hm Hf w. unfold bind. destruct (Hm w) as [G1 H1].
  destruct (m w) as [[a|e|] w1]; simpl in *.
  - destruct (Hf a (H1 a eq_refl) w1) as [G2 H2].
    split; [eapply grows_trans; eassumption | exact H2].
  - split; [exact G1 | discriminate].
  - split; [exact G1 | discriminate].
Qed.

Lemma Grows_post {A} (R1 R : A -> Prop) (m : M X A) :
  Grows P Q R1 m -> (forall a, R1 a -> R a) -> Grows P Q R m.
Proof.
  intros Hm HR w. destruct (Hm w) as [G H]. split; [exact G |].
  intros a E. apply HR, H, E.
Qed.

(** A step whose value does not matter. *)
Lemma Grows_then {A B} (R : B -> Prop) (m : M X A) (f : A -> M X B) :
  Grows P Q (fun _ => True) m -> (forall a, Grows P Q R (f a)) ->
  Grows P Q R (bind m f).
Proof. intros Hm Hf. eapply Grows_bind; [exact Hm | intros a _; apply Hf]. Qed.

Lemma Grows_ext_call {T} (c : call T) :
  P (Ev c) -> Grows P Q (answers env c) (ext_call env c).
Proof.
  intros Hc w. unfold ext_call.
  destruct (respond env c (ext w)) as [r x'] eqn:E. simpl. split.
  - apply grows_event with (e := Ev c); [exact Hc | simpl; lia | reflexivity | reflexivity].
  - intros a ->. now exists (ext w), x'.
Qed.

Lemma Grows_call {T B} (R : B -> Prop) (c : call T) (f : T -> M X B) :
  P (Ev c) -> (forall a, answers env c a -> Grows P Q R (f a)) ->
  Grows P Q R (bind (ext_call env c) f).
Proof. intros Hc Hf. eapply Grows_bind; [now apply Grows_ext_call | exact Hf]. Qed.

Lemma Grows_log_info m : P (Log false m) -> Grows P Q (fun _ => True) (@log_info X m).
Proof.
  intros Hm w. split; [| auto].
  apply grows_event with (e := Log false m); [exact Hm | simpl; lia | reflexivity | reflexivity].
Qed.

Lemma Grows_log_exception m :
  P (Log true m) -> Grows P Q (fun _ => True) (@log_exception X m).
Proof.
  intros Hm w. split; [| auto].
  apply grows_event with (e := Log true m); [exact Hm | simpl; lia | reflexivity | reflexivity].
Qed.

Lemma Grows_now : Grows P Q (fun _ => True) (@now X).
Proof. intros w. split; [apply grows_refl | auto]. Qed.

Lemma Grows_clock : Grows P Q (fun _ => True) (@clock X).
Proof. intros w. split; [apply grows_refl | auto]. Qed.

Lemma Grows_set_pins pins level :
  Grows P Q (fun _ => True) (@set_pins X pins level).
Proof. intros w. split; [| auto]. apply grows_still; [simpl; lia | reflexivity | reflexivity]. Qed.

Lemma Grows_spawn ts : Grows P Q (fun _ => True) (@spawn X ts).
Proof. intros w. split; [| auto]. apply grows_still; [simpl; lia | reflexivity | reflexivity]. Qed.

Lemma Grows_reap t : Grows P Q (fun _ => True) (@reap X t).
Proof. intros w. split; [| auto]. apply grows_still; [simpl; lia | reflexivity | reflexivity]. Qed.

Lemma Grows_local {A} name (v : option A) :
  Grows P Q (fun a => v = Some a) (@local X A name v).
Proof. destruct v; [now apply Grows_ret | apply Grows_raise]. Qed.

Lemma Grows_index {A} (xs : list A) i :
  Grows P Q (fun a => xs !! i = Some a) (@index X A xs i).
Proof.
  unfold index. destruct (xs !! i); [now apply Grows_ret | apply Grows_raise].
Qed.

Lemma Grows_format_f v : Grows P Q (fun z => v = Some z) (@format_f X v).
Proof. destruct v; [now apply Grows_ret | apply Grows_raise]. Qed.

Lemma Grows_sleep ms :
  0 <= ms -> P (Ev (time_sleep ms)) ->
  Grows P Q (fun _ => True) (sleep env ms).
Proof.
  intros Hms Hp. unfold sleep. apply Grows_call; [exact Hp |].
  intros _ _ w. split; [| auto].
  apply grows_still; [simpl; lia | reflexivity | reflexivity].
Qed.

Lemma Grows_for_each {A} (xs : list A) (body : A -> M X unit) :
  (forall a, Grows P Q (fun _ => True) (body a)) ->
  Grows P Q (fun _ => True) (for_each xs body).
Proof.
  intros Hb. induction xs as [|a xs IH]; simpl.
  - now apply Grows_ret.
  - apply Grows_then; [apply Hb | intros _; apply IH].
Qed.

Lemma Grows_commit r :
  P (Ev (commit_db r)) -> Q r -> Grows P Q (fun _ => True) (commit env r).
Proof.
  intros Hp Hq. unfold commit. apply Grows_call; [exact Hp |]. intros id _.
  apply Grows_then; [| intros _; now apply Grows_ret].
  intros w. split; [| auto]. split; simpl; [lia |]. split.
  - exists []. rewrite app_nil_r. auto.
  - exists [r]. split; [reflexivity | now constructor].
Qed.

End Growth.

(** The condition on the event of a step, when it holds by computation or
    by the footprint at hand. *)
Ltac grows_event_ok :=
  try solve
    [ reflexivity
    | assumption
    | match goal with
      | H : forall e, _ -> ?P e |- ?P _ => apply H; reflexivity
      end ].

Section Footprints.

Context {X : Type} (env : Env X).
Context (P : event -> Prop) (Q : TriggerRecord -> Prop).

Lemma Grows_wait_threads fuel :
  (forall e, joining_event e = true -> P e) ->
  Grows P Q (fun _ => True) (wait_threads env fuel).
Proof.
  intros HP. induction fuel as [|fuel IH]; intros w; cbn [wait_threads].
  - destruct (threads w); (split; [apply grows_refl | auto]).
  - destruct (threads w) as [|t ts]; [split; [apply grows_refl | auto] |].
    revert w. change (Grows P Q (fun _ : unit => True)
      (for_each (t :: ts) (fun t0 =>
         log_info (MsgIdent t0) ;; ext_call env (thread_join t0) ;; reap t0) ;;
       (fun w' => log_info (MsgActive (S (length (threads w')))) w') ;;
       sleep env 500 ;; wait_threads env fuel)).
    apply Grows_then.
    { apply Grows_for_each. intros u.
      apply Grows_then; [apply Grows_log_info; now apply HP | intros _].
      apply Grows_then; [| intros _; apply Grows_reap].
      eapply Grows_post; [apply Grows_ext_call; now apply HP | auto]. }
    intros _. apply Grows_then.
    { intros w. apply Grows_log_info. now apply HP. }
    intros _. apply Grows_then; [apply Grows_sleep; [lia | now apply HP] |].
    intros _. apply IH.
Qed.

Lemma Grows_stop_all fuel db rm gms gcm :
  (forall e, teardown_event e = true -> P e) ->
  Grows P Q (fun _ => False) (stop_all env fuel db rm gms gcm).
Proof.
  intros HP. unfold stop_all.
  apply Grows_then.
  { destruct (used db); [| now apply Grows_ret].
    eapply Grows_post; [apply Grows_ext_call; now apply HP | auto]. }
  intros _. cbv zeta.
  apply Grows_call; [now apply HP | intros _ _].
  apply Grows_then; [apply Grows_set_pins | intros _].
  apply Grows_call; [now apply HP | intros _ _].
  apply Grows_then; [apply Grows_log_info; now apply HP | intros _].
  apply Grows_then; [apply Grows_log_info; now apply HP | intros _].
  apply Grows_then.
  { apply Grows_for_each. intros m.
    apply Grows_then; [apply Grows_log_info; now apply HP | intros _].
    eapply Grows_post; [apply Grows_ext_call; now apply HP | auto]. }
  intros _.
  apply Grows_then; [apply Grows_sleep; [lia | now apply HP] | intros _].
  apply Grows_then; [| intros _; apply Grows_raise].
  apply Grows_wait_threads. intros e He. apply HP.
  destruct e as [T c|[] m]; [destruct c | destruct m | destruct m];
    try discriminate He; reflexivity.
Qed.

Lemma Grows_homing fuel ser home t0 :
  (forall e, homing_event e = true -> P e) ->
  forall moving, Grows P Q (fun _ => True) (homing env fuel ser home t0 moving).
Proof.
  intros HP. induction fuel as [|fuel IH]; intros moving; simpl.
  - apply Grows_then; [apply Grows_clock | intros c].
    destruct (moving && _); [apply Grows_hang | now apply Grows_ret].
  - apply Grows_then; [apply Grows_clock | intros c].
    destruct (moving && _); [| now apply Grows_ret].
    apply Grows_call; [now apply HP | intros r _].
    apply Grows_then; [apply Grows_log_info; now apply HP | intros _].
    apply Grows_then; [apply Grows_sleep; [lia | now apply HP] | intros _].
    apply IH.
Qed.

Lemma Grows_tracking fuel ser target t0 :
  (forall e, moving_event e = true -> P e) ->
  forall moving,
    Grows P Q (fun _ => True) (tracking env fuel ser target t0 moving).
Proof.
  intros HP. induction fuel as [|fuel IH]; intros moving; simpl.
  - apply Grows_then; [apply Grows_clock | intros c].
    destruct (moving && _); [apply Grows_hang | now apply Grows_ret].
  - apply Grows_then; [apply Grows_clock | intros c].
    destruct (moving && _); [| now apply Grows_ret].
    apply Grows_call; [now apply HP | intros r _].
    apply Grows_then; [apply Grows_log_info; now apply HP | intros _].
    apply Grows_then; [apply Grows_sleep; [lia | now apply HP] | intros _].
    apply IH.
Qed.

(** One manager is started for each port, in the order of the ports. *)
Lemma Grows_start_managers ports :
  (forall e, startup_event e = true -> P e) ->
  forall acc,
    Grows P Q (fun ms => map gm_port ms = map gm_port acc ++ ports)
      (start_managers env ports acc).
Proof.
  intros HP. induction ports as [|p ports IH]; intros acc; simpl.
  - apply Grows_ret. now rewrite app_nil_r.
  - apply Grows_call; [now apply HP | intros t _].
    apply Grows_then; [apply Grows_spawn | intros _].
    eapply Grows_post; [apply IH |].
    intros ms ->. rewrite map_app. simpl. now rewrite <- app_assoc.
Qed.

Lemma splice_in_range sids itimes specs (w : World X) :
  (length sids <= length itimes)%nat -> (length sids <= length specs)%nat ->
  forall n k acc, (k + n = length sids)%nat ->
    splice (seq k n) sids itimes specs acc w
    = (Ok (acc ++ spliced (drop k sids) (drop k itimes) (drop k specs)), w).
Proof.
  intros Hi Hs. induction n as [|n IH]; intros k acc Hk; simpl.
  - rewrite drop_ge by lia. simpl. now rewrite app_nil_r.
  - destruct (lookup_lt_is_Some_2 sids k ltac:(lia)) as [s Es].
    destruct (lookup_lt_is_Some_2 itimes k ltac:(lia)) as [t Et].
    destruct (lookup_lt_is_Some_2 specs k ltac:(lia)) as [p Ep].
    unfold bind, index. rewrite Es, Et, Ep. simpl.
    rewrite IH by lia.
    rewrite (drop_S _ _ _ Es), (drop_S _ _ _ Et), (drop_S _ _ _ Ep).
    simpl. now rewrite <- app_assoc.
Qed.

Lemma splice_out_of_range sids itimes specs (w : World X) :
  forall n k acc, (k + n = length sids)%nat ->
    (length itimes < length sids)%nat \/ (length specs < length sids)%nat ->
    (k <= length itimes)%nat -> (k <= length specs)%nat ->
    splice (seq k n) sids itimes specs acc w = (Raise IndexError, w).
Proof.
  induction n as [|n IH]; intros k acc Hk Hshort Hki Hks; simpl.
  - lia.
  - destruct (lookup_lt_is_Some_2 sids k ltac:(lia)) as [s Es].
    unfold bind at 1, index at 1. rewrite Es. simpl.
    unfold bind at 1, index at 1.
    destruct (itimes !! k) as [t|] eqn:Et; [| reflexivity]. simpl.
    unfold bind at 1, index at 1.
    destruct (specs !! k) as [p|] eqn:Ep; [| reflexivity]. simpl.
    apply lookup_lt_Some in Et, Ep.
    apply IH; lia.
Qed.

Lemma Grows_splice sids itimes specs :
  Grows P Q (fun rows => rows = spliced sids itimes specs)
    (splice (X := X) (seq 0 (length sids)) sids itimes specs []).
Proof.
  intros w.
  destruct (le_lt_dec (length sids) (length itimes)) as [Hi | Hi];
    [destruct (le_lt_dec (length sids) (length specs)) as [Hs | Hs] |].
  - rewrite (splice_in_range sids itimes specs w Hi Hs) by lia. simpl.
    split; [apply grows_refl |]. now intros a [= <-].
  - rewrite splice_out_of_range by lia.
    split; [apply grows_refl | discriminate].
  - rewrite splice_out_of_range by lia.
    split; [apply grows_refl | discriminate].
Qed.

End Footprints.

Section Programs.

Context {X : Type} (env : Env X).
Context (P : event -> Prop) (Q : TriggerRecord -> Prop).

(** [init_all] issues start-up events only; the managers it returns are
    those of the serial ports of what [gps_init] answered, of which there
    is one at least. *)
Lemma Grows_init_all fuel conf :
  (forall e, startup_event e = true -> P e) ->
  (homes env -> forall e, homing_event e = true -> P e) ->
  Grows P Q
    (fun h => answers env db_init (db h) /\
       exists ports gps,
         answers env (gps_init ports) gps /\
         map gm_port (gps_managers h) = gps_ports gps /\
         gps_ports gps <> [])
    (init_all env fuel conf).
Proof.
  intros HP HH. unfold init_all.
  apply Grows_call; [grows_event_ok | intros db Hdb].
  apply Grows_call; [grows_event_ok | intros _ _].
  apply Grows_then; [apply Grows_set_pins | intros _].
  apply Grows_call; [grows_event_ok | intros _ _].
  apply Grows_then; [apply Grows_log_info; grows_event_ok | intros _].
  apply Grows_call; [grows_event_ok | intros ports _].
  apply Grows_call; [grows_event_ok | intros motor Hmotor].
  apply Grows_call; [grows_event_ok | intros gps Hgps].
  apply Grows_call; [grows_event_ok | intros rad _].
  apply Grows_call; [grows_event_ok | intros sample _].
  cbv zeta.
  apply Grows_bind with
    (R1 := fun o : option (list GpsManager) =>
             forall ms, o = Some ms ->
               map gm_port ms = gps_ports gps /\ gps_ports gps <> []).
  { destruct (gps_ports gps) as [|p ps] eqn:Ep.
    - change (0 <? length (@nil string))%nat with false. cbv iota.
      apply Grows_then; [apply Grows_log_info; grows_event_ok | intros _].
      apply Grows_ret. discriminate.
    - change (0 <? length (p :: ps))%nat with true. cbv iota.
      eapply Grows_bind; [now apply Grows_start_managers |].
      intros ms Hms. apply Grows_ret. intros ms' [= <-].
      split; [exact Hms | discriminate]. }
  intros o Ho.
  apply Grows_then; [apply Grows_sleep; [lia | grows_event_ok] | intros _].
  eapply Grows_bind; [apply Grows_local | intros ms Ems].
  destruct (Ho ms Ems) as [Hports Hne].
  apply Grows_call; [grows_event_ok | intros checker _].
  apply Grows_then; [apply Grows_spawn | intros _].
  apply Grows_call; [grows_event_ok | intros motor_pos Hpos].
  apply Grows_then.
  { destruct (decide _) as [Ehome | Haway].
    - apply Grows_log_info; grows_event_ok.
    - assert (homes env) as Hh
        by (exists ports, motor, (serial motor), motor_pos; auto).
      specialize (HH Hh).
      apply Grows_then; [apply Grows_clock | intros t0].
      apply Grows_then; [apply Grows_log_info; grows_event_ok | intros _].
      apply Grows_call; [grows_event_ok | intros _ _].
      apply Grows_then; [now apply Grows_homing | intros _].
      apply Grows_log_info; grows_event_ok. }
  intros _.
  apply Grows_then; [apply Grows_sleep; [lia | grows_event_ok] | intros _].
  apply Grows_call; [grows_event_ok | intros rm _].
  apply Grows_then; [apply Grows_spawn | intros _].
  apply Grows_then; [apply Grows_sleep; [lia | grows_event_ok] | intros _].
  apply Grows_ret. split; [exact Hdb |]. exists ports, gps. simpl. auto.
Qed.

Lemma carried_refl bf l : carried bf l l.
Proof. unfold carried. auto 6. Qed.

Lemma carried_trans bf l1 l2 l3 :
  carried bf l1 l2 -> carried bf l2 l3 -> carried bf l1 l3.
Proof.
  intros (C1 & G1 & R1 & B1 & M1) (C2 & G2 & R2 & B2 & M2).
  unfold carried. repeat split; try congruence.
  - intros Hbf. rewrite (B2 Hbf). now apply B1.
  - destruct M2 as [M2 | M2]; [now left |]. rewrite M2. exact M1.
Qed.

(** Locals that differ in other fields only. *)
Lemma carried_same bf l l' :
  counter l' = counter l -> gps_ready l' = gps_ready l ->
  rad_ready l' = rad_ready l ->
  ship_bearing_mean l' = ship_bearing_mean l ->
  motor_ready l' = motor_ready l -> carried bf l l'.
Proof. intros. unfold carried. auto 6. Qed.

Lemma carried_fixed bf l l' : carried true l l' -> carried bf l l'.
Proof.
  intros (C & G & R & B & M). unfold carried. repeat split; auto.
Qed.

Lemma Grows_all_ready l : Grows P Q (fun _ => True) (all_ready (X := X) l).
Proof.
  unfold all_ready.
  eapply Grows_bind; [apply Grows_local | intros g _].
  eapply Grows_bind; [apply Grows_local | intros m _].
  eapply Grows_bind; [apply Grows_local | intros r _].
  eapply Grows_bind; [apply Grows_local | intros s _].
  now apply Grows_ret.
Qed.

(** The end of an iteration: the records it persists are well formed and
    carry the bearing of the locals, which it leaves as it is. *)
Lemma Grows_trigger args h l message :
  (forall e, measuring_event e = true -> P e) ->
  (used (db h) = true -> forall r, P (Ev (commit_db r))) ->
  (used (db h) = true ->
   forall r, rec_bearing r = ship_bearing_mean l ->
             well_formed_record env args h r -> Q r) ->
  Grows P Q (fun r => carried true l (fst r))
    (trigger env args h l message).
Proof.
  intros HP HC HQ. unfold trigger.
  apply Grows_then; [apply Grows_all_ready | intros ready].
  destruct ready.
  - apply Grows_then; [apply Grows_now | intros tid]. cbv zeta.
    eapply Grows_bind; [apply Grows_index | intros m0 Hm0].
    apply Grows_call; [grows_event_ok | intros gps1 Hg1].
    eapply Grows_bind; [apply Grows_index | intros m1 Hm1].
    apply Grows_call; [grows_event_ok | intros gps2 Hg2].
    apply Grows_call;
      [grows_event_ok | intros [[[tid' specs] sids] itimes] Hsam].
    eapply Grows_bind; [apply Grows_splice | intros spec_data ->].
    destruct (used (db h)); [| apply Grows_ret; now apply carried_same].
    eapply Grows_bind; [apply Grows_local | intros az _].
    eapply Grows_bind; [apply Grows_local | intros el _].
    apply Grows_then.
    { apply Grows_commit; [now apply HC |].
      apply HQ; [reflexivity | reflexivity |].
      split; [reflexivity |]. split; [now exists m0 |].
      split; [now exists m1 |]. simpl.
      now exists tid', specs, sids, itimes. }
    intros db_id.
    apply Grows_then; [apply Grows_now | intros t].
    apply Grows_ret. now apply carried_same.
  - apply Grows_then; [apply Grows_now | intros t].
    destruct (Z.abs (t - last_commit_time l) <? 60000).
    + apply Grows_then; [apply Grows_now | intros t'].
      apply Grows_ret. now apply carried_same.
    + eapply Grows_bind; [apply Grows_index | intros m0 Hm0].
      apply Grows_call; [grows_event_ok | intros gps1 Hg1].
      eapply Grows_bind; [apply Grows_index | intros m1 Hm1].
      apply Grows_call; [grows_event_ok | intros gps2 Hg2].
      apply Grows_then; [apply Grows_now | intros no_trigger_id].
      destruct (used (db h)); [| apply Grows_ret; now apply carried_same].
      eapply Grows_bind; [apply Grows_local | intros az _].
      eapply Grows_bind; [apply Grows_local | intros el _].
      apply Grows_then.
      { apply Grows_commit; [now apply HC |].
        apply HQ; [reflexivity | reflexivity |].
        split; [reflexivity |]. split; [now exists m0 |].
        split; [now exists m1 |]. exact I. }
      intros db_id.
      apply Grows_then; [apply Grows_now | intros t'].
      apply Grows_ret. now apply carried_same.
Qed.

Lemma Grows_finish args h l message :
  (forall e, measuring_event e = true -> P e) ->
  (used (db h) = true -> forall r, P (Ev (commit_db r))) ->
  (used (db h) = true ->
   forall r, rec_bearing r = ship_bearing_mean l ->
             well_formed_record env args h r -> Q r) ->
  Grows P Q (carried true l) (finish env args h l message).
Proof.
  intros HP HC HQ. unfold finish.
  eapply Grows_bind; [now apply Grows_trigger | intros r Hr].
  apply Grows_then; [apply Grows_log_info; grows_event_ok | intros _].
  apply Grows_then; [apply Grows_sleep; [lia | grows_event_ok] | intros _].
  now apply Grows_ret.
Qed.

(** What an iteration may do, by the answers the environment may give:
    the adjustment of the motor and the end of the iteration count only
    when some answers lead there.  With a fixed bearing, the records
    carry the bearing of the locals, which the iteration leaves as it
    is. *)
Lemma Grows_gps_branch fuel args h bf l message b :
  (forall e, looking_event e = true -> P e) ->
  (adjusts env h -> forall e, moving_event e = true -> P e) ->
  (measures env -> forall e, measuring_event e = true -> P e) ->
  (measures env -> used (db h) = true -> forall r, P (Ev (commit_db r))) ->
  (bf = false -> P (Ev mean_bearing)) ->
  (measures env -> used (db h) = true ->
   forall r, (bf = true -> rec_bearing r = b) ->
             well_formed_record env args h r -> Q r) ->
  (bf = true -> ship_bearing_mean l = b) ->
  Grows P Q (carried bf l) (gps_branch env fuel args h bf l message).
Proof.
  intros HL HA HM HC HB HQ Hl. unfold gps_branch.
  eapply Grows_bind; [apply Grows_index | intros m0 _].
  apply Grows_call; [grows_event_ok | intros f0 _].
  eapply Grows_bind; [apply Grows_index | intros m1 _].
  apply Grows_call; [grows_event_ok | intros f1 _].
  apply Grows_call; [grows_event_ok | intros motor_pos Hpos].
  destruct motor_pos as [pos|].
  2:{ apply Grows_then; [apply Grows_now | intros t].
      apply Grows_then; [apply Grows_sleep; [lia | grows_event_ok] | intros _].
      apply Grows_ret. apply carried_refl. }
  assert (measures env) as Hm by (right; now exists (serial (motor h)), pos).
  apply Grows_bind with (R1 := carried bf l).
  { destruct bf.
    - apply Grows_ret. apply carried_refl.
    - apply Grows_call; [now apply HB | intros mb _].
      apply Grows_ret. unfold carried. simpl.
      repeat split; auto; discriminate. }
  intros l1 Hl1.
  eapply Grows_bind; [apply Grows_index | intros n0 _].
  apply Grows_call; [grows_event_ok | intros g0 _].
  eapply Grows_bind; [apply Grows_index | intros n1 _].
  apply Grows_call; [grows_event_ok | intros g1 _].
  apply Grows_call; [grows_event_ok | intros [[az el] angles] Hcalc].
  cbv zeta.
  apply Grows_then; [apply Grows_log_info; grows_event_ok | intros _].
  eapply Grows_bind; [apply Grows_format_f | intros bearing _].
  apply Grows_call; [grows_event_ok | intros sun Hsun].
  apply Grows_then.
  { destruct (sun && _) eqn:Ec; [| now apply Grows_ret].
    apply andb_prop in Ec. destruct Ec as [-> Ec].
    assert (adjusts env h) as Ha.
    { exists g0, (ship_bearing_mean l1), pos, az, el, angles.
      repeat split; try assumption. apply Z.gtb_lt in Ec. lia. }
    specialize (HA Ha).
    apply Grows_then; [apply Grows_log_info; grows_event_ok | intros _].
    apply Grows_call; [grows_event_ok | intros _ _].
    apply Grows_then; [apply Grows_clock | intros t0].
    now apply Grows_tracking. }
  intros _.
  assert (bf = true -> ship_bearing_mean l1 = b) as Hb1.
  { intros Hbf. destruct Hl1 as (_ & _ & _ & B & _).
    rewrite (B Hbf). now apply Hl. }
  eapply Grows_post.
  { apply Grows_finish; [now apply HM | now apply HC |].
    intros Hu r Hr. apply (HQ Hm Hu). intros Hbf. rewrite Hr. simpl.
    now apply Hb1. }
  intros l' Hl'. apply carried_fixed with (bf := bf) in Hl'.
  apply carried_trans with (l2 := l1); [exact Hl1 |].
  destruct Hl' as (C & G & R & B & M). simpl in C, G, R, B, M.
  unfold carried. repeat split; try assumption.
  destruct M as [M | M]; now left.
Qed.

Lemma Grows_cycle fuel args h bf l b :
  (forall e, looking_event e = true -> P e) ->
  (adjusts env h -> forall e, moving_event e = true -> P e) ->
  (measures env -> forall e, measuring_event e = true -> P e) ->
  (measures env -> used (db h) = true -> forall r, P (Ev (commit_db r))) ->
  (bf = false -> P (Ev mean_bearing)) ->
  (measures env -> used (db h) = true ->
   forall r, (bf = true -> rec_bearing r = b) ->
             well_formed_record env args h r -> Q r) ->
  (bf = true -> ship_bearing_mean l = b) ->
  Grows P Q
    (fun l' => exists g r,
       answers env (check_gps (gps_managers h)) g /\
       answers env (check_sensors (rad h) (trigger_id l)) r /\
       carried bf (checked g r l) l')
    (cycle env fuel args h bf l).
Proof.
  intros HL HA HM HC HB HQ Hl. unfold cycle. cbv zeta.
  apply Grows_call; [grows_event_ok | intros g Hg].
  apply Grows_call; [grows_event_ok | intros r Hr].
  destruct g.
  - eapply Grows_post; [now apply Grows_gps_branch with (b := b) |].
    intros l' Hl'. now exists true, r.
  - assert (measures env) as Hm by (left; eexists; exact Hg).
    eapply Grows_post.
    { apply Grows_finish; [now apply HM | now apply HC |].
      intros Hu r0 Hr0. apply (HQ Hm Hu). intros Hbf. rewrite Hr0. simpl.
      now apply Hl. }
    intros l' Hl'. exists false, r. split; [exact Hg |]. split; [exact Hr |].
    apply carried_fixed with (bf := bf) in Hl'.
    destruct Hl' as (C & G & R & B & M). simpl in C, G, R, B, M.
    unfold carried, checked. simpl. auto 6.
Qed.

(** The loop never returns; what it does is what its iterations and the
    tear-down of its handlers do. *)
Lemma Grows_loop cycles fuel args h bf b :
  (forall e, looking_event e = true -> P e) ->
  (adjusts env h -> forall e, moving_event e = true -> P e) ->
  (measures env -> forall e, measuring_event e = true -> P e) ->
  (measures env -> used (db h) = true -> forall r, P (Ev (commit_db r))) ->
  (bf = false -> P (Ev mean_bearing)) ->
  (forall e, teardown_event e = true -> P e) ->
  (forall e, handler_event e = true -> P e) ->
  (measures env -> used (db h) = true ->
   forall r, (bf = true -> rec_bearing r = b) ->
             well_formed_record env args h r -> Q r) ->
  forall l, (bf = true -> ship_bearing_mean l = b) ->
  Grows P Q (fun _ => False) (loop env cycles fuel args h bf l).
Proof.
  intros HL HA HM HC HB HT HH HQ.
  induction cycles as [|cycles IH]; intros l Hl w; cbn [loop].
  - split; [apply grows_refl | discriminate].
  - destruct (Grows_cycle fuel args h bf l b HL HA HM HC HB HQ Hl w) as [G R].
    destruct (cycle env fuel args h bf l w) as [[l'|e|] w1]; simpl in G, R.
    + destruct (R l' eq_refl) as (g & r & _ & _ & _ & _ & _ & B & _).
      assert (bf = true -> ship_bearing_mean l' = b) as Hl'.
      { intros Hbf. rewrite (B Hbf). simpl. now apply Hl. }
      destruct (IH l' Hl' w1) as [G' R'].
      split; [eapply grows_trans; eassumption | exact R'].
    + assert (forall m : M X unit, Grows P Q (fun _ => False) m ->
                grows P Q w (snd (m w1)) /\
                forall a, fst (m w1) = Ok a -> False) as Hin.
      { intros m Hm. destruct (Hm w1) as [G' R'].
        split; [eapply grows_trans; eassumption | exact R']. }
      assert (forall e0 : exn,
                Grows P Q (fun _ : unit => False)
                  (log_exception MsgUnhandled ;;
                   stop_all env fuel (db h) (radiometry_manager h)
                     (gps_managers h) (gps_checker_manager h) ;;
                   raise e0)) as Hexc.
      { intros e0.
        apply Grows_then; [apply Grows_log_exception; grows_event_ok | intros _].
        eapply Grows_bind; [now apply Grows_stop_all | intros _ []]. }
      destruct e; simpl;
        try (apply Hin, Hexc);
        try (split; [exact G | discriminate]).
      apply Hin.
      apply Grows_then; [apply Grows_log_info; grows_event_ok | intros _].
      eapply Grows_bind; [now apply Grows_stop_all | intros _ []].
    + split; [exact G | discriminate].
Qed.

Lemma Grows_run cycles fuel args conf :
  (forall e, startup_event e = true -> P e) ->
  (homes env -> forall e, homing_event e = true -> P e) ->
  (forall e, looking_event e = true -> P e) ->
  (forall e, moving_event e = true -> P e) ->
  (forall e, measuring_event e = true -> P e) ->
  (forall d, answers env db_init d -> used d = true ->
   forall r, P (Ev (commit_db r))) ->
  (lower (use_fixed_bearing conf) <> "true" -> P (Ev mean_bearing)) ->
  (forall e, teardown_event e = true -> P e) ->
  (forall e, handler_event e = true -> P e) ->
  P (Log false MsgInitComplete) ->
  (forall d, answers env db_init d -> used d = true ->
   forall h r,
     (lower (use_fixed_bearing conf) = "true" ->
      rec_bearing r = Some (fixed_bearing_deg conf)) ->
     well_formed_record env args h r -> Q r) ->
  Grows P Q (fun _ => False) (run env cycles fuel args conf).
Proof.
  intros HS HG HL HA HM HC HB HT HH HI HQ w. unfold run.
  destruct (Grows_init_all fuel conf HS HG w) as [G R].
  destruct (init_all env fuel conf w) as [[h|e|] w1]; simpl in G, R.
  - destruct (R h eq_refl) as [Hdb _].
    assert (Grows P Q (fun _ : unit => False)
              (log_info MsgInitComplete ;;
               t ← now;
               loop env cycles fuel args h
                 (String.eqb (lower (use_fixed_bearing conf)) "true")
                 (start_locals conf t))) as Hm.
    { apply Grows_then; [now apply Grows_log_info | intros _].
      apply Grows_then; [apply Grows_now | intros t].
      apply Grows_loop with (b := Some (fixed_bearing_deg conf)); auto.
      - intros _. now apply HC.
      - intros Hbf. apply HB. intros E. rewrite E in Hbf. discriminate Hbf.
      - intros _ Hu r Hr. apply (HQ _ Hdb Hu). intros E. apply Hr.
        now rewrite E.
      - unfold start_locals. simpl. intros ->. reflexivity. }
    destruct (Hm w1) as [G' R'].
    split; [eapply grows_trans; eassumption | exact R'].
  - destruct (is_Exception e); [| split; [exact G | discriminate]].
    split; [exact G | discriminate].
  - split; [exact G | discriminate].
Qed.

End Programs.

Lemma Forall_False_nil {A} (xs : list A) : Forall (fun _ => False) xs -> xs = [].
Proof. destruct xs as [|x xs]; [reflexivity |]. intros H. now inversion H. Qed.

(** Casts a [Grows] fact into the events and the records of one run. *)
Lemma Grows_events {X A} (P : event -> Prop) (Q : TriggerRecord -> Prop)
    (R : A -> Prop) (m : M X A) w :
  Grows P Q R m ->
  exists evs rows,
    trace (snd (m w)) = trace w ++ evs /\ Forall P evs /\
    db_rows (snd (m w)) = db_rows w ++ rows /\ Forall Q rows.
Proof.
  intros H. destruct (H w) as [(_ & (evs & E & F) & (rows & E' & F')) _].
  exists evs, rows. auto.
Qed.

Lemma Grows_silent {X A} (P : event -> Prop) (R : A -> Prop) (m : M X A) w :
  Grows P (fun _ => False) R m ->
  exists evs,
    trace (snd (m w)) = trace w ++ evs /\ Forall P evs /\
    db_rows (snd (m w)) = db_rows w.
Proof.
  intros H. destruct (Grows_events _ _ _ m w H) as (evs & rows & E & F & E' & F').
  exists evs. apply Forall_False_nil in F'. subst rows.
  rewrite app_nil_r in E'. auto.
Qed.

Lemma event_cases (p q : event -> bool) :
  (forall T (c : call T), p (Ev c) = true -> q (Ev c) = true) ->
  (forall b m, p (Log b m) = true -> q (Log b m) = true) ->
  forall e, p e = true -> q e = true.
Proof. intros Hc Hl [T c|b m]; [apply Hc | apply Hl]. Qed.

Ltac footprint :=
  apply event_cases;
  [ intros T c; destruct c; simpl; intros H;
    try reflexivity; try discriminate H; try exact H
  | intros b m; destruct b, m; simpl; intros H;
    try reflexivity; try discriminate H ].

(** *** How long an iteration takes and how much it persists *)

Section Duration.

Context {X : Type} (env : Env X).

Lemma Takes_still {A} (R : A -> Prop) (m : M X A) :
  Grows (fun _ => True) (fun _ => True) R m -> Takes 0 m.
Proof.
  intros H w a w' E. destruct (H w) as [(Hw & _) _].
  rewrite E in Hw. simpl in Hw. lia.
Qed.

Lemma Takes_bind {A B} d1 d2 (m : M X A) (f : A -> M X B) :
  Takes d1 m -> (forall a, Takes d2 (f a)) -> Takes (d1 + d2) (bind m f).
Proof.
  intros Hm Hf w b w' E. unfold bind in E.
  destruct (m w) as [[a|e|] w1] eqn:Em; try discriminate E.
  specialize (Hm w a w1 Em). specialize (Hf a w1 b w' E). lia.
Qed.

Lemma Takes_after {A B} (R : A -> Prop) d (m : M X A) (f : A -> M X B) :
  Grows (fun _ => True) (fun _ => True) R m -> (forall a, Takes d (f a)) -> Takes d (bind m f).
Proof.
  intros Hm Hf. apply (Takes_bind 0 d); [| exact Hf].
  now apply Takes_still with (R := R).
Qed.

Lemma Takes_sleep {A} ms (a : A) :
  Takes ms (sleep env ms ;; ret a).
Proof.
  intros w b w' E. unfold sleep, bind, ext_call in E.
  destruct (respond env (time_sleep ms) (ext w)) as [[[]|e|] x];
    try discriminate E.
  injection E as _ <-. simpl. lia.
Qed.

Lemma Takes_finish args h l message :
  Takes 5000 (finish env args h l message).
Proof.
  unfold finish.
  eapply Takes_after; [apply Grows_trigger; auto | intros r].
  eapply Takes_after; [now apply Grows_log_info | intros _].
  apply Takes_sleep.
Qed.

Lemma Takes_gps_branch fuel args h bf l message :
  Takes 5000 (gps_branch env fuel args h bf l message).
Proof.
  unfold gps_branch.
  eapply Takes_after; [apply Grows_index | intros m0].
  eapply Takes_after; [now apply Grows_ext_call | intros f0].
  eapply Takes_after; [apply Grows_index | intros m1].
  eapply Takes_after; [now apply Grows_ext_call | intros f1].
  eapply Takes_after; [now apply Grows_ext_call | intros motor_pos].
  destruct motor_pos as [pos|].
  2:{ eapply Takes_after; [apply Grows_now | intros t]. apply Takes_sleep. }
  apply Takes_after with (R := fun _ => True).
  { destruct bf; [now apply Grows_ret |].
    apply Grows_call; [exact I | intros b _]. now apply Grows_ret. }
  intros l1.
  eapply Takes_after; [apply Grows_index | intros n0].
  eapply Takes_after; [now apply Grows_ext_call | intros g0].
  eapply Takes_after; [apply Grows_index | intros n1].
  eapply Takes_after; [now apply Grows_ext_call | intros g1].
  eapply Takes_after; [now apply Grows_ext_call | intros [[az el] angles]].
  cbv zeta.
  eapply Takes_after; [now apply Grows_log_info | intros _].
  eapply Takes_after; [apply Grows_format_f | intros bearing].
  eapply Takes_after; [now apply Grows_ext_call | intros sun].
  apply Takes_after with (R := fun _ => True); [| intros _; apply Takes_finish].
  destruct (sun && _); [| now apply Grows_ret].
  apply Grows_then; [now apply Grows_log_info | intros _].
  apply Grows_call; [exact I | intros _ _].
  apply Grows_then; [apply Grows_clock | intros t0].
  apply Grows_tracking. auto.
Qed.

(** *** How much an iteration persists *)

Lemma Persists_still {A} (R : A -> Prop) n (m : M X A) :
  Grows (fun _ => True) (fun _ => False) R m -> Persists n m.
Proof.
  intros H w. destruct (Grows_silent _ _ m w H) as (evs & _ & _ & E).
  exists []. rewrite app_nil_r. split; [exact E | simpl; lia].
Qed.

Lemma Persists_after {A B} (R : A -> Prop) n (m : M X A) (f : A -> M X B) :
  Grows (fun _ => True) (fun _ => False) R m ->
  (forall a, Persists n (f a)) -> Persists n (bind m f).
Proof.
  intros Hm Hf w. unfold bind.
  destruct (Grows_silent _ _ m w Hm) as (evs & _ & _ & E).
  destruct (m w) as [[a|e|] w1]; simpl in E.
  - destruct (Hf a w1) as (rows & E' & Hn). exists rows.
    split; [congruence | exact Hn].
  - exists []. rewrite app_nil_r. split; [exact E | simpl; lia].
  - exists []. rewrite app_nil_r. split; [exact E | simpl; lia].
Qed.

(** A commit persists one record; what follows it persists nothing. *)
Lemma Persists_commit {B} (R : B -> Prop) r (f : Z -> M X B) :
  (forall a, Grows (fun _ => True) (fun _ => False) R (f a)) ->
  Persists 1 (bind (commit env r) f).
Proof.
  intros Hf w. unfold bind at 1, commit, bind at 1, ext_call.
  destruct (respond env (commit_db r) (ext w)) as [[id|e|] x]; simpl.
  - match goal with |- context [f id ?w1] =>
      destruct (Grows_silent _ _ (f id) w1 (Hf id)) as (evs & _ & _ & E) end.
    exists [r]. split; [exact E | simpl; lia].
  - exists []. rewrite app_nil_r. split; [reflexivity | simpl; lia].
  - exists []. rewrite app_nil_r. split; [reflexivity | simpl; lia].
Qed.

Lemma Persists_trigger args h l message :
  Persists 1 (trigger env args h l message).
Proof.
  unfold trigger.
  eapply Persists_after; [apply Grows_all_ready | intros ready].
  destruct ready.
  - eapply Persists_after; [apply Grows_now | intros tid]. cbv zeta.
    eapply Persists_after; [apply Grows_index | intros m0].
    eapply Persists_after; [now apply Grows_ext_call | intros gps1].
    eapply Persists_after; [apply Grows_index | intros m1].
    eapply Persists_after; [now apply Grows_ext_call | intros gps2].
    eapply Persists_after;
      [now apply Grows_ext_call | intros [[[tid' specs] sids] itimes]].
    eapply Persists_after; [apply Grows_splice | intros spec_data].
    destruct (used (db h)).
    2:{ apply Persists_still with (R := fun _ => True). now apply Grows_ret. }
    eapply Persists_after; [apply Grows_local | intros az].
    eapply Persists_after; [apply Grows_local | intros el].
    apply Persists_commit with (R := fun _ => True). intros db_id.
    apply Grows_then; [apply Grows_now | intros t]. now apply Grows_ret.
  - eapply Persists_after; [apply Grows_now | intros t].
    destruct (Z.abs (t - last_commit_time l) <? 60000).
    + apply Persists_still with (R := fun _ => True).
      apply Grows_then; [apply Grows_now | intros t']. now apply Grows_ret.
    + eapply Persists_after; [apply Grows_index | intros m0].
      eapply Persists_after; [now apply Grows_ext_call | intros gps1].
      eapply Persists_after; [apply Grows_index | intros m1].
      eapply Persists_after; [now apply Grows_ext_call | intros gps2].
      eapply Persists_after; [apply Grows_now | intros no_trigger_id].
      destruct (used (db h)).
      2:{ apply Persists_still with (R := fun _ => True).
          now apply Grows_ret. }
      eapply Persists_after; [apply Grows_local | intros az].
      eapply Persists_after; [apply Grows_local | intros el].
      apply Persists_commit with (R := fun _ => True). intros db_id.
      apply Grows_then; [apply Grows_now | intros t']. now apply Grows_ret.
Qed.

Lemma Persists_bind {A B} n (m : M X A) (f : A -> M X B) :
  Persists n m ->
  (forall a, Grows (fun _ => True) (fun _ => False) (fun _ => True) (f a)) ->
  Persists n (bind m f).
Proof.
  intros Hm Hf w. unfold bind. destruct (Hm w) as (rows & E & Hn).
  destruct (m w) as [[a|e|] w1]; simpl in E.
  - destruct (Grows_silent _ _ (f a) w1 (Hf a)) as (evs & _ & _ & E').
    exists rows. split; [congruence | exact Hn].
  - exists rows. auto.
  - exists rows. auto.
Qed.

Lemma Persists_finish args h l message :
  Persists 1 (finish env args h l message).
Proof.
  unfold finish. apply Persists_bind; [apply Persists_trigger | intros r].
  apply Grows_then; [now apply Grows_log_info | intros _].
  apply Grows_then; [apply Grows_sleep; [lia | exact I] | intros _].
  now apply Grows_ret.
Qed.

Lemma Persists_gps_branch fuel args h bf l message :
  Persists 1 (gps_branch env fuel args h bf l message).
Proof.
  unfold gps_branch.
  eapply Persists_after; [apply Grows_index | intros m0].
  eapply Persists_after; [now apply Grows_ext_call | intros f0].
  eapply Persists_after; [apply Grows_index | intros m1].
  eapply Persists_after; [now apply Grows_ext_call | intros f1].
  eapply Persists_after; [now apply Grows_ext_call | intros motor_pos].
  destruct motor_pos as [pos|].
  2:{ apply Persists_still with (R := fun _ => True).
      apply Grows_then; [apply Grows_now | intros t].
      apply Grows_then; [apply Grows_sleep; [lia | exact I] | intros _].
      now apply Grows_ret. }
  apply Persists_after with (R := fun _ => True).
  { destruct bf; [now apply Grows_ret |].
    apply Grows_call; [exact I | intros b _]. now apply Grows_ret. }
  intros l1.
  eapply Persists_after; [apply Grows_index | intros n0].
  eapply Persists_after; [now apply Grows_ext_call | intros g0].
  eapply Persists_after; [apply Grows_index | intros n1].
  eapply Persists_after; [now apply Grows_ext_call | intros g1].
  eapply Persists_after;
    [now apply Grows_ext_call | intros [[az el] angles]].
  cbv zeta.
  eapply Persists_after; [now apply Grows_log_info | intros _].
  eapply Persists_after; [apply Grows_format_f | intros bearing].
  eapply Persists_after; [now apply Grows_ext_call | intros sun].
  apply Persists_after with (R := fun _ => True);
    [| intros _; apply Persists_finish].
  destruct (sun && _); [| now apply Grows_ret].
  apply Grows_then; [now apply Grows_log_info | intros _].
  apply Grows_call; [exact I | intros _ _].
  apply Grows_then; [apply Grows_clock | intros t0].
  apply Grows_tracking. auto.
Qed.

End Duration.

(** *** The stamps of the records *)

Section Stamping.

Context {X : Type} (env : Env X).

Lemma silent_step {A} (R : A -> Prop) (m : M X A) w :
  Grows (fun _ => True) (fun _ => False) R m ->
  wall w <= wall (snd (m w)) /\ db_rows (snd (m w)) = db_rows w.
Proof.
  intros H. destruct (H w) as [(Hw & _) _].
  destruct (Grows_silent _ _ m w H) as (_ & _ & _ & E). auto.
Qed.

Lemma Stamps_still {A} (R : A -> Prop) d (m : M X A) :
  Grows (fun _ => True) (fun _ => False) R m -> Stamps d m.
Proof.
  intros H w. destruct (silent_step R m w H) as [Hw E]. split; auto.
Qed.

Lemma Stamps_after {A B} (R : A -> Prop) d (m : M X A) (f : A -> M X B) :
  Grows (fun _ => True) (fun _ => False) R m ->
  (forall a, Stamps d (f a)) -> Stamps d (bind m f).
Proof.
  intros Hm Hf w. unfold bind.
  destruct (silent_step R m w Hm) as [Hw E].
  destruct (m w) as [[a|e|] w1]; simpl in Hw, E.
  - destruct (Hf a w1) as [Hw' H]. split; [lia |].
    destruct H as [E' | (row & E' & Ht & Hd)]; [left; congruence | right].
    exists row. split; [congruence |]. split; [lia | exact Hd].
  - split; simpl; auto.
  - split; simpl; auto.
Qed.

(** A record stamped before a part that persists nothing and takes [d]
    milliseconds. *)
Lemma Stamps_then {A B} (R : B -> Prop) d (m : M X A) (f : A -> M X B) :
  Stamps 0 m ->
  (forall a, Grows (fun _ => True) (fun _ => False) R (f a)) ->
  (forall a, Takes d (f a)) ->
  Stamps d (bind m f).
Proof.
  intros Hm Hf Hd w. unfold bind. destruct (Hm w) as [Hw H].
  destruct (m w) as [[a|e|] w1] eqn:Em; simpl in Hw, H.
  - destruct (silent_step R (f a) w1 (Hf a)) as [Hw' E'].
    split; [lia |].
    destruct H as [E | (row & E & Ht & H0)]; [left; congruence | right].
    exists row. split; [congruence |]. split; [exact Ht |].
    intros b Eb. specialize (H0 a eq_refl).
    destruct (f a w1) as [o w2] eqn:Ef. simpl in Eb. subst o.
    specialize (Hd a w1 b w2 Ef). simpl. lia.
  - split; [exact Hw |].
    destruct H as [E | (row & E & Ht & H0)]; [now left | right].
    exists row. split; [exact E |]. split; [exact Ht | discriminate].
  - split; [exact Hw |].
    destruct H as [E | (row & E & Ht & H0)]; [now left | right].
    exists row. split; [exact E |]. split; [exact Ht | discriminate].
Qed.

Lemma Commits_still {A} (R : A -> Prop) tid (m : M X A) :
  Grows (fun _ => True) (fun _ => False) R m -> Commits tid m.
Proof.
  intros H w. destruct (silent_step R m w H) as [Hw E]. split; auto.
Qed.

Lemma Commits_after {A B} (R : A -> Prop) tid (m : M X A) (f : A -> M X B) :
  Grows (fun _ => True) (fun _ => False) R m ->
  (forall a, Commits tid (f a)) -> Commits tid (bind m f).
Proof.
  intros Hm Hf w. unfold bind.
  destruct (silent_step R m w Hm) as [Hw E].
  destruct (m w) as [[a|e|] w1]; simpl in Hw, E.
  - destruct (Hf a w1) as [Hw' H]. split; [lia |].
    destruct H as [E' | (row & E' & Ht)]; [left; congruence | right].
    exists row. split; [congruence | exact Ht].
  - split; simpl; auto.
  - split; simpl; auto.
Qed.

Lemma Commits_commit {B} (R : B -> Prop) r (f : Z -> M X B) :
  (forall a, Grows (fun _ => True) (fun _ => False) R (f a)) ->
  Commits (rec_trigger_id r) (bind (commit env r) f).
Proof.
  intros Hf w. cbv [bind commit ext_call].
  destruct (respond env (commit_db r) (ext w)) as [[id|e|] x]; simpl.
  - match goal with |- context [f id ?w1] =>
      destruct (silent_step R (f id) w1 (Hf id)) as [Hw E] end.
    split; [simpl in Hw; lia |]. right. exists r.
    split; [exact E | reflexivity].
  - split; [lia | now left].
  - split; [lia | now left].
Qed.

(** The time is read, and what follows stamps its record with it. *)
Lemma Stamps_now {B} (f : Z -> M X B) :
  (forall tid, Commits tid (f tid)) -> Stamps 0 (bind now f).
Proof.
  intros Hf w. destruct (Hf (wall w) w) as [Hw H].
  change (bind now f w) with (f (wall w) w).
  split; [exact Hw |].
  destruct H as [E | (row & E & Ht)]; [now left | right].
  exists row. split; [exact E |]. rewrite Ht. split; [lia |]. intros; lia.
Qed.

Lemma Stamps_trigger args h l message :
  Stamps 0 (trigger env args h l message).
Proof.
  unfold trigger.
  eapply Stamps_after; [apply Grows_all_ready | intros ready].
  destruct ready.
  - apply Stamps_now. intros tid. cbv zeta.
    eapply Commits_after; [apply Grows_index | intros m0].
    eapply Commits_after; [now apply Grows_ext_call | intros gps1].
    eapply Commits_after; [apply Grows_index | intros m1].
    eapply Commits_after; [now apply Grows_ext_call | intros gps2].
    eapply Commits_after;
      [now apply Grows_ext_call | intros [[[tid' specs] sids] itimes]].
    eapply Commits_after; [apply Grows_splice | intros spec_data].
    destruct (used (db h)).
    2:{ apply Commits_still with (R := fun _ => True). now apply Grows_ret. }
    eapply Commits_after; [apply Grows_local | intros az].
    eapply Commits_after; [apply Grows_local | intros el].
    match goal with |- Commits _ (bind (commit env ?r) _) =>
      apply (Commits_commit (fun _ => True) r) end.
    intros db_id.
    apply Grows_then; [apply Grows_now | intros t]. now apply Grows_ret.
  - eapply Stamps_after; [apply Grows_now | intros t].
    destruct (Z.abs (t - last_commit_time l) <? 60000).
    + apply Stamps_still with (R := fun _ => True).
      apply Grows_then; [apply Grows_now | intros t']. now apply Grows_ret.
    + eapply Stamps_after; [apply Grows_index | intros m0].
      eapply Stamps_after; [now apply Grows_ext_call | intros gps1].
      eapply Stamps_after; [apply Grows_index | intros m1].
      eapply Stamps_after; [now apply Grows_ext_call | intros gps2].
      apply Stamps_now. intros no_trigger_id.
      destruct (used (db h)).
      2:{ apply Commits_still with (R := fun _ => True).
          now apply Grows_ret. }
      eapply Commits_after; [apply Grows_local | intros az].
      eapply Commits_after; [apply Grows_local | intros el].
      match goal with |- Commits _ (bind (commit env ?r) _) =>
        apply (Commits_commit (fun _ => True) r) end.
      intros db_id.
      apply Grows_then; [apply Grows_now | intros t']. now apply Grows_ret.
Qed.

Lemma Stamps_finish args h l message :
  Stamps 5000 (finish env args h l message).
Proof.
  unfold finish.
  apply Stamps_then with (R := fun _ => True).
  - apply Stamps_trigger.
  - intros r.
    apply Grows_then; [now apply Grows_log_info | intros _].
    apply Grows_then; [apply Grows_sleep; [lia | exact I] | intros _].
    now apply Grows_ret.
  - intros r.
    eapply Takes_after; [now apply Grows_log_info | intros _].
    apply Takes_sleep.
Qed.

Lemma Stamps_gps_branch fuel args h bf l message :
  Stamps 5000 (gps_branch env fuel args h bf l message).
Proof.
  unfold gps_branch.
  eapply Stamps_after; [apply Grows_index | intros m0].
  eapply Stamps_after; [now apply Grows_ext_call | intros f0].
  eapply Stamps_after; [apply Grows_index | intros m1].
  eapply Stamps_after; [now apply Grows_ext_call | intros f1].
  eapply Stamps_after; [now apply Grows_ext_call | intros motor_pos].
  destruct motor_pos as [pos|].
  2:{ apply Stamps_still with (R := fun _ => True).
      apply Grows_then; [apply Grows_now | intros t].
      apply Grows_then; [apply Grows_sleep; [lia | exact I] | intros _].
      now apply Grows_ret. }
  apply Stamps_after with (R := fun _ => True).
  { destruct bf; [now apply Grows_ret |].
    apply Grows_call; [exact I | intros b _]. now apply Grows_ret. }
  intros l1.
  eapply Stamps_after; [apply Grows_index | intros n0].
  eapply Stamps_after; [now apply Grows_ext_call | intros g0].
  eapply Stamps_after; [apply Grows_index | intros n1].
  eapply Stamps_after; [now apply Grows_ext_call | intros g1].
  eapply Stamps_after;
    [now apply Grows_ext_call | intros [[az el] angles]].
  cbv zeta.
  eapply Stamps_after; [now apply Grows_log_info | intros _].
  eapply Stamps_after; [apply Grows_format_f | intros bearing].
  eapply Stamps_after; [now apply Grows_ext_call | intros sun].
  apply Stamps_after with (R := fun _ => True);
    [| intros _; apply Stamps_finish].
  destruct (sun && _); [| now apply Grows_ret].
  apply Grows_then; [now apply Grows_log_info | intros _].
  apply Grows_call; [exact I | intros _ _].
  apply Grows_then; [apply Grows_clock | intros t0].
  apply Grows_tracking. auto.
Qed.

Lemma Stamps_cycle fuel args h bf l :
  Stamps 5000 (cycle env fuel args h bf l).
Proof.
  unfold cycle. cbv zeta.
  eapply Stamps_after; [now apply Grows_ext_call | intros g].
  eapply Stamps_after; [now apply Grows_ext_call | intros r].
  destruct g; [apply Stamps_gps_branch | apply Stamps_finish].
Qed.

Lemma apart_weaken d t t' rows : t <= t' -> apart d t' rows -> apart d t rows.
Proof.
  destruct rows as [|r rest]; simpl; [trivial |].
  intros Ht [H1 H2]. split; [lia | exact H2].
Qed.

Lemma Grows_handlers (P : event -> Prop) cycles fuel args h bf l e w w1 :
  (forall e, teardown_event e = true -> P e) ->
  (forall e, handler_event e = true -> P e) ->
  cycle env fuel args h bf l w = (Raise e, w1) ->
  grows P (fun _ => False) w1 (snd (loop env (S cycles) fuel args h bf l w)).
Proof.
  intros HT HH E. cbn [loop]. rewrite E.
  assert (forall e0 : exn,
            Grows P (fun _ => False) (fun _ : unit => False)
              (log_exception MsgUnhandled ;;
               stop_all env fuel (db h) (radiometry_manager h)
                 (gps_managers h) (gps_checker_manager h) ;;
               raise e0)) as Hexc.
  { intros e0.
    apply Grows_then; [now apply Grows_log_exception; apply HH | intros _].
    eapply Grows_bind; [now apply Grows_stop_all | intros _ []]. }
  assert (Grows P (fun _ => False) (fun _ : unit => False)
            (log_info MsgInterrupted ;;
             stop_all env fuel (db h) (radiometry_manager h)
               (gps_managers h) (gps_checker_manager h) ;;
             loop env cycles fuel args h bf l)) as Hint.
  { apply Grows_then; [now apply Grows_log_info; apply HH | intros _].
    eapply Grows_bind; [now apply Grows_stop_all | intros _ []]. }
  destruct e; simpl;
    try (apply (Hexc _ w1));
    try (apply (Hint w1)).
  apply grows_refl.
Qed.

Lemma loop_apart cycles fuel args h bf :
  forall l w, exists new,
    db_rows (snd (loop env cycles fuel args h bf l w)) = db_rows w ++ new /\
    apart 5000 (wall w) new.
Proof.
  induction cycles as [|cycles IH]; intros l w.
  - exists []. split; [now rewrite app_nil_r | exact I].
  - destruct (Stamps_cycle fuel args h bf l w) as [Hw H].
    destruct (cycle env fuel args h bf l w) as [[l'|e|] w1] eqn:E;
      simpl in Hw, H.
    + cbn [loop]. rewrite E.
      destruct (IH l' w1) as (new & En & Ha).
      destruct H as [E1 | (row & E1 & Ht & Hd)].
      * exists new. split; [congruence |].
        now apply apart_weaken with (t' := wall w1).
      * exists (row :: new). split.
        -- rewrite En, E1, <- app_assoc. reflexivity.
        -- simpl. split; [exact Ht |].
           apply apart_weaken with (t' := wall w1); [| exact Ha].
           now apply Hd with (a := l').
    + destruct (Grows_handlers (fun _ => True) cycles fuel args h bf l e w w1
                  (fun _ _ => I) (fun _ _ => I) E)
        as (_ & _ & (rows & Er & Fr)).
      apply Forall_False_nil in Fr. subst rows. rewrite app_nil_r in Er.
      rewrite Er.
      destruct H as [E1 | (row & E1 & Ht & Hd)].
      * exists []. split; [now rewrite app_nil_r | exact I].
      * exists [row]. split; [exact E1 |]. simpl. auto.
    + cbn [loop]. rewrite E. simpl.
      destruct H as [E1 | (row & E1 & Ht & Hd)].
      * exists []. split; [now rewrite app_nil_r | exact I].
      * exists [row]. split; [exact E1 |]. simpl. auto.
Qed.

Lemma apart_bounds d t rows :
  0 <= d -> apart d t rows ->
  forall r, r ∈ rows -> t <= rec_trigger_id r.
Proof.
  intros Hd. revert t. induction rows as [|r0 rest IH]; intros t Ha r Hin.
  - now apply elem_of_nil in Hin.
  - destruct Ha as [H1 H2]. apply elem_of_cons in Hin.
    destruct Hin as [-> | Hin]; [exact H1 |].
    specialize (IH _ H2 r Hin). lia.
Qed.

Lemma apart_pairwise d t rows :
  0 <= d -> apart d t rows ->
  forall i j ri rj, (i < j)%nat ->
    rows !! i = Some ri -> rows !! j = Some rj ->
    rec_trigger_id ri + d <= rec_trigger_id rj.
Proof.
  intros Hd. revert t.
  induction rows as [|r0 rest IH]; intros t Ha i j ri rj Hij Hi Hj.
  - discriminate.
  - destruct Ha as [H1 H2].
    destruct j as [|j]; [lia |]. simpl in Hj.
    destruct i as [|i]; simpl in Hi.
    + injection Hi as <-.
      apply (apart_bounds d _ rest Hd H2).
      apply list_elem_of_lookup. now exists j.
    + apply (IH _ H2 i j); try assumption. lia.
Qed.

End Stamping.

(** *** The ways out of the program *)

Section Ways_out.

Context {X : Type} (env : Env X).

Lemma Passes_now own : Passes env own (@now X).
Proof. intros w e w' H. discriminate H. Qed.

Lemma Passes_log_exception own m : Passes env own (@log_exception X m).
Proof. intros w e w' H. discriminate H. Qed.

Lemma Passes_local {A} own name (v : option A) :
  own (UnboundLocalError name) -> Passes env own (@local X A name v).
Proof. intros Ho. destruct v; [apply Passes_ret | now apply Passes_raise]. Qed.

Lemma Passes_index {A} own (xs : list A) i :
  own IndexError -> Passes env own (@index X A xs i).
Proof.
  intros Ho. unfold index.
  destruct (xs !! i); [apply Passes_ret | now apply Passes_raise].
Qed.

Lemma Passes_format_f own v :
  own TypeError -> Passes env own (@format_f X v).
Proof. intros Ho. destruct v; [apply Passes_ret | now apply Passes_raise]. Qed.

Lemma Passes_commit own r : Passes env own (commit env r).
Proof.
  unfold commit. apply Passes_bind; [apply Passes_ext_call | intros id].
  apply Passes_bind; [| intros _; apply Passes_ret].
  intros w e w' H. discriminate H.
Qed.

Lemma Passes_splice own ns sids itimes specs :
  own IndexError ->
  forall acc, Passes env own (splice (X := X) ns sids itimes specs acc).
Proof.
  intros Ho. induction ns as [|n ns IH]; intros acc; simpl.
  - apply Passes_ret.
  - apply Passes_bind; [now apply Passes_index | intros s].
    apply Passes_bind; [now apply Passes_index | intros t].
    apply Passes_bind; [now apply Passes_index | intros p].
    apply IH.
Qed.

Lemma Passes_tracking own fuel ser target t0 :
  forall moving, Passes env own (tracking env fuel ser target t0 moving).
Proof.
  induction fuel as [|fuel IH]; intros moving; simpl.
  - apply Passes_bind; [apply Passes_clock |]. intros c.
    destruct (moving && _); [apply Passes_hang | apply Passes_ret].
  - apply Passes_bind; [apply Passes_clock |]. intros c.
    destruct (moving && _); [| apply Passes_ret].
    apply Passes_bind; [apply Passes_ext_call |]. intros r.
    apply Passes_bind; [apply Passes_log_info |]. intros _.
    apply Passes_bind; [apply Passes_sleep |]. intros _. apply IH.
Qed.

Lemma Passes_all_ready l : Passes env own_error (all_ready (X := X) l).
Proof.
  unfold all_ready.
  apply Passes_bind; [now apply Passes_local | intros g].
  apply Passes_bind; [now apply Passes_local | intros m].
  apply Passes_bind; [now apply Passes_local | intros r].
  apply Passes_bind; [now apply Passes_local | intros s].
  apply Passes_ret.
Qed.

Lemma Passes_trigger args h l message :
  Passes env own_error (trigger env args h l message).
Proof.
  unfold trigger.
  apply Passes_bind; [apply Passes_all_ready | intros ready].
  destruct ready.
  - apply Passes_bind; [apply Passes_now | intros tid]. cbv zeta.
    apply Passes_bind; [now apply Passes_index | intros m0].
    apply Passes_bind; [apply Passes_ext_call | intros gps1].
    apply Passes_bind; [now apply Passes_index | intros m1].
    apply Passes_bind; [apply Passes_ext_call | intros gps2].
    apply Passes_bind; [apply Passes_ext_call | intros [[[tid' specs] sids] itimes]].
    apply Passes_bind; [now apply Passes_splice | intros spec_data].
    destruct (used (db h)); [| apply Passes_ret].
    apply Passes_bind; [now apply Passes_local | intros az].
    apply Passes_bind; [now apply Passes_local | intros el].
    apply Passes_bind; [apply Passes_commit | intros db_id].
    apply Passes_bind; [apply Passes_now | intros t].
    apply Passes_ret.
  - apply Passes_bind; [apply Passes_now | intros t].
    destruct (Z.abs (t - last_commit_time l) <? 60000).
    + apply Passes_bind; [apply Passes_now | intros t'].
      apply Passes_ret.
    + apply Passes_bind; [now apply Passes_index | intros m0].
      apply Passes_bind; [apply Passes_ext_call | intros gps1].
      apply Passes_bind; [now apply Passes_index | intros m1].
      apply Passes_bind; [apply Passes_ext_call | intros gps2].
      apply Passes_bind; [apply Passes_now | intros no_trigger_id].
      destruct (used (db h)); [| apply Passes_ret].
      apply Passes_bind; [now apply Passes_local | intros az].
      apply Passes_bind; [now apply Passes_local | intros el].
      apply Passes_bind; [apply Passes_commit | intros db_id].
      apply Passes_bind; [apply Passes_now | intros t'].
      apply Passes_ret.
Qed.

Lemma Passes_finish args h l message :
  Passes env own_error (finish env args h l message).
Proof.
  unfold finish.
  apply Passes_bind; [apply Passes_trigger | intros r].
  apply Passes_bind; [apply Passes_log_info | intros _].
  apply Passes_bind; [apply Passes_sleep | intros _].
  apply Passes_ret.
Qed.

Lemma Passes_gps_branch fuel args h bf l message :
  Passes env own_error (gps_branch env fuel args h bf l message).
Proof.
  unfold gps_branch.
  apply Passes_bind; [now apply Passes_index | intros m0].
  apply Passes_bind; [apply Passes_ext_call | intros f0].
  apply Passes_bind; [now apply Passes_index | intros m1].
  apply Passes_bind; [apply Passes_ext_call | intros f1].
  apply Passes_bind; [apply Passes_ext_call | intros motor_pos].
  destruct motor_pos as [pos|].
  2:{ apply Passes_bind; [apply Passes_now | intros t].
      apply Passes_bind; [apply Passes_sleep | intros _].
      apply Passes_ret. }
  apply Passes_bind.
  { destruct bf; [apply Passes_ret |].
    apply Passes_bind; [apply Passes_ext_call | intros b]. apply Passes_ret. }
  intros l1.
  apply Passes_bind; [now apply Passes_index | intros n0].
  apply Passes_bind; [apply Passes_ext_call | intros g0].
  apply Passes_bind; [now apply Passes_index | intros n1].
  apply Passes_bind; [apply Passes_ext_call | intros g1].
  apply Passes_bind; [apply Passes_ext_call | intros [[az el] angles]].
  cbv zeta.
  apply Passes_bind; [apply Passes_log_info | intros _].
  apply Passes_bind; [now apply Passes_format_f | intros bearing].
  apply Passes_bind; [apply Passes_ext_call | intros sun].
  apply Passes_bind; [| intros _; apply Passes_finish].
  destruct (sun && _); [| apply Passes_ret].
  apply Passes_bind; [apply Passes_log_info | intros _].
  apply Passes_bind; [apply Passes_ext_call | intros _].
  apply Passes_bind; [apply Passes_clock | intros t0].
  apply Passes_tracking.
Qed.

Lemma Passes_cycle fuel args h bf l :
  Passes env own_error (cycle env fuel args h bf l).
Proof.
  unfold cycle. cbv zeta.
  apply Passes_bind; [apply Passes_ext_call | intros g].
  apply Passes_bind; [apply Passes_ext_call | intros r].
  destruct g; [apply Passes_gps_branch | apply Passes_finish].
Qed.

Lemma Passes_init_all fuel conf :
  Passes env own_error (init_all env fuel conf).
Proof.
  unfold init_all.
  apply Passes_bind; [apply Passes_ext_call |]. intros db.
  apply Passes_bind; [apply Passes_ext_call |]. intros _.
  apply Passes_bind; [apply Passes_set_pins |]. intros _.
  apply Passes_bind; [apply Passes_ext_call |]. intros _.
  apply Passes_bind; [apply Passes_log_info |]. intros _.
  apply Passes_bind; [apply Passes_ext_call |]. intros ports.
  apply Passes_bind; [apply Passes_ext_call |]. intros motor.
  apply Passes_bind; [apply Passes_ext_call |]. intros gps.
  apply Passes_bind; [apply Passes_ext_call |]. intros rad.
  apply Passes_bind; [apply Passes_ext_call |]. intros sample.
  cbv zeta.
  apply Passes_bind.
  { destruct (0 <? length (gps_ports gps))%nat.
    - apply Passes_bind; [apply Passes_start_managers | intros ms].
      apply Passes_ret.
    - apply Passes_bind; [apply Passes_log_info | intros _]. apply Passes_ret. }
  intros o.
  apply Passes_bind; [apply Passes_sleep |]. intros _.
  apply Passes_bind; [now apply Passes_local |]. intros ms.
  apply Passes_bind; [apply Passes_ext_call |]. intros checker.
  apply Passes_bind; [apply Passes_spawn |]. intros _.
  apply Passes_bind; [apply Passes_ext_call |]. intros motor_pos.
  apply Passes_bind.
  { destruct (decide _); [apply Passes_log_info |].
    apply Passes_bind; [apply Passes_clock |]. intros t0.
    apply Passes_bind; [apply Passes_log_info |]. intros _.
    apply Passes_bind; [apply Passes_ext_call |]. intros _.
    apply Passes_bind; [apply Passes_homing |]. intros _.
    apply Passes_log_info. }
  intros _.
  apply Passes_bind; [apply Passes_sleep |]. intros _.
  apply Passes_bind; [apply Passes_ext_call |]. intros rm.
  apply Passes_bind; [apply Passes_spawn |]. intros _.
  apply Passes_bind; [apply Passes_sleep |]. intros _.
  apply Passes_ret.
Qed.

(** What follows a call of [stop_all] is never run. *)
Lemma Passes_stop_all_then {B} own fuel db rm gms gcm (f : unit -> M X B) :
  own (SystemExit 0) ->
  Passes env own (stop_all env fuel db rm gms gcm ;; f tt).
Proof.
  intros Ho w e w' H. unfold bind in H.
  pose proof (stop_all_never_returns env fuel db rm gms gcm w) as Hn.
  destruct (stop_all env fuel db rm gms gcm w) as [[u|e0|] w1] eqn:E.
  - exfalso. now apply (Hn u).
  - injection H as <- <-. eapply stop_all_passes; eassumption.
  - discriminate H.
Qed.

Lemma Passes_loop cycles fuel args h bf :
  forall l,
    Passes env (fun e => e = SystemExit 0) (loop env cycles fuel args h bf l).
Proof.
  induction cycles as [|cycles IH]; intros l w e w' H; cbn [loop] in H.
  - discriminate H.
  - destruct (cycle env fuel args h bf l w) as [[l'|e0|] w1] eqn:E.
    + eapply IH. exact H.
    + assert (forall e1 : exn,
                Passes env (fun e => e = SystemExit 0)
                  (log_exception MsgUnhandled ;;
                   stop_all env fuel (db h) (radiometry_manager h)
                     (gps_managers h) (gps_checker_manager h) ;;
                   (raise e1 : M X unit))) as Hexc.
      { intros e1. apply Passes_bind; [apply Passes_log_exception | intros _].
        now apply (Passes_stop_all_then _ _ _ _ _ _ (fun _ => raise e1)). }
      destruct (Passes_cycle fuel args h bf l w e0 w1 E) as [Hown | Hcall].
      * destruct e0; try discriminate Hown; simpl in H;
          eapply Hexc; exact H.
      * destruct e0; simpl in H;
          try (eapply Hexc; exact H).
        -- assert (Passes env (fun e => e = SystemExit 0)
                     (log_info MsgInterrupted ;;
                      stop_all env fuel (db h) (radiometry_manager h)
                        (gps_managers h) (gps_checker_manager h) ;;
                      loop env cycles fuel args h bf l)) as Hint.
           { apply Passes_bind; [apply Passes_log_info | intros _].
             now apply (Passes_stop_all_then _ _ _ _ _ _
                          (fun _ => loop env cycles fuel args h bf l)). }
           eapply Hint. exact H.
        -- injection H as <- _. now right.
    + discriminate H.
Qed.

End Ways_out.

(** *** The order of the tear-down *)

Section Stopping.

Context {X : Type} (env : Env X).

Lemma stopped_app tr1 tr2 : stopped (tr1 ++ tr2) = stopped tr1 ++ stopped tr2.
Proof. apply omap_app. Qed.

Lemma stopped_unstopping evs :
  Forall (fun e => unstopping e = true) evs -> stopped evs = [].
Proof.
  induction 1 as [|e evs He _ IH]; [reflexivity |].
  unfold stopped in *. cbn [omap list_omap].
  destruct e as [T c|b m]; [destruct c |]; try discriminate He; exact IH.
Qed.

(** A step that asks no GPS manager to stop. *)
Lemma Grows_stopped {A} (R : A -> Prop) (m : M X A) w :
  Grows (fun e => unstopping e = true) (fun _ => True) R m ->
  stopped (trace (snd (m w))) = stopped (trace w).
Proof.
  intros H. destruct (H w) as [(_ & (evs & E & F) & _) _].
  rewrite E, stopped_app, (stopped_unstopping _ F). apply app_nil_r.
Qed.

Lemma stop_managers_stopped gms :
  (forall m, returns env (gps_stop m)) ->
  forall w, exists w',
    for_each gms (fun gps_manager =>
      log_info MsgStoppingGps ;; ext_call env (gps_stop gps_manager)) w
      = (Ok tt, w') /\
    stopped (trace w') = stopped (trace w) ++ gms.
Proof.
  intros H. induction gms as [|m gms IH]; intros w; simpl.
  - eexists. split; [reflexivity |]. now rewrite app_nil_r.
  - unfold bind at 1. unfold bind at 1. simpl.
    destruct (H m (ext w)) as (a & x & E).
    unfold ext_call at 1. simpl. rewrite E. destruct a.
    match goal with
    | |- context [for_each gms _ ?w1] =>
        destruct (IH w1) as (w' & E' & Hs)
    end.
    exists w'. split; [exact E' |]. rewrite Hs. simpl.
    rewrite !stopped_app. simpl. now rewrite app_nil_r, <- app_assoc.
Qed.

End Stopping.

(** ** Further properties of [init_all] *)

Lemma prefix_spec n h :
  String.prefix n h = true <-> exists post, h = String.append n post.
Proof.
  revert h. induction n as [|a n IH]; intros h.
  - split; [intros _; now exists h | intros _; now destruct h].
  - destruct h as [|b h]; simpl.
    + split; [discriminate | intros [post E]; discriminate E].
    + destruct (ascii_dec a b) as [-> | Hne].
      * rewrite IH. split; intros [post E]; exists post;
          [now rewrite E | now injection E].
      * split; [discriminate |].
        intros [post E]. injection E as -> _. contradiction.
Qed.

Lemma contains_unfold n h :
  contains n h =
  String.prefix n h ||
  match h with EmptyString => false | String _ rest => contains n rest end.
Proof. destruct h; reflexivity. Qed.

(** ['serial' in key] holds when ["serial"] is a substring of the key. *)
Lemma contains_spec n h :
  contains n h = true <->
  exists pre post, h = String.append pre (String.append n post).
Proof.
  induction h as [|b h IH]; rewrite contains_unfold.
  - rewrite orb_false_r, prefix_spec. split.
    + intros [post E]. now exists EmptyString, post.
    + intros (pre & post & E).
      destruct pre as [|c pre]; [now exists post | discriminate E].
  - rewrite orb_true_iff, prefix_spec, IH. split.
    + intros [[post E] | (pre & post & E)].
      * now exists EmptyString, post.
      * exists (String b pre), post. simpl. now rewrite E.
    + intros (pre & post & E). destruct pre as [|c pre].
      * left. now exists post.
      * right. injection E as _ E. now exists pre, post.
Qed.

(** X1.  The GPS ports of line 117 are the values of the entries of the
    GPS dict whose key contains ["serial"] anywhere in it, and no other:
    a port is kept exactly when its key has ["serial"] as a substring,
    and the ports come in the order of the entries of the dict. *)
Theorem gps_ports_are_the_ports_of_the_serial_keys
    (gps : list (string * string)) :
  (forall port,
     port ∈ gps_ports gps <->
     exists key pre post,
       (key, port) ∈ gps /\
       key = String.append pre (String.append "serial" post)) /\
  sublist (gps_ports gps) (map snd gps).
Proof.
  split.
  - intros port. unfold gps_ports. rewrite list_elem_of_In, in_map_iff. split.
    + intros ([key p] & E & Hin). simpl in E. subst p.
      apply filter_In in Hin. destruct Hin as [Hin Hc]. simpl in Hc.
      apply contains_spec in Hc. destruct Hc as (pre & post & E).
      exists key, pre, post. split; [now apply list_elem_of_In | exact E].
    + intros (key & pre & post & Hin & E). exists (key, port).
      split; [reflexivity |].
      apply filter_In. split; [now apply list_elem_of_In |].
      simpl. apply contains_spec. now exists pre, post.
  - unfold gps_ports. induction gps as [|[k p] gps IH]; simpl.
    + constructor.
    + destruct (contains "serial" k); simpl;
        [now apply sublist_skip | now apply sublist_cons].
Qed.

(** X2.  When [init_all] returns, the GPS managers it hands over are one
    for each serial port of what [gps_init] answered, in the order of the
    ports, and there is one at least: with no port [init_all] does not
    return. *)
Theorem init_all_starts_one_manager_per_serial_port {X} (env : Env X)
    fuel conf w h w' :
  init_all env fuel conf w = (Ok h, w') ->
  exists ports gps,
    answers env (gps_init ports) gps /\
    map gm_port (gps_managers h) = gps_ports gps /\
    gps_managers h <> [].
Proof.
  intros E.
  destruct (Grows_init_all env (fun _ => True) (fun _ => True) fuel conf
              (fun _ _ => I) (fun _ _ _ => I) w) as [_ R].
  rewrite E in R.
  destruct (R h eq_refl) as (_ & ports & gps & Ha & Hp & Hne).
  exists ports, gps. repeat split; try assumption.
  intros Hnil. rewrite Hnil in Hp. simpl in Hp. now symmetry in Hp.
Qed.

(** On the nominal platform the GPS section has two serial keys and a
    baud rate: two managers are started. *)
Lemma init_all_starts_one_manager_per_serial_port_witness :
  exists ports gps,
    answers Scenario.env_nominal (gps_init ports) gps /\
    map gm_port (gps_managers (Scenario.handles0 true)) = gps_ports gps /\
    gps_managers (Scenario.handles0 true) <> [].
Proof.
  apply (init_all_starts_one_manager_per_serial_port Scenario.env_nominal
           10 Scenario.conf0 (Scenario.boot tt) (Scenario.handles0 true)
           (snd (init_all Scenario.env_nominal 10 Scenario.conf0
                   (Scenario.boot tt)))).
  vm_compute. reflexivity.
Defined.

(** X3.  A motor that is read in its home position is left alone by the
    start-up: [init_all] calls neither [return_home] nor [motor_moving]
    (lines 137, 138 and 150). *)
Theorem a_motor_at_home_is_not_moved_at_start_up {X} (env : Env X)
    fuel conf w :
  (forall ports m ser pos,
     answers env (motor_init ports) m ->
     answers env (get_motor_pos ser) pos ->
     pos = Some (home_pos m)) ->
  exists evs,
    trace (snd (init_all env fuel conf w)) = trace w ++ evs /\
    Forall (fun e => motor_at_rest e = true) evs.
Proof.
  intros Hhome.
  assert (~ homes env) as Hno.
  { intros (ports & m & ser & pos & Hm & Hp & Hne).
    apply Hne. now apply (Hhome ports m ser). }
  assert (forall e, startup_event e = true -> motor_at_rest e = true)
    as Hstart by footprint.
  pose proof (Grows_init_all env (fun e => motor_at_rest e = true)
                (fun _ => True) fuel conf Hstart
                (fun Hh => False_ind _ (Hno Hh))) as G.
  destruct (Grows_events _ _ _ _ w G) as (evs & rows & E & F & _).
  exists evs. auto.
Qed.

Lemma a_motor_at_home_is_not_moved_at_start_up_witness :
  exists evs,
    trace (snd (init_all Scenario.env_nominal 10 Scenario.conf0
                  (Scenario.boot tt)))
      = trace (Scenario.boot tt) ++ evs /\
    Forall (fun e => motor_at_rest e = true) evs.
Proof.
  apply (a_motor_at_home_is_not_moved_at_start_up Scenario.env_nominal 10
           Scenario.conf0 (Scenario.boot tt)).
  intros ports m ser pos (x & x' & E) (y & y' & E').
  simpl in E, E'. injection E as <- _. injection E' as <- _. reflexivity.
Defined.

(** ** Further properties of [stop_all] *)

(** X4.  Whatever its arguments and however the calls answer, [stop_all]
    issues tear-down events only: closing the cursor, driving pins 11,
    12, 13 and 15 low, the GPIO clean-up, [stop] of a GPS manager, joins,
    sleeps and its own log lines.  Nothing is called on the radiometry
    manager or on the GPS checker, which are only unbound by [del], and
    no record is persisted. *)
Theorem stop_all_only_tears_down {X} (env : Env X) fuel db rm gms gcm w :
  exists evs,
    trace (snd (stop_all env fuel db rm gms gcm w)) = trace w ++ evs /\
    Forall (fun e => teardown_event e = true) evs /\
    db_rows (snd (stop_all env fuel db rm gms gcm w)) = db_rows w.
Proof.
  apply Grows_silent with (R := fun _ => False).
  apply Grows_stop_all. auto.
Qed.

(** X5.  When the calls of the tear-down answer, [stop_all] asks every
    GPS manager it was given to stop, once each and in the order of the
    list, before it exits with status 0. *)
Theorem stop_all_stops_every_gps_manager_in_turn {X} (env : Env X)
    fuel db rm gms gcm w :
  (forall c, returns env (cursor_close c)) ->
  (forall pins level, returns env (GPIO_output pins level)) ->
  returns env GPIO_cleanup ->
  (forall m, returns env (gps_stop m)) ->
  (forall t, returns env (thread_join t)) ->
  (forall ms, returns env (time_sleep ms)) ->
  (0 < fuel)%nat ->
  exists w1,
    stop_all env fuel db rm gms gcm w = (Raise (SystemExit 0), w1) /\
    stopped (trace w1) = stopped (trace w) ++ gms.
Proof.
  intros Hc Ho Hcl Hs Hj Hsl Hfuel. unfold stop_all.
  assert (exists w0,
            (if used db then ext_call env (cursor_close (cur db))
             else ret tt) w = (Ok tt, w0)
            /\ stopped (trace w0) = stopped (trace w)) as (w0 & E0 & S0).
  { destruct (used db).
    - destruct (ext_call_returns env _ w (Hc (cur db))) as ([] & x & E).
      eexists. split; [exact E |]. simpl. rewrite stopped_app. simpl.
      apply app_nil_r.
    - exists w. split; reflexivity. }
  rewrite (bind_Ok _ _ _ _ _ E0).
  call_returns (Ho [11; 12; 13; 15] false).
  unfold bind at 1. simpl.
  call_returns Hcl.
  unfold bind at 1. simpl. unfold bind at 1. simpl.
  match goal with
  | |- context [bind (for_each gms ?b) _ ?w2] =>
      destruct (stop_managers_stopped env gms Hs w2) as (w3 & E3 & S3)
  end.
  rewrite (bind_Ok _ _ _ _ _ E3).
  simpl in S3. rewrite !stopped_app in S3. simpl in S3.
  rewrite !app_nil_r in S3.
  destruct (sleep_returns env 100 w3 (Hsl 100)) as (w4 & E4 & _ & _).
  assert (stopped (trace w4) = stopped (trace w3)) as S4.
  { pose proof (Grows_stopped (fun _ => True) (sleep env 100) w3) as S.
    rewrite E4 in S. apply S. apply Grows_sleep; [lia | reflexivity]. }
  rewrite (bind_Ok _ _ _ _ _ E4).
  destruct (wait_threads_returns env fuel w4 Hj Hsl Hfuel)
    as (w5 & E5 & _ & _).
  assert (stopped (trace w5) = stopped (trace w4)) as S5.
  { pose proof (Grows_stopped (fun _ => True) (wait_threads env fuel) w4) as S.
    rewrite E5 in S. apply S. apply Grows_wait_threads.
    intros [T c|b m]; [destruct c | destruct b, m]; simpl; intros He;
      try discriminate He; reflexivity. }
  rewrite (bind_Ok _ _ _ _ _ E5).
  exists w5. split; [reflexivity |]. congruence.
Qed.

Lemma stop_all_stops_every_gps_manager_in_turn_witness :
  exists w1,
    stop_all Scenario.env_nominal 10 (db (Scenario.handles0 true))
      (radiometry_manager (Scenario.handles0 true))
      (gps_managers (Scenario.handles0 true))
      (gps_checker_manager (Scenario.handles0 true)) (Scenario.running tt)
      = (Raise (SystemExit 0), w1) /\
    stopped (trace w1)
      = stopped (trace (Scenario.running tt))
        ++ gps_managers (Scenario.handles0 true).
Proof.
  apply (stop_all_stops_every_gps_manager_in_turn Scenario.env_nominal 10
           (db (Scenario.handles0 true))
           (radiometry_manager (Scenario.handles0 true))
           (gps_managers (Scenario.handles0 true))
           (gps_checker_manager (Scenario.handles0 true))
           (Scenario.running tt)).
  - intros c x. eexists _, _. reflexivity.
  - intros pins level x. eexists _, _. reflexivity.
  - intros x. eexists _, _. reflexivity.
  - intros m x. eexists _, _. reflexivity.
  - intros t x. eexists _, _. reflexivity.
  - intros ms x. eexists _, _. reflexivity.
  - lia.
Defined.

Lemma before_ending (pre rest evs1 : list event) e evs2 :
  Forall (fun e => ending_event e = false) pre ->
  pre ++ rest = evs1 ++ e :: evs2 ->
  ending_event e = true ->
  exists k, evs1 = pre ++ k.
Proof.
  intros Hpre. revert evs1.
  induction Hpre as [|p pre Hp _ IH]; intros evs1 E He.
  - now exists evs1.
  - destruct evs1 as [|a evs1]; simpl in E.
    + injection E as -> _. congruence.
    + injection E as -> E. destruct (IH evs1 E He) as [k ->]. now exists k.
Qed.

Lemma no_ending (tr evs evs1 : list event) e evs2 :
  Forall (fun e => ending_event e = false) evs ->
  tr ++ evs = tr ++ evs1 ++ e :: evs2 ->
  ending_event e = true -> False.
Proof.
  intros F E He. apply app_inv_head in E. subst evs.
  apply Forall_app in F. destruct F as [_ F].
  inversion F as [|? ? Hf _]. congruence.
Qed.

(** X6.  [stop_all] cuts the pins first: whenever it asks a GPS manager
    to stop or joins a thread, it has driven pins 11, 12, 13 and 15 low
    and cleaned up the GPIO before (lines 172 to 174 come before lines
    185 to 195), whatever the calls answer. *)
Theorem stop_all_cuts_the_pins_first {X} (env : Env X)
    fuel db rm gms gcm w evs1 e evs2 :
  trace (snd (stop_all env fuel db rm gms gcm w))
    = trace w ++ evs1 ++ e :: evs2 ->
  ending_event e = true ->
  Ev (GPIO_output [11; 12; 13; 15] false) ∈ evs1 /\ Ev GPIO_cleanup ∈ evs1.
Proof.
  intros Htr He. unfold stop_all in Htr.
  assert (exists o w0 pa,
            (if used db then ext_call env (cursor_close (cur db))
             else ret tt) w = (o, w0) /\
            trace w0 = trace w ++ pa /\
            Forall (fun e => ending_event e = false) pa)
    as (o & w0 & pa & EA & Ta & Fa).
  { destruct (used db).
    - unfold ext_call. destruct (respond env _ (ext w)) as [r x].
      eexists _, _, [_]. split; [reflexivity |]. split; [reflexivity |].
      repeat constructor.
    - exists (Ok tt), w, []. rewrite app_nil_r. repeat split. constructor. }
  unfold bind at 1 in Htr. rewrite EA in Htr.
  destruct o as [[]|ex|]; simpl in Htr;
    try (exfalso; rewrite Ta in Htr;
         exact (no_ending (trace w) pa evs1 e evs2 Fa Htr He)).
  cbv zeta in Htr. unfold bind at 1, ext_call at 1 in Htr.
  destruct (respond env (GPIO_output [11; 12; 13; 15] false) (ext w0))
    as [[[]|ex|] x1]; simpl in Htr;
    try (exfalso; rewrite Ta, <- app_assoc in Htr;
         refine (no_ending (trace w) (pa ++ [_]) evs1 e evs2 _ Htr He);
         apply Forall_app; split; [exact Fa | repeat constructor]).
  unfold bind at 1, set_pins at 1 in Htr. cbv beta iota in Htr.
  unfold bind at 1, ext_call at 1 in Htr. simpl in Htr.
  destruct (respond env GPIO_cleanup x1) as [[[]|ex|] x2]; simpl in Htr;
    try (exfalso; rewrite Ta, <- !app_assoc in Htr;
         refine (no_ending (trace w) (pa ++ [_; _]) evs1 e evs2 _ Htr He);
         apply Forall_app; split; [exact Fa | repeat constructor]).
  match type of Htr with
  | trace (snd (?m ?w2)) = _ =>
      assert (Grows (fun _ => True) (fun _ => True) (fun _ => False) m) as G
  end.
  { apply Grows_then; [now apply Grows_log_info | intros _].
    apply Grows_then; [now apply Grows_log_info | intros _].
    apply Grows_then.
    { apply Grows_for_each. intros m.
      apply Grows_then; [now apply Grows_log_info | intros _].
      eapply Grows_post; [now apply Grows_ext_call | auto]. }
    intros _.
    apply Grows_then; [apply Grows_sleep; [lia | exact I] | intros _].
    apply Grows_then; [apply Grows_wait_threads; auto | intros _].
    apply Grows_raise. }
  match type of Htr with
  | trace (snd (?m ?w2)) = _ =>
      destruct (Grows_events _ _ _ m w2 G) as (rest & _ & Er & _)
  end.
  rewrite Er in Htr. simpl in Htr. rewrite Ta, <- !app_assoc in Htr.
  apply app_inv_head in Htr. simpl in Htr.
  change (pa ++ Ev (GPIO_output [11; 12; 13; 15] false)
             :: Ev GPIO_cleanup :: rest)
    with (pa ++ [Ev (GPIO_output [11; 12; 13; 15] false); Ev GPIO_cleanup]
             ++ rest) in Htr.
  rewrite app_assoc in Htr.
  assert (Forall (fun e => ending_event e = false)
            (pa ++ [Ev (GPIO_output [11; 12; 13; 15] false); Ev GPIO_cleanup]))
    as Fpre by (apply Forall_app; split; [exact Fa | repeat constructor]).
  destruct (before_ending _ _ _ _ _ Fpre Htr He) as [k ->].
  rewrite !elem_of_app, !elem_of_cons. auto 6.
Qed.

(** The tear-down on the nominal platform, up to the first GPS manager
    that is stopped. *)
Lemma stop_all_cuts_the_pins_first_witness :
  let evs1 := [Ev (cursor_close 7); Ev (GPIO_output [11; 12; 13; 15] false);
               Ev GPIO_cleanup; Log false MsgStoppingRad;
               Log false MsgStoppingChecker; Log false MsgStoppingGps] in
  Ev (GPIO_output [11; 12; 13; 15] false) ∈ evs1 /\ Ev GPIO_cleanup ∈ evs1.
Proof.
  intros evs1.
  apply (stop_all_cuts_the_pins_first Scenario.env_nominal 10
           (db (Scenario.handles0 true))
           (radiometry_manager (Scenario.handles0 true))
           (gps_managers (Scenario.handles0 true))
           (gps_checker_manager (Scenario.handles0 true))
           (Scenario.running tt) evs1
           (Ev (gps_stop {| gm_port := "ttyUSB1"; gm_ident := 301 |}))
           [Log false MsgStoppingGps;
            Ev (gps_stop {| gm_port := "ttyUSB2"; gm_ident := 302 |});
            Ev (time_sleep 100); Log false (MsgIdent 301);
            Ev (thread_join 301); Log false (MsgIdent 302);
            Ev (thread_join 302); Log false (MsgIdent 100);
            Ev (thread_join 100); Log false (MsgIdent 200);
            Ev (thread_join 200); Log false (MsgActive 1);
            Ev (time_sleep 500)]).
  - vm_compute. reflexivity.
  - reflexivity.
Defined.

(** ** Further properties of [run] and of its loop *)

(** X7.  No call of a whole run asks for a pin to be driven high: the
    only calls on the pins are [init_gpio(conf, state=0)] and
    [GPIO.output(pins, GPIO.LOW)], however the run goes. *)
Theorem run_never_drives_a_pin_high {X} (env : Env X)
    cycles fuel args conf w :
  exists evs,
    trace (snd (run env cycles fuel args conf w)) = trace w ++ evs /\
    Forall (fun e => never_high e = true) evs.
Proof.
  destruct (Grows_events (fun e => never_high e = true) (fun _ => True)
              (fun _ => False) (run env cycles fuel args conf) w)
    as (evs & rows & E & F & _).
  { apply Grows_run.
    - footprint.
    - intros _. footprint.
    - footprint.
    - footprint.
    - footprint.
    - reflexivity.
    - reflexivity.
    - footprint. now destruct level.
    - footprint.
    - reflexivity.
    - auto. }
  exists evs. auto.
Qed.


(** X9.  A [KeyboardInterrupt] raised inside an iteration (lines 368 to
    370): when the calls of the tear-down answer, the interruption is
    logged at INFO level and not as an unhandled exception, the four pins
    are left low, no thread is left, nothing more is persisted and the
    process exits with status 0. *)
Theorem interrupt_tears_down_and_exits_with_zero {X} (env : Env X)
    cycles fuel args h bearing_fixed l w w1 :
  cycle env fuel args h bearing_fixed l w = (Raise KeyboardInterrupt, w1) ->
  (forall c, returns env (cursor_close c)) ->
  (forall pins level, returns env (GPIO_output pins level)) ->
  returns env GPIO_cleanup ->
  (forall m, returns env (gps_stop m)) ->
  (forall t, returns env (thread_join t)) ->
  (forall ms, returns env (time_sleep ms)) ->
  (0 < fuel)%nat ->
  exists w2,
    loop env (S cycles) fuel args h bearing_fixed l w
      = (Raise (SystemExit 0), w2) /\
    (forall p, p ∈ [11; 12; 13; 15] -> pin_level w2 !! p = Some false) /\
    threads w2 = [] /\
    db_rows w2 = db_rows w1 /\
    Log false MsgInterrupted ∈ trace w2 /\
    Log true MsgUnhandled ∉ drop (length (trace w1)) (trace w2).
Proof.
  intros E Hc Ho Hcl Hs Hj Hsl Hfuel. cbn [loop]. rewrite E.
  unfold bind at 1, log_info at 1. cbv beta iota.
  match goal with
  | |- context [bind (stop_all env ?a ?b ?c ?d ?f) _ ?w0] =>
      destruct (stop_all_returns env a b c d f w0 Hc Ho Hcl Hs Hj Hsl Hfuel)
        as (w2 & E2 & Hp & Ht);
      destruct (Grows_stop_all env (fun e => teardown_event e = true)
                  (fun _ => False) a b c d f (fun _ H => H) w0)
        as [(_ & (evs & Etr & Fev) & (rows & Erows & Frows)) _];
      rewrite E2 in Etr, Erows; simpl in Etr, Erows
  end.
  exists w2. rewrite (bind_Raise _ _ _ _ _ E2).
  split; [reflexivity |]. split; [| split; [exact Ht | split; [| split]]].
  - intros p Hin. rewrite Hp. now apply drive_lookup.
  - destruct rows as [|r rows]; [now rewrite app_nil_r in Erows |].
    now inversion Frows.
  - rewrite Etr. apply elem_of_app. left. apply elem_of_app. right. left.
  - rewrite Etr, <- app_assoc, drop_app_length.
    simpl. rewrite not_elem_of_cons. split; [discriminate |].
    intros Hin. rewrite Forall_forall in Fev.
    specialize (Fev _ Hin). discriminate Fev.
Qed.

(** The operator presses Ctrl-C while the first iteration checks the
    GPS. *)
Lemma interrupt_tears_down_and_exits_with_zero_witness :
  let w1 := snd (cycle (Scenario.platform Scenario.interrupted_early) 10
                   Scenario.args0 (Scenario.handles0 true) false
                   (start_locals Scenario.conf0 1000000)
                   (Scenario.running tt)) in
  exists w2,
    loop (Scenario.platform Scenario.interrupted_early) 1 10 Scenario.args0
      (Scenario.handles0 true) false (start_locals Scenario.conf0 1000000)
      (Scenario.running tt)
      = (Raise (SystemExit 0), w2) /\
    (forall p, p ∈ [11; 12; 13; 15] -> pin_level w2 !! p = Some false) /\
    threads w2 = [] /\
    db_rows w2 = db_rows w1 /\
    Log false MsgInterrupted ∈ trace w2 /\
    Log true MsgUnhandled ∉ drop (length (trace w1)) (trace w2).
Proof.
  intros w1.
  apply (interrupt_tears_down_and_exits_with_zero
           (Scenario.platform Scenario.interrupted_early) 0 10 Scenario.args0
           (Scenario.handles0 true) false
           (start_locals Scenario.conf0 1000000) (Scenario.running tt) w1).
  - vm_compute. reflexivity.
  - intros c x. eexists _, _. reflexivity.
  - intros pins level x. eexists _, _. reflexivity.
  - intros x. eexists _, _. reflexivity.
  - intros m x. eexists _, _. reflexivity.
  - intros t x. eexists _, _. reflexivity.
  - intros ms x. eexists _, _. reflexivity.
  - lia.
Defined.

(** X10.  An exception raised in an iteration ends the loop: what follows
    it is the log line of the handler and the tear-down, and nothing
    else.  No further iteration is started, nothing is sampled and
    nothing is persisted any more, whatever the exception and whatever
    the calls of the tear-down answer. *)
Theorem an_exception_ends_the_loop {X} (env : Env X)
    cycles fuel args h bearing_fixed l w e w1 :
  cycle env fuel args h bearing_fixed l w = (Raise e, w1) ->
  exists evs,
    trace (snd (loop env (S cycles) fuel args h bearing_fixed l w))
      = trace w1 ++ evs /\
    Forall (fun e => closing_event e = true) evs /\
    db_rows (snd (loop env (S cycles) fuel args h bearing_fixed l w))
      = db_rows w1.
Proof.
  intros E.
  destruct (Grows_handlers env (fun e => closing_event e = true) cycles fuel
              args h bearing_fixed l e w w1) as (_ & Hev & (rows & Er & Fr)).
  - intros e0 H0. unfold closing_event. now rewrite H0.
  - intros e0 H0. unfold closing_event. rewrite H0. apply orb_true_r.
  - exact E.
  - destruct Hev as (evs & Ee & Fe). exists evs.
    apply Forall_False_nil in Fr. subst rows. rewrite app_nil_r in Er. auto.
Qed.

(** A radiometer fails in the first iteration on the nominal platform. *)
Lemma an_exception_ends_the_loop_witness :
  let w1 := snd (cycle (Scenario.platform Scenario.sampling_fault) 10
                   Scenario.args0 (Scenario.handles0 true) false
                   (start_locals Scenario.conf0 1000000)
                   (Scenario.running tt)) in
  let r := loop (Scenario.platform Scenario.sampling_fault) 3 10
             Scenario.args0 (Scenario.handles0 true) false
             (start_locals Scenario.conf0 1000000) (Scenario.running tt) in
  exists evs,
    trace (snd r) = trace w1 ++ evs /\
    Forall (fun e => closing_event e = true) evs /\
    db_rows (snd r) = db_rows w1.
Proof.
  intros w1 r.
  apply (an_exception_ends_the_loop
           (Scenario.platform Scenario.sampling_fault) 2 10 Scenario.args0
           (Scenario.handles0 true) false
           (start_locals Scenario.conf0 1000000) (Scenario.running tt)
           (OtherError "SerialException") w1).
  vm_compute. reflexivity.
Defined.

(** X11.  The motor is moved only when the sun is suitable and the target
    is further from the position than the step threshold (line 291): if
    [check_sun] never answers true, or if every target that
    [calculate_positions] answers is within the threshold of the position
    it was given, the loop never calls [rotate_motor] and never polls
    [motor_moving]. *)
Theorem loop_leaves_the_motor_at_rest {X} (env : Env X)
    cycles fuel args h bearing_fixed l w :
  (forall az el a, answers env (check_sun (sample h) az el) a -> a = false) \/
  (forall g b pos az el angles,
     answers env (calculate_positions g b pos) (az, el, angles) ->
     Z.abs (target_motor_pos_step angles - pos) <= step_thresh (motor h)) ->
  exists evs,
    trace (snd (loop env cycles fuel args h bearing_fixed l w))
      = trace w ++ evs /\
    Forall (fun e => motor_at_rest e = true) evs.
Proof.
  intros Hrest.
  assert (~ adjusts env h) as Hno.
  { intros (g & b & pos & az & el & angles & Hc & Hs & Ht).
    destruct Hrest as [Hsun | Hnear].
    - specialize (Hsun az el true Hs). discriminate Hsun.
    - specialize (Hnear g b pos az el angles Hc). lia. }
  destruct (Grows_events (fun e => motor_at_rest e = true) (fun _ => True)
              (fun _ => False)
              (loop env cycles fuel args h bearing_fixed l) w)
    as (evs & rows & E & F & _).
  { apply Grows_loop with (b := ship_bearing_mean l).
    - footprint.
    - intros Ha. contradiction.
    - intros _. footprint.
    - reflexivity.
    - reflexivity.
    - footprint.
    - footprint.
    - auto.
    - reflexivity. }
  exists evs. auto.
Qed.

(** At night the sun is never suitable. *)
Lemma loop_leaves_the_motor_at_rest_witness :
  exists evs,
    trace (snd (loop (Scenario.platform Scenario.night) 3 10 Scenario.args0
                  (Scenario.handles0 true) false
                  (start_locals Scenario.conf0 1000000)
                  (Scenario.running tt)))
      = trace (Scenario.running tt) ++ evs /\
    Forall (fun e => motor_at_rest e = true) evs.
Proof.
  apply (loop_leaves_the_motor_at_rest (Scenario.platform Scenario.night)
           3 10 Scenario.args0 (Scenario.handles0 true) false
           (start_locals Scenario.conf0 1000000) (Scenario.running tt)).
  left. intros az el a (x & x' & E). simpl in E. now injection E as <- _.
Defined.

(** X12.  With [use_fixed_bearing] set to true in any letter case (lines
    233 to 235 and 268), the mean bearing of the GPS checker is never
    read and every record the run persists carries the configured
    [fixed_bearing_deg]. *)
Theorem fixed_bearing_is_what_is_recorded {X} (env : Env X)
    cycles fuel args conf w :
  lower (use_fixed_bearing conf) = "true" ->
  exists evs rows,
    trace (snd (run env cycles fuel args conf w)) = trace w ++ evs /\
    Forall (fun e => bearing_unread e = true) evs /\
    db_rows (snd (run env cycles fuel args conf w)) = db_rows w ++ rows /\
    Forall (fun r => rec_bearing r = Some (fixed_bearing_deg conf)) rows.
Proof.
  intros Hfixed.
  apply Grows_events with (R := fun _ => False).
  apply Grows_run.
  - footprint.
  - intros _. footprint.
  - footprint.
  - footprint.
  - footprint.
  - reflexivity.
  - intros Hne. contradiction.
  - footprint.
  - footprint.
  - reflexivity.
  - auto.
Qed.

Lemma fixed_bearing_is_what_is_recorded_witness :
  exists evs rows,
    trace (snd (run Scenario.env_nominal 3 10 Scenario.args0
                  Scenario.conf_fixed (Scenario.boot tt)))
      = trace (Scenario.boot tt) ++ evs /\
    Forall (fun e => bearing_unread e = true) evs /\
    db_rows (snd (run Scenario.env_nominal 3 10 Scenario.args0
                    Scenario.conf_fixed (Scenario.boot tt)))
      = db_rows (Scenario.boot tt) ++ rows /\
    Forall (fun r => rec_bearing r
                     = Some (fixed_bearing_deg Scenario.conf_fixed)) rows.
Proof.
  apply (fixed_bearing_is_what_is_recorded Scenario.env_nominal 3 10
           Scenario.args0 Scenario.conf_fixed (Scenario.boot tt)).
  reflexivity.
Defined.

(** X13.  While the GPS is ready and the position of the motor cannot be
    read, every iteration ends at the [continue] of line 265: the loop
    samples nothing, snapshots no GPS manager, logs no status line and
    persists nothing, not even the metadata record that is otherwise
    written every 60 s.  The iteration that finds the GPS not ready does
    write that record: here the two paths of the loop differ (see C3). *)
Theorem nothing_is_recorded_while_the_motor_is_unread {X} (env : Env X)
    cycles fuel args h bearing_fixed l w :
  (forall ms a, answers env (check_gps ms) a -> a = true) ->
  (forall ser a, answers env (get_motor_pos ser) a -> a = None) ->
  exists evs,
    trace (snd (loop env cycles fuel args h bearing_fixed l w))
      = trace w ++ evs /\
    Forall (fun e => idle_event e = true) evs /\
    db_rows (snd (loop env cycles fuel args h bearing_fixed l w)) = db_rows w.
Proof.
  intros Hgps Hpos.
  assert (~ measures env) as Hno.
  { intros [(ms & Ha) | (ser & pos & Ha)].
    - specialize (Hgps ms false Ha). discriminate Hgps.
    - specialize (Hpos ser (Some pos) Ha). discriminate Hpos. }
  apply Grows_silent with (R := fun _ => False).
  apply Grows_loop with (b := ship_bearing_mean l).
  - footprint.
  - intros _. footprint.
  - intros Hm. contradiction.
  - intros Hm. contradiction.
  - reflexivity.
  - footprint.
  - footprint.
  - intros Hm. contradiction.
  - reflexivity.
Qed.

Lemma nothing_is_recorded_while_the_motor_is_unread_witness :
  exists evs,
    trace (snd (loop (Scenario.platform Scenario.motor_silent) 20 10
                  Scenario.args0 (Scenario.handles0 true) false
                  (start_locals Scenario.conf0 1000000)
                  (Scenario.running tt)))
      = trace (Scenario.running tt) ++ evs /\
    Forall (fun e => idle_event e = true) evs /\
    db_rows (snd (loop (Scenario.platform Scenario.motor_silent) 20 10
                    Scenario.args0 (Scenario.handles0 true) false
                    (start_locals Scenario.conf0 1000000)
                    (Scenario.running tt)))
      = db_rows (Scenario.running tt).
Proof.
  apply (nothing_is_recorded_while_the_motor_is_unread
           (Scenario.platform Scenario.motor_silent) 20 10 Scenario.args0
           (Scenario.handles0 true) false
           (start_locals Scenario.conf0 1000000) (Scenario.running tt)).
  - intros ms a (x & x' & E). simpl in E. now injection E as <- _.
  - intros ser a (x & x' & E). simpl in E. now injection E as <- _.
Defined.

(** X14.  When [db_init] reports that no database is in use, a whole run
    never calls [commit_db] and persists nothing (the guards of lines 340
    and 359). *)
Theorem an_unused_database_is_never_written {X} (env : Env X)
    cycles fuel args conf w :
  (forall d, answers env db_init d -> used d = false) ->
  exists evs,
    trace (snd (run env cycles fuel args conf w)) = trace w ++ evs /\
    Forall (fun e => uncommitted e = true) evs /\
    db_rows (snd (run env cycles fuel args conf w)) = db_rows w.
Proof.
  intros Hunused.
  apply Grows_silent with (R := fun _ => False).
  apply Grows_run.
  - footprint.
  - intros _. footprint.
  - footprint.
  - footprint.
  - footprint.
  - intros d Hd Hu. rewrite (Hunused d Hd) in Hu. discriminate Hu.
  - reflexivity.
  - footprint.
  - footprint.
  - reflexivity.
  - intros d Hd Hu. rewrite (Hunused d Hd) in Hu. discriminate Hu.
Qed.

Lemma an_unused_database_is_never_written_witness :
  exists evs,
    trace (snd (run (Scenario.platform Scenario.no_db) 20 10 Scenario.args0
                  Scenario.conf0 (Scenario.boot tt)))
      = trace (Scenario.boot tt) ++ evs /\
    Forall (fun e => uncommitted e = true) evs /\
    db_rows (snd (run (Scenario.platform Scenario.no_db) 20 10
                    Scenario.args0 Scenario.conf0 (Scenario.boot tt)))
      = db_rows (Scenario.boot tt).
Proof.
  apply (an_unused_database_is_never_written
           (Scenario.platform Scenario.no_db) 20 10 Scenario.args0
           Scenario.conf0 (Scenario.boot tt)).
  intros d (x & x' & E). simpl in E. now injection E as <- _.
Defined.

(** X15.  An iteration that completes has taken 5 s of wall-clock time at
    least, whichever way it went: every path to the end of the body of
    the loop, the [continue] of line 265 included, sleeps 5 s (lines 264
    and 366). *)
Theorem an_iteration_takes_five_seconds {X} (env : Env X)
    fuel args h bearing_fixed l w l' w' :
  cycle env fuel args h bearing_fixed l w = (Ok l', w') ->
  wall w + 5000 <= wall w'.
Proof.
  revert w l' w'.
  change (Takes 5000 (cycle env fuel args h bearing_fixed l)).
  unfold cycle. cbv zeta.
  eapply Takes_after; [now apply Grows_ext_call | intros g].
  eapply Takes_after; [now apply Grows_ext_call | intros r].
  destruct g; [apply Takes_gps_branch | apply Takes_finish].
Qed.

Lemma an_iteration_takes_five_seconds_witness :
  let r := cycle Scenario.env_nominal 10 Scenario.args0
             (Scenario.handles0 true) false
             (start_locals Scenario.conf0 1000000) (Scenario.running tt) in
  (exists l', fst r = Ok l') /\
  wall (Scenario.running tt) + 5000 <= wall (snd r).
Proof.
  intros r. split; [eexists; vm_compute; reflexivity |].
  apply (an_iteration_takes_five_seconds Scenario.env_nominal 10
           Scenario.args0 (Scenario.handles0 true) false
           (start_locals Scenario.conf0 1000000) (Scenario.running tt)
           {| counter := 1; last_commit_time := 1000014;
              trigger_id := Some 1000010; ship_bearing_mean := Some 90;
              solar_az := Some 180; solar_el := Some 40;
              gps_ready := Some true; rad_ready := Some true;
              sun_suitable := Some true; motor_ready := Some true |}
           (snd r)).
  vm_compute. reflexivity.
Defined.

(** X16.  An iteration persists one record at most, whatever the
    answers of the environment and whether it completes or not: a full
    record, a metadata record, or none. *)
Theorem an_iteration_persists_one_record_at_most {X} (env : Env X)
    fuel args h bearing_fixed l w :
  exists rows,
    db_rows (snd (cycle env fuel args h bearing_fixed l w))
      = db_rows w ++ rows /\
    (length rows <= 1)%nat.
Proof.
  revert w.
  change (Persists 1 (cycle env fuel args h bearing_fixed l)).
  unfold cycle. cbv zeta.
  eapply Persists_after; [now apply Grows_ext_call | intros g].
  eapply Persists_after; [now apply Grows_ext_call | intros r].
  destruct g; [apply Persists_gps_branch | apply Persists_finish].
Qed.

(** X17.  The trigger ids of the records the loop persists, in the order
    in which they are persisted, are 5 s apart at least, and none is
    before the time at which the loop was entered: no two records share
    a trigger id (with a wall clock that does not go back). *)
Theorem trigger_ids_are_five_seconds_apart {X} (env : Env X)
    cycles fuel args h bearing_fixed l w :
  exists new,
    db_rows (snd (loop env cycles fuel args h bearing_fixed l w))
      = db_rows w ++ new /\
    (forall r, r ∈ new -> wall w <= rec_trigger_id r) /\
    (forall i j ri rj, (i < j)%nat ->
       new !! i = Some ri -> new !! j = Some rj ->
       rec_trigger_id ri + 5000 <= rec_trigger_id rj).
Proof.
  destruct (loop_apart env cycles fuel args h bearing_fixed l w)
    as (new & E & Ha).
  exists new. split; [exact E |]. split.
  - now apply (apart_bounds 5000).
  - now apply (apart_pairwise 5000 (wall w)).
Qed.

(** X18.  An iteration that completes has added one to the counter and
    has computed [gps_ready] and [rad_ready] afresh, from [check_gps] and
    from [check_sensors] called with the trigger id left by the
    iterations before.  [motor_ready] it has set to true or left as it
    was: no iteration sets it to false, so once the position of the motor
    has been read the gate takes the motor for ready ever after. *)
Theorem an_iteration_never_clears_motor_ready {X} (env : Env X)
    fuel args h bearing_fixed l w l' w' :
  cycle env fuel args h bearing_fixed l w = (Ok l', w') ->
  counter l' = counter l + 1 /\
  (exists g, gps_ready l' = Some g /\
             answers env (check_gps (gps_managers h)) g) /\
  (exists r, rad_ready l' = Some r /\
             answers env (check_sensors (rad h) (trigger_id l)) r) /\
  (motor_ready l' = Some true \/ motor_ready l' = motor_ready l).
Proof.
  intros E.
  assert (Grows (fun _ => True) (fun _ => True)
            (fun l' => exists g r,
               answers env (check_gps (gps_managers h)) g /\
               answers env (check_sensors (rad h) (trigger_id l)) r /\
               carried bearing_fixed (checked g r l) l')
            (cycle env fuel args h bearing_fixed l)) as G
    by (apply Grows_cycle with (b := ship_bearing_mean l); auto).
  destruct (G w) as [_ R]. rewrite E in R.
  destruct (R l' eq_refl) as (g & r & Hg & Hr & C & Gp & Rd & _ & M).
  simpl in C, Gp, Rd, M.
  split; [exact C |]. split; [now exists g |]. split; [now exists r |].
  exact M.
Qed.

(** The first iteration on the nominal platform. *)
Lemma an_iteration_never_clears_motor_ready_witness :
  let l := start_locals Scenario.conf0 1000000 in
  let l' := {| counter := 1; last_commit_time := 1000014;
               trigger_id := Some 1000010; ship_bearing_mean := Some 90;
               solar_az := Some 180; solar_el := Some 40;
               gps_ready := Some true; rad_ready := Some true;
               sun_suitable := Some true; motor_ready := Some true |} in
  counter l' = counter l + 1 /\
  (exists g, gps_ready l' = Some g /\
             answers Scenario.env_nominal
               (check_gps (gps_managers (Scenario.handles0 true))) g) /\
  (exists r, rad_ready l' = Some r /\
             answers Scenario.env_nominal
               (check_sensors (rad (Scenario.handles0 true)) (trigger_id l))
               r) /\
  (motor_ready l' = Some true \/ motor_ready l' = motor_ready l).
Proof.
  intros l l'.
  apply (an_iteration_never_clears_motor_ready Scenario.env_nominal 10
           Scenario.args0 (Scenario.handles0 true) false l
           (Scenario.running tt) l'
           (snd (cycle Scenario.env_nominal 10 Scenario.args0
                   (Scenario.handles0 true) false l (Scenario.running tt)))).
  vm_compute. reflexivity.
Defined.

(** X19.  The splicing of lines 335 to 337: when [sample_all] answers
    with an integration time and a spectrum for every channel id,
    [spec_data] is the list of the triples taken position by position, in
    the order of the ids, and integration times or spectra beyond the
    last id are ignored; when either sequence is shorter than the ids the
    loop raises [IndexError] and no row is kept. *)
Theorem splice_zips_or_fails {X} sids itimes specs (w : World X) :
  splice (seq 0 (length sids)) sids itimes specs [] w
  = if ((length sids <=? length itimes) && (length sids <=? length specs))%nat
    then (Ok (spliced sids itimes specs), w)
    else (Raise IndexError, w).
Proof.
  destruct (Nat.leb_spec (length sids) (length itimes)) as [Hi | Hi]; simpl.
  - destruct (Nat.leb_spec (length sids) (length specs)) as [Hs | Hs].
    + now rewrite (splice_in_range sids itimes specs w Hi Hs).
    + apply splice_out_of_range; lia.
  - apply splice_out_of_range; lia.
Qed.

(** X20.  Every record the loop persists is well formed: it carries the
    verbosity of the command line, snapshots of the first and of the
    second GPS manager, in this order, and for spectra either nothing or
    exactly the rows spliced from what [sample_all] answered when called
    with the trigger id of that record. *)
Theorem persisted_records_are_well_formed {X} (env : Env X)
    cycles fuel args h bearing_fixed l w :
  exists rows,
    db_rows (snd (loop env cycles fuel args h bearing_fixed l w))
      = db_rows w ++ rows /\
    Forall (well_formed_record env args h) rows.
Proof.
  destruct (Grows_events (fun _ => True) (well_formed_record env args h)
              (fun _ => False)
              (loop env cycles fuel args h bearing_fixed l) w)
    as (evs & rows & _ & _ & E & F).
  { apply Grows_loop with (b := ship_bearing_mean l); auto. }
  exists rows. auto.
Qed.
